(** * Singularity analysis bounds: a shallow embedding of
      [ore_algebra/analytic/singularity_analysis.py]

    The development follows the layout of the Python module:

    - [Exceptions]: Python exceptions as an error monad;
    - complex numbers as pairs of reals (algebraic numbers of [QQbar] are
      complex numbers) and the interface of ball arithmetic ([CBF], [RBF]);
    - [truncate_tail] on polynomials with ball coefficients;
    - [bound_coeff_mono], the coefficient-extraction bound and its recursion;
    - [process_modZ_class], [contribution_single_singularity],
      [numerical_sol_big_circle] and [contribution_all_singularity]. *)

From Stdlib Require Import Reals Lra Lia ZArith List Bool String Psatz.
From Stdlib Require Import Zfloor Sorted Permutation SpecFloat.
Import ListNotations.

(** ** Python exceptions *)

Inductive exn : Type :=
| ValueError (msg : string)
| ZeroDivisionError
| TypeError
| IndexError
| AttributeError
| AssertionError
| OverflowError.

Inductive result (A : Type) : Type :=
| Ok (a : A)
| Raise (e : exn).

Arguments Ok {A} a.
Arguments Raise {A} e.

Definition bind {A B : Type} (r : result A) (k : A -> result B) : result B :=
  match r with
  | Ok a => k a
  | Raise e => Raise e
  end.

Notation "x <- r ;; k" := (bind r (fun x => k))
  (at level 61, r at next level, right associativity).

(** ** Complex numbers *)

Open Scope R_scope.

Record C : Type := mkC { Re : R; Im : R }.

Definition C0 : C := mkC 0 0.
Definition RtoC (x : R) : C := mkC x 0.
Definition Cadd (a b : C) : C := mkC (Re a + Re b) (Im a + Im b).
Definition Csub (a b : C) : C := mkC (Re a - Re b) (Im a - Im b).
Definition Cscale (r : R) (z : C) : C := mkC (r * Re z) (r * Im z).
Definition Cconj (z : C) : C := mkC (Re z) (- Im z).
Definition Cmod (z : C) : R := sqrt (Re z * Re z + Im z * Im z).

(** ** Ball arithmetic

    [CBF]/[ComplexBallField] is Arb's complex ball arithmetic, a numeric
    primitive that the module consumes.  Its floating-point rounding is not
    modelled; what the module relies on is the enclosure contract of every
    operation, which is what the class records.  [contains b z] reads: the
    complex number [z] lies in the ball [b]. *)

Class BallArith : Type := {
  ball : Type;
  contains : ball -> C -> Prop;
  (** upper bounds returned as [RBF] elements, possibly infinite;
      [mag_bounds m x] reads: [x] is at most the bound [m] *)
  mag : Type;
  mag_bounds : mag -> R -> Prop;
  (** [CB(x)] for a real number [x] *)
  b_of_real : R -> ball;
  (** [CB(0).add_error(m)] *)
  b_zero_err : mag -> ball;
  (** [c.mid() == 0] *)
  b_mid_is_zero : ball -> bool;
  (** [c.is_zero()] *)
  b_is_zero : ball -> bool;
  (** [c.above_abs()] *)
  b_above_abs : ball -> mag;
  b_add : ball -> ball -> ball;
  b_mul : ball -> ball -> ball;
  b_div : ball -> ball -> ball;
  (** [c.log()] *)
  b_log : ball -> ball;
  (** [c.pow(k)] for an integer [k] *)
  b_pow : ball -> Z -> ball;

  of_real_ok : forall x, contains (b_of_real x) (RtoC x);
  zero_err_ok : forall m r z,
      mag_bounds m r -> Cmod z <= r -> contains (b_zero_err m) z;
  above_abs_ok : forall c z, contains c z -> mag_bounds (b_above_abs c) (Cmod z);
  mid_zero_star : forall c z t,
      b_mid_is_zero c = true -> contains c z -> 0 <= t <= 1 ->
      contains c (Cscale t z);
  add_ok : forall a b x y,
      contains a x -> contains b y -> contains (b_add a b) (Cadd x y);
  mul_real_ok : forall a b z r,
      contains a z -> contains b (RtoC r) -> contains (b_mul a b) (Cscale r z);
  div_real_ok : forall a b z r,
      contains a z -> contains b (RtoC r) -> r <> 0 ->
      contains (b_div a b) (Cscale (/ r) z);
  log_ok : forall b r,
      contains b (RtoC r) -> 0 < r -> contains (b_log b) (RtoC (ln r));
  pow_ok : forall b r k,
      contains b (RtoC r) -> r <> 0 -> contains (b_pow b k) (RtoC (powerRZ r k))
}.

(** ** The polynomial ring [Expr = CB['v','logz','u','w','logn']] *)

Inductive gen : Type := V | Logz | U | W | Logn.

Definition gen_eqb (x y : gen) : bool :=
  match x, y with
  | V, V | Logz, Logz | U, U | W, W | Logn, Logn => true
  | _, _ => false
  end.

(** A monomial is its exponent tuple, [mon.exponents()[0]]. *)
Record mon : Type := Mon {
  e_v : nat; e_logz : nat; e_u : nat; e_w : nat; e_logn : nat
}.

(** [mon.degree(x)] for a generator [x]. *)
Definition degree (m : mon) (x : gen) : nat :=
  match x with
  | V => e_v m | Logz => e_logz m | U => e_u m | W => e_w m | Logn => e_logn m
  end.

(** [(x**k).exponents()[0]], read at slot [j]. *)
Definition power_exps (x : gen) (k : nat) (j : gen) : nat :=
  if gen_eqb j x then k else 0%nat.

(** [prod(R.gens()[j]**t[j] for j in range(len(t)))] *)
Definition mon_of_exps (t : gen -> nat) : mon :=
  Mon (t V) (t Logz) (t U) (t W) (t Logn).

Definition mon_eqb (a b : mon) : bool :=
  Nat.eqb (e_v a) (e_v b) && Nat.eqb (e_logz a) (e_logz b)
  && Nat.eqb (e_u a) (e_u b) && Nat.eqb (e_w a) (e_w b)
  && Nat.eqb (e_logn a) (e_logn b).

(** Value of a monomial at a real point. *)
Definition mon_val (env : gen -> R) (m : mon) : R :=
  env V ^ e_v m * env Logz ^ e_logz m * env U ^ e_u m
  * env W ^ e_w m * env Logn ^ e_logn m.

Section Truncation.

Context {BA : BallArith}.

(** A polynomial is the list of its terms, as iterated by [for c, mon in f];
    a polynomial of the ring has pairwise distinct monomials.  Terms whose
    coefficient became exactly zero are kept in the list: they do not
    change any value of the polynomial. *)
Definition poly : Type := list (mon * ball).

(** [g + t] for a term [t] with coefficient [c] and monomial [m] *)
Fixpoint poly_add_term (g : poly) (m : mon) (c : ball) : poly :=
  match g with
  | [] => [(m, c)]
  | (m', c') :: g' =>
      if mon_eqb m' m then (m', b_add c' c) :: g'
      else (m', c') :: poly_add_term g' m c
  end.


(** [c if c.mid() == 0 else CB(0).add_error(c.above_abs())] *)
Definition centered (c : ball) : ball :=
  if b_mid_is_zero c then c else b_zero_err (b_above_abs c).

(** The coefficient of the polynomial [c*mon]: the product, in ball
    arithmetic, of [c] by the coefficient 1 of the monomial [mon]. *)
Definition term_coeff (c : ball) : ball := b_mul c (b_of_real 1).

(** One iteration of the loop of the branch [kappa is None]. *)
Definition truncate_term (deg : nat) (min_n : R) (w : gen)
    (g : poly) (t : mon * ball) : poly :=
  let '(m, c) := t in
  let deg_w := degree m w in
  if (deg <? deg_w)%nat then
    let tuple_mon_g := fun j =>
      (degree m j - power_exps w (deg_w - deg) j)%nat in
    let mon_g := mon_of_exps tuple_mon_g in
    let c_g := b_div (centered c) (b_of_real (min_n ^ (deg_w - deg))) in
    poly_add_term g mon_g (term_coeff c_g)
  else poly_add_term g m (term_coeff c).

(** One iteration of the loop of the branch [kappa is not None].  A negative
    power [logn**(kappa - deg_logn)] is not a polynomial and has no
    [exponents()]; without [logn] the power [None**...] is a type error. *)
Definition truncate_term_log (deg : nat) (min_n : R) (w : gen) (kappa : nat)
    (logn : option gen) (g : poly) (t : mon * ball) : result poly :=
  let '(m, c) := t in
  let deg_w := degree m w in
  if (deg <=? deg_w)%nat then
    match logn with
    | None => Raise TypeError
    | Some lg =>
        let deg_logn := degree m lg in
        if (kappa <? deg_logn)%nat then Raise AttributeError
        else
          let tuple_mon_g := fun j =>
            (degree m j - power_exps w (deg_w - deg) j
             + power_exps lg (kappa - deg_logn) j)%nat in
          let mon_g := mon_of_exps tuple_mon_g in
          let c_g :=
            b_mul (b_div (centered c) (b_of_real (min_n ^ (deg_w - deg))))
                  (b_pow (b_log (b_of_real min_n))
                         (Z.of_nat deg_logn - Z.of_nat kappa)) in
          Ok (poly_add_term g mon_g (term_coeff c_g))
    end
  else Ok (poly_add_term g m (term_coeff c)).

Fixpoint truncate_loop_log (deg : nat) (min_n : R) (w : gen) (kappa : nat)
    (logn : option gen) (f : poly) (g : poly) : result poly :=
  match f with
  | [] => Ok g
  | t :: f' =>
      g' <- truncate_term_log deg min_n w kappa logn g t ;;
      truncate_loop_log deg min_n w kappa logn f' g'
  end.

(** [truncate_tail(f, deg, min_n, w, kappa, logn)].  The target degrees
    [deg] and [kappa] are natural numbers, as in every call of the module;
    [w] and [logn] are generators of the ring. *)
Definition truncate_tail (f : poly) (deg : nat) (min_n : R) (w : gen)
    (kappa : option nat) (logn : option gen) : result poly :=
  match kappa with
  | None => Ok (fold_left (truncate_term deg min_n w) f [])
  | Some k => truncate_loop_log deg min_n w k logn f []
  end.

(** *** Enclosure semantics *)

(** [in_range env f y]: [y] is a value of [f] at the point [env] for some
    choice of exact coefficients inside the coefficient balls. *)
Inductive in_range (env : gen -> R) : poly -> C -> Prop :=
| in_range_nil : in_range env [] C0
| in_range_cons : forall m c z f y,
    contains c z -> in_range env f y ->
    in_range env ((m, c) :: f) (Cadd (Cscale (mon_val env m) z) y).

(** Evaluation at a point in ball arithmetic, as Sage evaluates a generic
    multivariate polynomial: [y = 0], then [y += c * (value of mon)] for
    each term.  [mv mon] is the ball computed for the value of [mon]. *)
Fixpoint eval_from (mv : mon -> ball) (g : poly) (y : ball) : ball :=
  match g with
  | [] => y
  | (m, c) :: g' => eval_from mv g' (b_add y (b_mul c (mv m)))
  end.

Definition eval_ball (mv : mon -> ball) (g : poly) : ball :=
  eval_from mv g (b_of_real 0).

End Truncation.

(** ** Exact tests on algebraic numbers ([QQbar], [AA]) *)

Definition Reqb (x y : R) : bool := if Req_dec_T x y then true else false.
Definition Rleb (x y : R) : bool := if Rle_dec x y then true else false.
Definition Rltb (x y : R) : bool := if Rlt_dec x y then true else false.

Definition Ceqb (a b : C) : bool := Reqb (Re a) (Re b) && Reqb (Im a) (Im b).

(** [QQbar(a).is_integer()] *)
Definition is_integer (a : C) : bool :=
  Reqb (Im a) 0 && Reqb (IZR (Zfloor (Re a))) (Re a).

(** [int(a)]: truncation towards zero of the real part. *)
Definition int_of (a : C) : Z :=
  if Rle_dec 0 (Re a) then Zfloor (Re a) else Zceil (Re a).

(** [QQbar(a).is_integer() and QQbar(a) <= 0] *)
Definition is_nonpos_int (a : C) : bool := is_integer a && Rleb (Re a) 0.

(** ** Contribution of a logarithmic monomial *)

(** The recursion of [bound_coeff_mono] is recorded next to its result: one
    node per invocation with its arguments [alpha], [l], [min_n], and one
    child per recursive call that was started. *)
Inductive call_tree : Type :=
| CallLeaf (alpha : C) (l : nat) (min_n : R)
| CallOne (alpha : C) (l : nat) (min_n : R) (t1 : call_tree)
| CallTwo (alpha : C) (l : nat) (min_n : R) (t1 t2 : call_tree).

Definition call_alpha (t : call_tree) : C :=
  match t with
  | CallLeaf a _ _ | CallOne a _ _ _ | CallTwo a _ _ _ _ => a
  end.

Definition call_l (t : call_tree) : nat :=
  match t with
  | CallLeaf _ l _ | CallOne _ l _ _ | CallTwo _ l _ _ _ => l
  end.

Definition call_min_n (t : call_tree) : R :=
  match t with
  | CallLeaf _ _ m | CallOne _ _ m _ | CallTwo _ _ m _ _ => m
  end.

(** The recursive calls started by the root invocation. *)
Definition subcalls (t : call_tree) : list call_tree :=
  match t with
  | CallLeaf _ _ _ => []
  | CallOne _ _ _ t1 => [t1]
  | CallTwo _ _ _ t1 t2 => [t1; t2]
  end.

(** Nesting depth of the recursion. *)
Fixpoint call_depth (t : call_tree) : nat :=
  match t with
  | CallLeaf _ _ _ => 0
  | CallOne _ _ _ t1 => S (call_depth t1)
  | CallTwo _ _ _ t1 t2 => S (Nat.max (call_depth t1) (call_depth t2))
  end.

Section GammaRatio.

Context {BA : BallArith}.

(** The product [c * f_z * g_z * h_z] of the generic case, built from
    [truncated_ratio_gamma], [truncated_logder] and [truncated_power] with
    Sage's [gamma], [bernoulli] and power-series primitives, is taken as a
    parameter; so is the sum [ss] of the contiguous relation, built with
    Sage's polynomial substitution from the two recursive results and from
    the error bounds [bound_error_u] and [bound_error_logz], whose
    computation divides by [min_n - 1], [1 - 1/(min_n - 1)] and
    [1 - 2/(min_n - 1)] and so fails for [min_n] equal to 1, 2 or 3.
    Arguments: [alpha l deg w logn s min_n], and the two recursive results
    for [ss]. *)
Variable product_all :
  C -> nat -> nat -> gen -> gen -> R -> R -> result poly.
Variable contiguous_sum :
  C -> nat -> nat -> gen -> gen -> R -> R -> poly -> poly -> result poly.

Definition min_n_too_small : string := "min_n too small!".

(** [bound_coeff_mono(alpha, l, deg, w, logn, s, min_n)].  [fuel] bounds the
    nesting of recursive calls; [None] means the budget was exhausted. *)
Fixpoint bound_coeff_mono (fuel : nat) (alpha : C) (l deg : nat)
    (w logn : gen) (s min_n : R) : option (call_tree * result poly) :=
  if negb (is_nonpos_int alpha) then
    Some (CallLeaf alpha l min_n,
          p <- product_all alpha l deg w logn s min_n ;;
          truncate_tail p deg min_n w None None)
  else if (l =? 0)%nat then
    Some (CallLeaf alpha l min_n,
          if Rle_dec min_n (IZR (- int_of alpha))
          then Raise (ValueError min_n_too_small)
          else Ok [])
  else
    match fuel with
    | O => None
    | S fuel' =>
        match bound_coeff_mono fuel' (Cadd alpha (RtoC 1)) l deg
                U Logz s (min_n - 1) with
        | None => None
        | Some (t1, Raise e) => Some (CallOne alpha l min_n t1, Raise e)
        | Some (t1, Ok poly_rec_1) =>
            match bound_coeff_mono fuel' (Cadd alpha (RtoC 1)) (l - 1) deg
                    U Logz s (min_n - 1) with
            | None => None
            | Some (t2, Raise e) =>
                Some (CallTwo alpha l min_n t1 t2, Raise e)
            | Some (t2, Ok poly_rec_2) =>
                Some (CallTwo alpha l min_n t1 t2,
                      ss <- contiguous_sum alpha l deg w logn s min_n
                              poly_rec_1 poly_rec_2 ;;
                      truncate_tail ss deg min_n w None None)
            end
        end
    end.

End GammaRatio.

(** ** Python list primitives *)

Definition empty_max : string := "max() arg is an empty sequence".
Definition empty_min : string := "min() arg is an empty sequence".

(** [max(l)] and [min(l)] on real numbers *)
Definition max_of (l : list R) : result R :=
  match l with
  | [] => Raise (ValueError empty_max)
  | x :: l' => Ok (fold_left Rmax l' x)
  end.

Definition min_of (l : list R) : result R :=
  match l with
  | [] => Raise (ValueError empty_min)
  | x :: l' => Ok (fold_left Rmin l' x)
  end.

Definition max_of_nat (l : list nat) : result nat :=
  match l with
  | [] => Raise (ValueError empty_max)
  | x :: l' => Ok (fold_left Nat.max l' x)
  end.

(** [l[0]] and [l[-1]] *)
Definition first_of {A : Type} (l : list A) : result A :=
  match l with
  | [] => Raise IndexError
  | x :: _ => Ok x
  end.

Fixpoint last_of {A : Type} (l : list A) : result A :=
  match l with
  | [] => Raise IndexError
  | [x] => Ok x
  | _ :: l' => last_of l'
  end.

(** [l.sort(key=key)]: a stable sort by a real key. *)
Section SortByKey.

Variable A : Type.
Variable key : A -> R.

Fixpoint insert_by (x : A) (l : list A) : list A :=
  match l with
  | [] => [x]
  | y :: l' =>
      if Rlt_dec (key x) (key y) then x :: y :: l' else y :: insert_by x l'
  end.

Definition sort_by (l : list A) : list A :=
  fold_left (fun acc x => insert_by x acc) l [].

End SortByKey.

Arguments insert_by {A} key x l.
Arguments sort_by {A} key l.

(** ** Points of the complex plane *)

Definition Cmul (a b : C) : C :=
  mkC (Re a * Re b - Im a * Im b) (Re a * Im b + Im a * Re b).

(** [(t*I).exp()] *)
Definition Cexp_i (t : R) : C := mkC (cos t) (sin t).

(** [z.arg()], in (-pi, pi] *)
Definition Carg (z : C) : R :=
  if Rlt_dec 0 (Re z) then atan (Im z / Re z)
  else if Rlt_dec (Re z) 0 then
    if Rle_dec 0 (Im z) then atan (Im z / Re z) + PI
    else atan (Im z / Re z) - PI
  else if Rlt_dec 0 (Im z) then PI / 2
  else if Rlt_dec (Im z) 0 then - (PI / 2)
  else 0.

(** A sample square [z.add_error(halfside)] of the big circle. *)
Record square : Type := Square { sq_center : C; sq_half : R }.

(** [z.conjugate()] *)
Definition sq_conj (q : square) : square :=
  Square (Cconj (sq_center q)) (sq_half q).

(** ** Local solutions *)

(** A [FundamentalSolution] returned by [critical_monomials]: [value] lists,
    for each critical monomial, the coefficients of the powers of the
    logarithm, leading one first. *)
Record fund_sol : Type := FundSol {
  fs_leftmost : C;
  fs_shift : Z;
  fs_log_power : nat;
  fs_value : list (list C)
}.

(** The test under [not (...)] in the definition of [nonanalytic]. *)
Definition analytic_sol (sol : fund_sol) : bool :=
  is_integer (fs_leftmost sol)
  && Rleb 0 (Re (fs_leftmost sol) + IZR (fs_shift sol))
  && forallb (fun term => forallb (fun c => Ceqb c C0) (tl term))
             (fs_value sol).

(** ** _sing_in_disk and _choose_big_radius *)

Fixpoint sing_in_disk_aux (elts : list C) (rad : R) : list C * option R :=
  match elts with
  | [] => ([], None)
  | x :: rest =>
      let mag := Cmod x in
      if Rlt_dec rad mag then ([], Some mag)
      else let (d, m) := sing_in_disk_aux rest rad in (x :: d, m)
  end.

Definition sing_in_disk (elts : list C) (rad infinity : R) : list C * R :=
  let (d, m) := sing_in_disk_aux elts rad in
  (d, match m with Some mag => mag | None => infinity end).

(** Distances [abs(a - b)] over the pairs of distinct points. *)
Definition distances (l1 l2 : list C) : list R :=
  flat_map (fun a =>
    map (fun b => Cmod (Csub b a)) (filter (fun b => negb (Ceqb b a)) l2)) l1.

Definition choose_big_radius (all_exn_points dominant_sing : list C)
    (next_sing_rad : R) : result R :=
  max_smallrad <- min_of (distances dominant_sing all_exn_points) ;;
  ds_last <- last_of dominant_sing ;;
  let dom_rad := Cmod ds_last in
  Ok (Rmin (next_sing_rad * 9 / 10 + dom_rad / 10)
           (dom_rad + max_smallrad * 8 / 10)).

(** Interesting points: all singularities of the equation, plus the
    origin. *)
Definition exceptional_points (deq_singularities : list C) : list C :=
  if existsb (fun s => Ceqb s C0) deq_singularities
  then deq_singularities else deq_singularities ++ [C0].

(** ** Contribution of a single regular singularity *)

Definition s_too_small : string := "min_n too small! Cannot guarantee s>2".
Definition no_sing_in_disk : string := "No singularity in given disk".
Definition sing_on_radius : string := "A singularity is on the given radius".

(** ** Python floats

    A Python float is an IEEE 754 binary64 number: 53 bits of mantissa,
    products rounded to the nearest, ties to even.  A finite float
    [S754_finite sg m e] is the number [+/- m * 2^e]. *)

Definition float_mul (x y : spec_float) : spec_float := SFmul 53 1024 x y.

(** The literal [2.1]: the double nearest to 21/10,
    [4728779608739021 * 2^-51 = 2.100000000000000088817841970012523...]. *)
Definition float_2_1 : spec_float := S754_finite false 4728779608739021 (-51).

Definition float_nan : string := "cannot convert float NaN to integer".

(** [ceil(x)] for a float [x], an integer; an infinity or a NaN has no
    integer value. *)
Definition float_ceil (x : spec_float) : result Z :=
  match x with
  | S754_zero _ => Ok 0%Z
  | S754_finite sg m e =>
      let n := if sg then Z.neg m else Z.pos m in
      Ok (match e with
          | Z.neg p => (- ((- n) / 2 ^ Z.pos p))%Z
          | _ => (n * 2 ^ e)%Z
          end)
  | S754_infinity _ => Raise OverflowError
  | S754_nan => Raise (ValueError float_nan)
  end.

(** The real number that a finite float is. *)
Definition float_val (x : spec_float) : R :=
  match x with
  | S754_finite sg m e => IZR (if sg then Z.neg m else Z.pos m) * powerRZ 2 e
  | _ => 0
  end.

Section Contribution.

Context {BA : BallArith}.

(** What [process_modZ_class] appends to [irred_factor_cols]: the leftmost
    exponent and [data = [kappa, bound, dom_big_circle]]. *)
Record class_data : Type := ClassData {
  cd_leftmost : C;
  cd_kappa : nat;
  cd_bound : poly;
  cd_big_circle : list ball
}.

(** The tuple returned by [contribution_single_singularity]. *)
Record contribution : Type := Contribution {
  list_val_rho : list C;
  list_bound : list poly;
  val_big_circle : list ball;
  max_kappa : nat;
  min_val_rho : R
}.

(** Collaborators outside the module, for a fixed operator [deq] and fixed
    initial values [ini]:
    - [deq._singularities(QQbar, multiplicities=False)], and the same with
      [include_apparent=False];
    - [critical_monomials] of the operator shifted to [rho];
    - the exponent classes [(leftmost, shifts)] at [rho] over which
      [LocalBasisMapper.run] calls [process_modZ_class];
    - [_my_log_series] and [_bound_tail], which rest on [log_series] and
      [DiffOpBound];
    - the two local integral bounds, returned as their sum together with
      the samples [dom_big_circle];
    - [deq.numerical_solution] along a path of squares starting at 0;
    - the assembly of the symbolic bound from the data of all singularities. *)
Variable deq_singularities : list C.
Variable deq_singularities_nonapparent : list C.
Variable critical_monomials : C -> list fund_sol.
Variable exponent_classes : C -> list (C * list (nat * nat)).
Variable my_log_series :
  C -> C -> list (nat * nat) -> Z -> result (list (list ball)).
Variable bound_tail :
  C -> C -> R -> Z -> list (list ball) -> result ball.
Variable bound_local_integral :
  C -> C -> Z -> Z -> R -> list (list ball) -> ball -> nat ->
  list square -> result (poly * list ball).
Variable numerical_solution : list square -> result (list (square * ball)).
Variable bound_t : Type.
Variable assemble_bound :
  list (C * contribution) -> list ball -> R -> R -> Z -> result bound_t.

(** The product of the Python float [2.1] by an algebraic real number is a
    product of doubles: Sage converts the algebraic number to a double
    first.  This conversion, made through an interval enclosure of the
    number, is not part of the module; [to_double x] is the double that it
    gives for [x]. *)
Variable to_double : R -> spec_float.

(** Indices [k] of the entries of a row that are not exactly zero. *)
Fixpoint nonzero_indices (k : nat) (row : list ball) : list nat :=
  match row with
  | [] => []
  | c :: row' =>
      if b_is_zero c then nonzero_indices (S k) row'
      else k :: nonzero_indices (S k) row'
  end.

(** [k for shift, mult in shifts if shift < order1
       for k, c in enumerate(ser[shift]) if not c.is_zero()] *)
Fixpoint log_powers (shifts : list (nat * nat)) (order1 : Z)
    (ser : list (list ball)) : result (list nat) :=
  match shifts with
  | [] => Ok []
  | (shift, mult) :: rest =>
      if (Z.of_nat shift <? order1)%Z then
        match nth_error ser shift with
        | None => Raise IndexError
        | Some row =>
            ks <- log_powers rest order1 ser ;;
            Ok (nonzero_indices 0 row ++ ks)
        end
      else log_powers rest order1 ser
  end.

(** [sum(mult for shift, mult in shifts if shift >= order1)] *)
Definition late_mults (shifts : list (nat * nat)) (order1 : Z) : nat :=
  fold_left (fun acc sm =>
    if (order1 <=? Z.of_nat (fst sm))%Z then (acc + snd sm)%nat else acc)
    shifts 0%nat.

(** [SingularityAnalyzer.process_modZ_class] for the class [leftmost],
    [shifts].  [abs(leftmost)] and [order] are exact ([QQbar], [ZZ]), so the
    quotient defining [s] is exact and a zero denominator is a
    [ZeroDivisionError]; [smallrad], a ball in the module, is passed on to
    [_bound_tail] as the real number it encloses. *)
Definition process_modZ_class (rho : C) (rad abs_order min_n : R)
    (coord_big_circle : list square)
    (leftmost : C) (shifts : list (nat * nat)) : result class_data :=
  let order := Zceil (abs_order - Re leftmost) in
  let order1 := (order + 49)%Z in
  ser <- my_log_series rho leftmost shifts order1 ;;
  let smallrad := rad - Cmod rho in
  vb <- bound_tail rho leftmost smallrad order ser ;;
  let den := Cmod leftmost + IZR (Z.abs order) in
  if Req_dec_T den 0 then Raise ZeroDivisionError
  else
    let s := Zfloor (min_n / den) in
    if (s <=? 2)%Z then Raise (ValueError s_too_small)
    else
      sh0 <- first_of shifts ;;
      if negb ((fst sh0 =? 0)%nat && (0 <? order1)%Z) then Raise AssertionError
      else
        ks <- log_powers shifts order1 ser ;;
        kappa0 <- max_of_nat ks ;;
        let kappa := (kappa0 + late_mults shifts order1)%nat in
        bd <- bound_local_integral rho leftmost order s min_n ser vb kappa
                coord_big_circle ;;
        Ok (ClassData leftmost kappa (fst bd) (snd bd)).

(** Modelled from the spec: [LocalBasisMapper.run] is not part of the module;
    it processes each residue class of exponents in turn and returns the
    records accumulated in [irred_factor_cols]. *)
Fixpoint analyzer_run (rho : C) (rad abs_order min_n : R)
    (coord_big_circle : list square)
    (classes : list (C * list (nat * nat))) : result (list class_data) :=
  match classes with
  | [] => Ok []
  | (leftmost, shifts) :: rest =>
      d <- process_modZ_class rho rad abs_order min_n coord_big_circle
             leftmost shifts ;;
      ds <- analyzer_run rho rad abs_order min_n coord_big_circle rest ;;
      Ok (d :: ds)
  end.

(** [sum(sol.value[2][j] for sol in data)] *)
Fixpoint sum_samples (data : list class_data) (j : nat) : result ball :=
  match data with
  | [] => Ok (b_of_real 0)
  | d :: rest =>
      match nth_error (cd_big_circle d) j with
      | None => Raise IndexError
      | Some x =>
          match rest with
          | [] => Ok x
          | _ => y <- sum_samples rest j ;; Ok (b_add x y)
          end
      end
  end.

Fixpoint sum_samples_all (data : list class_data) (js : list nat)
    : result (list ball) :=
  match js with
  | [] => Ok []
  | j :: js' =>
      x <- sum_samples data j ;;
      xs <- sum_samples_all data js' ;;
      Ok (x :: xs)
  end.

(** [contribution_single_singularity]; [Ok None] is the bare [return].  The
    transition matrix to [rho], the coordinates [coord_all] and the operator
    shifted to [rho] are what the collaborators below are computed from. *)
Definition contribution_single_singularity (rho : C) (rad : R)
    (coord_big_circle : list square) (rel_order : Z) (min_n : R)
    : result (option contribution) :=
  let crit := critical_monomials rho in
  let nonanalytic := filter (fun sol => negb (analytic_sol sol)) crit in
  match nonanalytic with
  | [] => Ok None
  | sol0 :: _ =>
      let min_val := Re (fs_leftmost sol0) + IZR (fs_shift sol0) in
      let abs_order := IZR rel_order + min_val in
      data <- analyzer_run rho rad abs_order min_n coord_big_circle
                (exponent_classes rho) ;;
      vals <- sum_samples_all data (seq 0 (List.length coord_big_circle)) ;;
      mk <- max_of_nat (map cd_kappa data) ;;
      Ok (Some (Contribution (map cd_leftmost data) (map cd_bound data)
                  vals mk min_val))
  end.

(** ** Exponentially small error term *)

(** [circle_upper] for the arc starting at the singularity of index [j0].
    The arguments, the hub and the number [np] of squares are computed with
    real balls in the module; here they are the real numbers that these
    balls enclose. *)
Definition circle_upper (sings : list C) (rad halfside : R) (j0 : nat)
    : list square :=
  let num_sings := List.length sings in
  let j1 := ((j0 + 1) mod num_sings)%nat in
  let arg0 := Carg (nth j0 sings C0) in
  let arg1 := Carg (nth j1 sings C0) in
  let arg1 := if (j1 =? 0)%nat then arg1 + 2 * PI else arg1 in
  let hub := Cscale rad (Cexp_i ((arg0 + arg1) / 2)) in
  let halfarc := (arg1 - arg0) / 2 in
  let np := (Zceil (Rabs (halfarc * rad / (2 * halfside))) + 2)%Z in
  map (fun k =>
         Square (Cmul hub (Cexp_i (halfarc * INR k / IZR np))) halfside)
      (seq 0 (Z.to_nat (np + 1))).

(** The loop of [numerical_sol_big_circle] over [j0].  Next to the pairs,
    the paths handed to [deq.numerical_solution] are recorded in order. *)
Fixpoint big_circle_loop (sings : list C) (rad halfside : R) (js : list nat)
    (pairs : list (square * ball)) (solved : list (list square))
    : list (list square) * result (list (square * ball)) :=
  match js with
  | [] => (solved, Ok pairs)
  | j0 :: js' =>
      let path_upper := circle_upper sings rad halfside j0 in
      match numerical_solution path_upper with
      | Raise e => (solved ++ [path_upper], Raise e)
      | Ok sol_upper =>
          let path_lower := map sq_conj path_upper in
          match numerical_solution path_lower with
          | Raise e => (solved ++ [path_upper; path_lower], Raise e)
          | Ok sol_lower =>
              big_circle_loop sings rad halfside js'
                (pairs ++ sol_upper ++ sol_lower)
                (solved ++ [path_upper; path_lower])
          end
      end
  end.

Definition numerical_sol_big_circle (dominant_sing : list C)
    (rad halfside : R) : list (list square) * result (list (square * ball)) :=
  let sings := sort_by Carg dominant_sing in
  big_circle_loop sings rad halfside (seq 0 (List.length sings)) [] [].

(** ** Complete bound *)

(** The loop [for rho in dominant_sing]; unpacking the [None] returned for
    a singularity without contribution is a [TypeError]. *)
Fixpoint singularity_loop (dominant_sing : list C) (rad : R)
    (coord_big_circle : list square) (total_order : Z) (min_n : R)
    : result (list (C * contribution)) :=
  match dominant_sing with
  | [] => Ok []
  | rho :: rest =>
      r <- contribution_single_singularity rho rad coord_big_circle
             total_order min_n ;;
      match r with
      | None => Raise TypeError
      | Some c =>
          cs <- singularity_loop rest rad coord_big_circle total_order min_n ;;
          Ok ((rho, c) :: cs)
      end
  end.

(** Potential singularities, sorted by magnitude. *)
Definition potential_singularities (singularities : option (list C))
    (known_analytic : list C) : list C :=
  let sings :=
    match singularities with
    | None => deq_singularities_nonapparent
    | Some l => l
    end in
  sort_by Cmod
    (filter (fun s => negb (existsb (fun a => Ceqb s a) known_analytic)) sings).

(** Dominant singularities and radius of the big circle. *)
Definition dominant_and_radius (all_exn_points sings : list C)
    (rad : option R) : result (list C * R) :=
  match rad with
  | None =>
      s_first <- first_of sings ;;
      s_last <- last_of sings ;;
      let (dominant_sing, next_sing_rad) :=
        sing_in_disk sings (Cmod s_first) (Cmod s_last * 3) in
      r <- choose_big_radius all_exn_points dominant_sing next_sing_rad ;;
      Ok (dominant_sing, r)
  | Some r =>
      s_last <- last_of sings ;;
      let (dominant_sing, _) :=
        sing_in_disk sings r (Cmod s_last * 2 + r * 2) in
      match dominant_sing with
      | [] => Raise (ValueError no_sing_in_disk)
      | _ =>
          d_last <- last_of dominant_sing ;;
          if Req_dec_T (Cmod d_last) r
          then Raise (ValueError sing_on_radius)
          else Ok (dominant_sing, r)
      end
  end.

(** [N1]: the disks B(rho, |rho|/n) do not overlap. *)
Definition spacing_threshold (dominant_sing : list C) : result Z :=
  if (1 <? List.length dominant_sing)%nat then
    min_dist <- min_of
      (flat_map (fun s0 =>
         map (fun s1 => Cmod (Csub s0 s1))
             (filter (fun s1 => negb (Ceqb s0 s1)) dominant_sing))
         dominant_sing) ;;
    d_last <- last_of dominant_sing ;;
    Ok (Zceil (2 * Cmod d_last / min_dist))
  else Ok 0%Z.

(** [contribution_all_singularity]: returns [(N0, bound)].  The initial
    values [ini = _coeff_zero(seqini, deq)] are fixed with the
    collaborators.  The factor [2.1] of [N0] is a Python float, and its
    product by the algebraic number [max(...) + total_order + 1] is the
    rounded product of two doubles; [N1], computed from algebraic numbers,
    is exact. *)
Definition contribution_all_singularity (singularities : option (list C))
    (known_analytic : list C) (rad : option R) (total_order : Z) (min_n : R)
    (halfside : option R) : result (Z * bound_t) :=
  let all_exn_points := exceptional_points deq_singularities in
  let sings := potential_singularities singularities known_analytic in
  dr <- dominant_and_radius all_exn_points sings rad ;;
  let dominant_sing := fst dr in
  let rad := snd dr in
  N1 <- spacing_threshold dominant_sing ;;
  hs <- match halfside with
        | Some h => Ok h
        | None =>
            m <- min_of (map (fun ex => Rabs (Cmod ex - rad)) all_exn_points) ;;
            Ok (m / 10)
        end ;;
  pairs <- snd (numerical_sol_big_circle dominant_sing rad hs) ;;
  let coord_big_circle := map fst pairs in
  let f_big_circle := map snd pairs in
  list_data <- singularity_loop dominant_sing rad coord_big_circle
                 total_order min_n ;;
  final_kappa <- max_of_nat (map (fun d => max_kappa (snd d)) list_data) ;;
  final_val <- min_of (map (fun d => min_val_rho (snd d)) list_data) ;;
  bound <- assemble_bound list_data f_big_circle rad min_n total_order ;;
  let list_all_val := flat_map (fun d => list_val_rho (snd d)) list_data in
  max_val <- max_of (map Cmod list_all_val) ;;
  c <- float_ceil
         (float_mul float_2_1 (to_double (max_val + IZR total_order + 1))) ;;
  Ok (Z.max c N1, bound).

End Contribution.

(** ** Derivatives of [exp(f)]

    [der_expf(k)] expresses [(d/dx)^k exp(f(x)) / exp(f(x))] as a polynomial
    with integer coefficients in [f0 = f'], [f1 = f''], ... *)

(** A monomial of [PolynomialRing(ZZ, 'f', ngens)] is its exponent tuple, of
    length [ngens]; a polynomial is the list of its terms, with distinct
    monomials and non-zero coefficients. *)
Definition zmon : Type := list nat.
Definition zpoly : Type := list (zmon * Z).

Definition zmon_eqb (a b : zmon) : bool :=
  if list_eq_dec Nat.eq_dec a b then true else false.

(** [p + c*m] *)
Fixpoint zp_add_term (p : zpoly) (m : zmon) (c : Z) : zpoly :=
  match p with
  | [] => [(m, c)]
  | (m', c') :: p' =>
      if zmon_eqb m' m then
        if (c' + c =? 0)%Z then p' else (m', (c' + c)%Z) :: p'
      else (m', c') :: zp_add_term p' m c
  end.

(** [p + q] *)
Definition zp_add (p q : zpoly) : zpoly :=
  fold_left (fun acc t => zp_add_term acc (fst t) (snd t)) q p.

(** The exponent tuple of [x_i * m]. *)
Fixpoint bump (i : nat) (m : zmon) : zmon :=
  match m, i with
  | [], _ => []
  | e :: m', O => S e :: m'
  | e :: m', S i' => e :: bump i' m'
  end.

(** The exponent tuple of [m / x_i]. *)
Fixpoint lower (i : nat) (m : zmon) : zmon :=
  match m, i with
  | [], _ => []
  | e :: m', O => pred e :: m'
  | e :: m', S i' => e :: lower i' m'
  end.

(** [x_i * p] *)
Definition zp_mul_gen (i : nat) (p : zpoly) : zpoly :=
  map (fun t => (bump i (fst t), snd t)) p.

(** [derivative(p, x_i)] *)
Definition zp_diff (i : nat) (p : zpoly) : zpoly :=
  flat_map (fun t =>
    match nth i (fst t) 0%nat with
    | O => []
    | S e => [(lower i (fst t), (snd t * Z.of_nat (S e))%Z)]
    end) p.

(** [Lie_der(f, tup_x_k)] for [tup_x_k] the [ngens] generators of the ring
    of [f]: the sum, started from 0, of [derivative(f, x_k) * x_(k+1)] for
    [k] in [range(len(tup_x_k) - 1)]. *)
Definition Lie_der (f : zpoly) (ngens : nat) : zpoly :=
  fold_left (fun acc k => zp_add acc (zp_mul_gen (S k) (zp_diff k f)))
    (seq 0 (ngens - 1)) [].

(** [_der_expf_R(k, R)] for [R] a ring with [ngens] generators;
    [tup_f_k[0]] in a ring without generators is an [IndexError]. *)
Fixpoint _der_expf_R (k ngens : nat) : result zpoly :=
  match k with
  | O => Ok [(repeat 0%nat ngens, 1%Z)]
  | S k' =>
      der_k_minus_one <- _der_expf_R k' ngens ;;
      if (ngens =? 0)%nat then Raise IndexError
      else Ok (zp_add (zp_mul_gen 0 der_k_minus_one)
                 (Lie_der der_k_minus_one ngens))
  end.

(** [der_expf(k)] *)
Definition der_expf (k : nat) : result zpoly := _der_expf_R k k.

(** Value of a polynomial when the generator [x_j] is given the value
    [env j]. *)
Fixpoint zmon_eval (env : nat -> R) (j : nat) (m : zmon) : R :=
  match m with
  | [] => 1
  | e :: m' => env j ^ e * zmon_eval env (S j) m'
  end.

Fixpoint zp_eval (env : nat -> R) (p : zpoly) : R :=
  match p with
  | [] => 0
  | (m, c) :: p' => IZR c * zmon_eval env 0 m + zp_eval env p'
  end.

(** [g] is the [k]-th derivative of [f] on the real line. *)
Fixpoint is_nth_deriv (k : nat) (f g : R -> R) : Prop :=
  match k with
  | O => forall x, g x = f x
  | S k' =>
      exists h, is_nth_deriv k' f h /\ forall x, derivable_pt_lim h x (g x)
  end.

(** ** The local series of a class of exponents *)

Section MyLogSeries.

Context {BA : BallArith}.

(** [log_series] is not part of the module.  It unrolls the recurrence in
    exact arithmetic from initial values that are 0 for every key
    [(shift, log_power)] of [keys] except 1 for [key], and returns one row
    of exact coefficients for each index below [order].  Its arguments here:
    the exponent [expo], [keys], [key], [mults] and [order]; [c*a] for a
    ball [c] and an exact coefficient [a] is [b_scale c a]. *)
Variable coef : Type.
Variable b_scale : ball -> coef -> ball.
Variable log_series :
  C -> list (Z * nat) -> Z * nat -> list (nat * nat) -> Z ->
  result (list (list coef)).

(** [for j, a in enumerate(ser[i]): res[i][j] += c*a] *)
Fixpoint add_row (c : ball) (row : list ball) (sr : list coef) {struct sr}
    : result (list ball) :=
  match sr, row with
  | [], _ => Ok row
  | _ :: _, [] => Raise IndexError
  | a :: sr', y :: row' =>
      r <- add_row c row' sr' ;;
      Ok (b_add y (b_scale c a) :: r)
  end.

(** [for i in range(order): ...], on the rows [res[i:]] and [ser[i:]] *)
Fixpoint add_rows (c : ball) (n : nat) (res : list (list ball))
    (ser : list (list coef)) : result (list (list ball)) :=
  match n with
  | O => Ok res
  | S n' =>
      match ser, res with
      | [], _ => Raise IndexError
      | _ :: _, [] => Raise IndexError
      | sr :: ser', row :: res' =>
          r <- add_row c row sr ;;
          rs <- add_rows c n' res' ser' ;;
          Ok (r :: rs)
      end
  end.

(** [_my_log_series(dop, bwrec, inivec, leftmost, mults, struct, order)] *)
Definition _my_log_series (inivec : list ball) (leftmost : C)
    (mults : list (nat * nat)) (struct : list fund_sol) (order : Z)
    : result (list (list ball)) :=
  let log_len := fold_left (fun acc sm => (acc + snd sm)%nat) mults 0%nat in
  let keys :=
    map (fun sol1 => (fs_shift sol1, fs_log_power sol1))
        (filter (fun sol1 => Ceqb (fs_leftmost sol1) leftmost) struct) in
  fold_left
    (fun acc sc =>
       res <- acc ;;
       if b_is_zero (snd sc) || negb (Ceqb (fs_leftmost (fst sc)) leftmost)
       then Ok res
       else
         ser <- log_series leftmost keys
                  (fs_shift (fst sc), fs_log_power (fst sc)) mults order ;;
         add_rows (snd sc) (Z.to_nat order) res ser)
    (combine struct inivec)
    (Ok (repeat (repeat (b_of_real 0) log_len) (Z.to_nat order))).

End MyLogSeries.


(** * Properties *)

(** ** Elementary facts on reals and complex numbers *)

Lemma Reqb_true (x y : R) : Reqb x y = true <-> x = y.
Proof. unfold Reqb; destruct (Req_dec_T x y); split; congruence. Qed.

Lemma Reqb_refl (x : R) : Reqb x x = true.
Proof. now apply Reqb_true. Qed.

Lemma Reqb_false (x y : R) : x <> y -> Reqb x y = false.
Proof. unfold Reqb; destruct (Req_dec_T x y); congruence. Qed.

Lemma Rleb_true (x y : R) : Rleb x y = true <-> x <= y.
Proof. unfold Rleb; destruct (Rle_dec x y); split; congruence. Qed.

Lemma Rleb_false (x y : R) : Rleb x y = false <-> y < x.
Proof.
  unfold Rleb; destruct (Rle_dec x y); split; try congruence; lra.
Qed.

Lemma Ceqb_true (a b : C) : Ceqb a b = true <-> a = b.
Proof.
  unfold Ceqb; rewrite andb_true_iff, !Reqb_true.
  destruct a, b; simpl; split.
  - intros [-> ->]; reflexivity.
  - intros H; injection H; auto.
Qed.

Lemma C_ext (a b : C) : Re a = Re b -> Im a = Im b -> a = b.
Proof. destruct a, b; simpl; intros -> ->; reflexivity. Qed.

Lemma Cmod_nonneg (z : C) : 0 <= Cmod z.
Proof. apply sqrt_pos. Qed.

Lemma Re_le_Cmod (z : C) : Rabs (Re z) <= Cmod z.
Proof.
  unfold Cmod. rewrite <- sqrt_Rsqr_abs. apply sqrt_le_1_alt.
  unfold Rsqr. nra.
Qed.

Lemma Im_le_Cmod (z : C) : Rabs (Im z) <= Cmod z.
Proof.
  unfold Cmod. rewrite <- sqrt_Rsqr_abs. apply sqrt_le_1_alt.
  unfold Rsqr. nra.
Qed.

Lemma Cmod_RtoC (x : R) : Cmod (RtoC x) = Rabs x.
Proof.
  unfold Cmod; simpl. rewrite <- sqrt_Rsqr_abs. f_equal. unfold Rsqr. ring.
Qed.

Lemma Cmod_scale (t : R) (z : C) : Cmod (Cscale t z) = Rabs t * Cmod z.
Proof.
  unfold Cmod; simpl.
  replace (t * Re z * (t * Re z) + t * Im z * (t * Im z))
    with (Rsqr t * (Re z * Re z + Im z * Im z)) by (unfold Rsqr; ring).
  rewrite sqrt_mult_alt by apply Rle_0_sqr.
  now rewrite sqrt_Rsqr_abs.
Qed.

Lemma Cmod_le_of_parts (z : C) (a b : R) :
  Rabs (Re z) <= a -> Rabs (Im z) <= b -> Cmod z <= sqrt (a * a + b * b).
Proof.
  intros Ha Hb. unfold Cmod. apply sqrt_le_1_alt.
  assert (0 <= Rabs (Re z)) by apply Rabs_pos.
  assert (0 <= Rabs (Im z)) by apply Rabs_pos.
  assert (Re z * Re z = Rabs (Re z) * Rabs (Re z))
    by (unfold Rabs; destruct (Rcase_abs (Re z)); ring).
  assert (Im z * Im z = Rabs (Im z) * Rabs (Im z))
    by (unfold Rabs; destruct (Rcase_abs (Im z)); ring).
  nra.
Qed.

(** ** An exact model of ball arithmetic

    Rectangles with real centre and radii, computed without rounding, and
    the ball [EWhole] of everything for the results that are not finite.
    Products, quotients, logarithms and powers are exact when their (second)
    operand is an exact real number, which is how the module uses them, and
    [EWhole] otherwise. *)

Module ExactBalls.

Inductive eball : Type :=
| EWhole
| ERect (mid : C) (rr ri : R).

Definition e_contains (b : eball) (z : C) : Prop :=
  match b with
  | EWhole => True
  | ERect m rr ri => Rabs (Re z - Re m) <= rr /\ Rabs (Im z - Im m) <= ri
  end.

Definition e_mag_bounds (m : option R) (x : R) : Prop :=
  match m with
  | None => True
  | Some r => x <= r
  end.

Definition e_of_real (x : R) : eball := ERect (RtoC x) 0 0.

Definition e_zero_err (m : option R) : eball :=
  match m with
  | None => EWhole
  | Some r => ERect C0 r r
  end.

Definition e_mid_is_zero (b : eball) : bool :=
  match b with
  | EWhole => false
  | ERect m _ _ => Ceqb m C0
  end.

Definition e_is_zero (b : eball) : bool :=
  match b with
  | EWhole => false
  | ERect m rr ri => Ceqb m C0 && Reqb rr 0 && Reqb ri 0
  end.

Definition e_above_abs (b : eball) : option R :=
  match b with
  | EWhole => None
  | ERect m rr ri =>
      Some (sqrt ((Rabs (Re m) + rr) * (Rabs (Re m) + rr)
                  + (Rabs (Im m) + ri) * (Rabs (Im m) + ri)))
  end.

Definition e_add (a b : eball) : eball :=
  match a, b with
  | ERect m rr ri, ERect m' rr' ri' => ERect (Cadd m m') (rr + rr') (ri + ri')
  | _, _ => EWhole
  end.


(** The real number that a ball represents exactly, if it does. *)
Definition e_real_point (b : eball) : option R :=
  match b with
  | EWhole => None
  | ERect m rr ri =>
      if Reqb (Im m) 0 && Reqb rr 0 && Reqb ri 0 then Some (Re m) else None
  end.

Definition e_scale (r : R) (a : eball) : eball :=
  match a with
  | EWhole => EWhole
  | ERect m rr ri => ERect (Cscale r m) (Rabs r * rr) (Rabs r * ri)
  end.

Definition e_mul (a b : eball) : eball :=
  match e_real_point b with
  | Some r => e_scale r a
  | None => EWhole
  end.

Definition e_div (a b : eball) : eball :=
  match e_real_point b with
  | Some r => if Reqb r 0 then EWhole else e_scale (/ r) a
  | None => EWhole
  end.

Definition e_log (b : eball) : eball :=
  match e_real_point b with
  | Some r => if Rlt_dec 0 r then e_of_real (ln r) else EWhole
  | None => EWhole
  end.

Definition e_pow (b : eball) (k : Z) : eball :=
  match e_real_point b with
  | Some r => if Reqb r 0 then EWhole else e_of_real (powerRZ r k)
  | None => EWhole
  end.

Lemma e_real_point_of_real (x : R) : e_real_point (e_of_real x) = Some x.
Proof. unfold e_real_point; simpl. now rewrite !Reqb_refl. Qed.

Lemma e_real_point_contains (b : eball) (r x : R) :
  e_real_point b = Some r -> e_contains b (RtoC x) -> x = r.
Proof.
  destruct b as [|m rr ri]; simpl; [discriminate|].
  destruct (Reqb (Im m) 0 && Reqb rr 0 && Reqb ri 0) eqn:E; [|discriminate].
  apply andb_true_iff in E as [E E3]. apply andb_true_iff in E as [E1 E2].
  apply Reqb_true in E1, E2, E3. subst rr ri.
  intros [= <-] [H _].
  simpl in H. unfold Rabs in H. destruct (Rcase_abs (x - Re m)); lra.
Qed.

Lemma e_scale_ok (a : eball) (z : C) (r : R) :
  e_contains a z -> e_contains (e_scale r a) (Cscale r z).
Proof.
  destruct a as [|m rr ri]; simpl; [trivial|].
  intros [H1 H2]; split.
  - replace (r * Re z - r * Re m) with (r * (Re z - Re m)) by ring.
    rewrite Rabs_mult. apply Rmult_le_compat_l; [apply Rabs_pos | exact H1].
  - replace (r * Im z - r * Im m) with (r * (Im z - Im m)) by ring.
    rewrite Rabs_mult. apply Rmult_le_compat_l; [apply Rabs_pos | exact H2].
Qed.

Lemma e_of_real_ok (x : R) : e_contains (e_of_real x) (RtoC x).
Proof.
  simpl. rewrite !Rminus_diag. rewrite Rabs_R0. split; lra.
Qed.

Lemma e_zero_err_ok (m : option R) (r : R) (z : C) :
  e_mag_bounds m r -> Cmod z <= r -> e_contains (e_zero_err m) z.
Proof.
  destruct m as [b|]; simpl; [|trivial].
  intros Hb Hz. rewrite !Rminus_0_r.
  pose proof (Re_le_Cmod z). pose proof (Im_le_Cmod z). split; lra.
Qed.

Lemma e_above_abs_ok (c : eball) (z : C) :
  e_contains c z -> e_mag_bounds (e_above_abs c) (Cmod z).
Proof.
  destruct c as [|m rr ri]; simpl; [trivial|].
  intros [H1 H2]. apply Cmod_le_of_parts.
  - replace (Re z) with ((Re z - Re m) + Re m) at 1 by ring.
    eapply Rle_trans; [apply Rabs_triang|]. lra.
  - replace (Im z) with ((Im z - Im m) + Im m) at 1 by ring.
    eapply Rle_trans; [apply Rabs_triang|]. lra.
Qed.

Lemma e_mid_zero_star (c : eball) (z : C) (t : R) :
  e_mid_is_zero c = true -> e_contains c z -> 0 <= t <= 1 ->
  e_contains c (Cscale t z).
Proof.
  destruct c as [|m rr ri]; simpl; [discriminate|].
  intros Hm [H1 H2] Ht. apply Ceqb_true in Hm. subst m. simpl in *.
  rewrite !Rminus_0_r in *.
  rewrite !Rabs_mult, (Rabs_pos_eq t) by lra.
  pose proof (Rabs_pos (Re z)). pose proof (Rabs_pos (Im z)).
  split; nra.
Qed.

Lemma e_add_ok (a b : eball) (x y : C) :
  e_contains a x -> e_contains b y -> e_contains (e_add a b) (Cadd x y).
Proof.
  destruct a as [|m rr ri], b as [|m' rr' ri']; simpl; trivial.
  intros [H1 H2] [H3 H4]; split.
  - replace (Re x + Re y - (Re m + Re m'))
      with ((Re x - Re m) + (Re y - Re m')) by ring.
    eapply Rle_trans; [apply Rabs_triang|]. lra.
  - replace (Im x + Im y - (Im m + Im m'))
      with ((Im x - Im m) + (Im y - Im m')) by ring.
    eapply Rle_trans; [apply Rabs_triang|]. lra.
Qed.

Lemma e_mul_real_ok (a b : eball) (z : C) (r : R) :
  e_contains a z -> e_contains b (RtoC r) -> e_contains (e_mul a b) (Cscale r z).
Proof.
  intros Ha Hb. unfold e_mul.
  destruct (e_real_point b) as [r0|] eqn:E; simpl; [|trivial].
  rewrite (e_real_point_contains b r0 r E Hb). now apply e_scale_ok.
Qed.

Lemma e_div_real_ok (a b : eball) (z : C) (r : R) :
  e_contains a z -> e_contains b (RtoC r) -> r <> 0 ->
  e_contains (e_div a b) (Cscale (/ r) z).
Proof.
  intros Ha Hb Hr. unfold e_div.
  destruct (e_real_point b) as [r0|] eqn:E; simpl; [|trivial].
  rewrite (e_real_point_contains b r0 r E Hb).
  destruct (Reqb r0 0); simpl; [trivial|]. now apply e_scale_ok.
Qed.

Lemma e_log_ok (b : eball) (r : R) :
  e_contains b (RtoC r) -> 0 < r -> e_contains (e_log b) (RtoC (ln r)).
Proof.
  intros Hb Hr. unfold e_log.
  destruct (e_real_point b) as [r0|] eqn:E; simpl; [|trivial].
  rewrite (e_real_point_contains b r0 r E Hb).
  destruct (Rlt_dec 0 r0); [apply e_of_real_ok|exact I].
Qed.

Lemma e_pow_ok (b : eball) (r : R) (k : Z) :
  e_contains b (RtoC r) -> r <> 0 ->
  e_contains (e_pow b k) (RtoC (powerRZ r k)).
Proof.
  intros Hb Hr. unfold e_pow.
  destruct (e_real_point b) as [r0|] eqn:E; simpl; [|trivial].
  rewrite (e_real_point_contains b r0 r E Hb).
  destruct (Reqb r0 0); [exact I|apply e_of_real_ok].
Qed.

(** Computation rules on exact real operands. *)
Lemma e_mul_of_real (a : eball) (x : R) : e_mul a (e_of_real x) = e_scale x a.
Proof. unfold e_mul. now rewrite e_real_point_of_real. Qed.

Lemma e_div_of_real (a : eball) (x : R) :
  x <> 0 -> e_div a (e_of_real x) = e_scale (/ x) a.
Proof.
  intros H. unfold e_div. rewrite e_real_point_of_real.
  now rewrite Reqb_false.
Qed.

Lemma e_log_of_real (x : R) : 0 < x -> e_log (e_of_real x) = e_of_real (ln x).
Proof.
  intros H. unfold e_log. rewrite e_real_point_of_real.
  destruct (Rlt_dec 0 x); [reflexivity | contradiction].
Qed.

Lemma e_pow_of_real (x : R) (k : Z) :
  x <> 0 -> e_pow (e_of_real x) k = e_of_real (powerRZ x k).
Proof.
  intros H. unfold e_pow. rewrite e_real_point_of_real.
  now rewrite Reqb_false.
Qed.

Definition exact_balls : BallArith :=
  {| ball := eball;
     contains := e_contains;
     mag := option R;
     mag_bounds := e_mag_bounds;
     b_of_real := e_of_real;
     b_zero_err := e_zero_err;
     b_mid_is_zero := e_mid_is_zero;
     b_is_zero := e_is_zero;
     b_above_abs := e_above_abs;
     b_add := e_add;
     b_mul := e_mul;
     b_div := e_div;
     b_log := e_log;
     b_pow := e_pow;
     of_real_ok := e_of_real_ok;
     zero_err_ok := e_zero_err_ok;
     above_abs_ok := e_above_abs_ok;
     mid_zero_star := e_mid_zero_star;
     add_ok := e_add_ok;
     mul_real_ok := e_mul_real_ok;
     div_real_ok := e_div_real_ok;
     log_ok := e_log_ok;
     pow_ok := e_pow_ok |}.

End ExactBalls.

(** ** Truncation *)

Lemma mon_eqb_true (a b : mon) : mon_eqb a b = true <-> a = b.
Proof.
  unfold mon_eqb. rewrite !andb_true_iff, !Nat.eqb_eq.
  destruct a, b; simpl; split.
  - intros [[[[-> ->] ->] ->] ->]; reflexivity.
  - intros [= -> -> -> -> ->]; auto.
Qed.

Lemma mon_eqb_refl (a : mon) : mon_eqb a a = true.
Proof. now apply mon_eqb_true. Qed.

Lemma mon_eqb_false (a b : mon) : a <> b -> mon_eqb a b = false.
Proof.
  intros H. destruct (mon_eqb a b) eqn:E; [|reflexivity].
  apply mon_eqb_true in E. contradiction.
Qed.

Lemma pow_split (x : R) (a b : nat) :
  (b <= a)%nat -> x ^ a = x ^ (a - b) * x ^ b.
Proof.
  intros H. rewrite <- pow_add. f_equal. lia.
Qed.

(** The monomial of a truncated term is the original one divided by the
    excess power of [w]. *)
Lemma mon_val_truncated (env : gen -> R) (m : mon) (w : gen) (deg : nat) :
  (deg <= degree m w)%nat ->
  mon_val env m =
  env w ^ (degree m w - deg)
  * mon_val env (mon_of_exps (fun j =>
      (degree m j - power_exps w (degree m w - deg) j)%nat)).
Proof.
  intros H. unfold mon_val, mon_of_exps, power_exps.
  destruct w; simpl in *; rewrite ?Nat.sub_0_r;
    match goal with
    | |- context [(?a - (?a - deg))%nat] =>
        replace (a - (a - deg))%nat with deg by lia;
        rewrite (pow_split (env _) a deg) by lia
    end; ring.
Qed.

(** With a log-degree target, the excess power of [w] is traded against the
    missing power of [logn]. *)
Lemma mon_val_truncated_log (env : gen -> R) (m : mon) (w lg : gen)
    (deg kappa : nat) :
  lg <> w -> (deg <= degree m w)%nat -> (degree m lg <= kappa)%nat ->
  mon_val env m * env lg ^ (kappa - degree m lg) =
  env w ^ (degree m w - deg)
  * mon_val env (mon_of_exps (fun j =>
      (degree m j - power_exps w (degree m w - deg) j
       + power_exps lg (kappa - degree m lg) j)%nat)).
Proof.
  intros Hne Hw Hl. unfold mon_val, mon_of_exps, power_exps.
  destruct w, lg; try congruence; simpl in *;
    rewrite ?Nat.sub_0_r, ?Nat.add_0_r;
    match goal with
    | |- context [(?a - (?a - deg))%nat] =>
        replace (a - (a - deg))%nat with deg by lia;
        rewrite (pow_split (env _) a deg) by lia
    end;
    rewrite ?pow_add; ring.
Qed.

Section TruncationProperties.

Context {BA : BallArith}.

Lemma in_range_eq (env : gen -> R) (f : poly) (y y' : C) :
  in_range env f y -> y = y' -> in_range env f y'.
Proof. now intros H <-. Qed.

(** The product by the coefficient 1 of a monomial encloses the points of
    the ball. *)
Lemma term_coeff_contains (c : ball) (z : C) :
  contains c z -> contains (term_coeff c) z.
Proof.
  intros Hc. unfold term_coeff.
  replace z with (Cscale 1 z) at 1
    by (apply C_ext; unfold Cscale; cbn [Re Im]; ring).
  apply (mul_real_ok c (b_of_real 1) z 1 Hc (of_real_ok 1)).
Qed.

(** Adding a term adds any of its values. *)
Lemma in_range_add_term (env : gen -> R) (g : poly) (m : mon) (c : ball)
    (y z : C) :
  in_range env g y -> contains c z ->
  in_range env (poly_add_term g m c) (Cadd y (Cscale (mon_val env m) z)).
Proof.
  intros Hg Hc. induction Hg as [|m' c' z' f' y' Hc' Hf' IH]; simpl.
  - eapply in_range_eq.
    + apply in_range_cons; [exact Hc | apply in_range_nil].
    + apply C_ext; simpl; ring.
  - destruct (mon_eqb m' m) eqn:E.
    + apply mon_eqb_true in E. subst m'.
      eapply in_range_eq.
      * apply in_range_cons; [apply (add_ok _ _ _ _ Hc' Hc) | exact Hf'].
      * apply C_ext; simpl; ring.
    + eapply in_range_eq.
      * apply in_range_cons; [exact Hc' | exact IH].
      * apply C_ext; simpl; ring.
Qed.

(** The ball that replaces a truncated coefficient contains every value of
    the coefficient scaled down by a factor in [0, 1]. *)
Lemma centered_contains (c : ball) (z : C) (t : R) :
  contains c z -> 0 <= t <= 1 -> contains (centered c) (Cscale t z).
Proof.
  intros Hc Ht. unfold centered.
  destruct (b_mid_is_zero c) eqn:E.
  - now apply mid_zero_star.
  - apply zero_err_ok with (r := Cmod z).
    + now apply above_abs_ok.
    + rewrite Cmod_scale, Rabs_pos_eq by lra.
      pose proof (Cmod_nonneg z). nra.
Qed.

(** Evaluating in ball arithmetic encloses every value of the polynomial. *)
Lemma eval_from_encloses (env : gen -> R) (mv : mon -> ball) (g : poly) :
  (forall m, contains (mv m) (RtoC (mon_val env m))) ->
  forall (acc : ball) (y0 y : C),
    contains acc y0 -> in_range env g y ->
    contains (eval_from mv g acc) (Cadd y0 y).
Proof.
  intros Hmv. induction g as [|[m c] g IH]; intros acc y0 y Hacc Hg.
  - inversion Hg; subst. simpl.
    replace (Cadd y0 C0) with y0 by (apply C_ext; simpl; ring). exact Hacc.
  - inversion Hg as [|m' c' z g' y' Hc Hg']; subst. simpl.
    replace (Cadd y0 (Cadd (Cscale (mon_val env m) z) y'))
      with (Cadd (Cadd y0 (Cscale (mon_val env m) z)) y')
      by (apply C_ext; simpl; ring).
    apply IH; [|exact Hg'].
    apply add_ok; [exact Hacc|]. now apply mul_real_ok.
Qed.

Lemma eval_ball_encloses (env : gen -> R) (mv : mon -> ball) (g : poly)
    (y : C) :
  (forall m, contains (mv m) (RtoC (mon_val env m))) ->
  in_range env g y -> contains (eval_ball mv g) y.
Proof.
  intros Hmv Hg. unfold eval_ball.
  replace y with (Cadd C0 y) by (apply C_ext; simpl; ring).
  apply (eval_from_encloses env mv g Hmv); [apply (of_real_ok 0) | exact Hg].
Qed.

Lemma Cscale_Cscale (a b : R) (z : C) :
  Cscale a (Cscale b z) = Cscale (a * b) z.
Proof. apply C_ext; simpl; ring. Qed.

(** The coefficient of a truncated term encloses the coefficient times the
    excess power of [1/n]. *)
Lemma truncated_coeff_contains (c : ball) (z : C) (min_n n : R) (t : nat) :
  contains c z -> 0 < min_n -> min_n <= n ->
  contains (b_div (centered c) (b_of_real (min_n ^ t)))
           (Cscale ((/ n) ^ t) z).
Proof.
  intros Hc Hm Hn.
  assert (Hn0 : 0 < n) by lra.
  assert (Hq : 0 <= min_n * / n <= 1).
  { split.
    - apply Rmult_le_pos; [lra | left; now apply Rinv_0_lt_compat].
    - apply Rmult_le_reg_r with n; [exact Hn0|]. field_simplify; lra. }
  assert (Hqt : 0 <= (min_n * / n) ^ t <= 1).
  { split; [apply pow_le; lra | apply pow_incr with (n := t) in Hq].
    now rewrite pow1 in Hq. }
  pose proof (centered_contains c z _ Hc Hqt) as H.
  assert (Hp : min_n ^ t <> 0) by (apply pow_nonzero; lra).
  pose proof (div_real_ok _ _ _ _ H (of_real_ok (min_n ^ t)) Hp) as H'.
  rewrite Cscale_Cscale in H'.
  replace (/ min_n ^ t * (min_n * / n) ^ t) with ((/ n) ^ t) in H'; [exact H'|].
  rewrite Rpow_mult_distr. field. exact Hp.
Qed.

(** One step of the loop without [kappa] preserves enclosure. *)
Lemma truncate_term_encloses (env : gen -> R) (deg : nat) (min_n n : R)
    (w : gen) (g : poly) (m : mon) (c : ball) (y z : C) :
  0 < min_n -> min_n <= n -> env w = / n ->
  in_range env g y -> contains c z ->
  in_range env (truncate_term deg min_n w g (m, c))
           (Cadd y (Cscale (mon_val env m) z)).
Proof.
  intros Hm Hn Hw Hg Hc. unfold truncate_term.
  destruct (deg <? degree m w)%nat eqn:E.
  - apply Nat.ltb_lt in E.
    eapply in_range_eq.
    + apply in_range_add_term; [exact Hg|]. apply term_coeff_contains.
      apply (truncated_coeff_contains c z min_n n (degree m w - deg) Hc Hm Hn).
    + rewrite Cscale_Cscale.
      rewrite (mon_val_truncated env m w deg) by lia.
      rewrite Hw. f_equal. f_equal. ring.
  - apply in_range_add_term; [exact Hg | now apply term_coeff_contains].
Qed.

Lemma truncate_fold_encloses (env : gen -> R) (deg : nat) (min_n n : R)
    (w : gen) (f : poly) :
  0 < min_n -> min_n <= n -> env w = / n ->
  forall (g : poly) (y0 y : C),
    in_range env g y0 -> in_range env f y ->
    in_range env (fold_left (truncate_term deg min_n w) f g) (Cadd y0 y).
Proof.
  intros Hm Hn Hw. induction f as [|[m c] f IH]; intros g y0 y Hg Hf.
  - inversion Hf; subst. simpl.
    eapply in_range_eq; [exact Hg | apply C_ext; simpl; ring].
  - inversion Hf as [|m' c' z f' y' Hc Hf']; subst. simpl.
    eapply in_range_eq.
    + apply IH; [|exact Hf'].
      apply (truncate_term_encloses env deg min_n n w g m c y0 z);
        assumption.
    + apply C_ext; simpl; ring.
Qed.

End TruncationProperties.

Lemma powerRZ_opp_nat (r : R) (k : nat) :
  powerRZ r (- Z.of_nat k) = / r ^ k.
Proof.
  destruct k as [|k].
  - simpl. now rewrite Rinv_1.
  - unfold powerRZ. simpl Z.opp. cbv iota beta.
    now rewrite SuccNat2Pos.id_succ.
Qed.

Lemma ln_pos_above_1 (x : R) : 1 < x -> 0 < ln x.
Proof. intros H. rewrite <- ln_1. apply ln_increasing; lra. Qed.

Lemma ln_monotone (x y : R) : 0 < x -> x <= y -> ln x <= ln y.
Proof.
  intros Hx [H| ->]; [left; now apply ln_increasing | right; reflexivity].
Qed.

Section TruncationLogProperties.

Context {BA : BallArith}.

(** The coefficient of a term truncated with a log-degree target encloses
    the coefficient times the excess power of [1/n] over the missing power
    of [log n]. *)
Lemma truncated_log_coeff_contains (c : ball) (z : C) (min_n n : R)
    (t dl kappa : nat) :
  contains c z -> 1 < min_n -> min_n <= n -> (dl <= kappa)%nat ->
  contains
    (b_mul (b_div (centered c) (b_of_real (min_n ^ t)))
           (b_pow (b_log (b_of_real min_n)) (Z.of_nat dl - Z.of_nat kappa)))
    (Cscale ((/ n) ^ t * / ln n ^ (kappa - dl)) z).
Proof.
  intros Hc Hm Hn Hk.
  assert (Hn0 : 0 < n) by lra.
  assert (HL0 : 0 < ln min_n) by now apply ln_pos_above_1.
  assert (HL : ln min_n <= ln n) by (apply ln_monotone; lra).
  assert (Hq : 0 <= min_n * / n <= 1).
  { split.
    - apply Rmult_le_pos; [lra | left; now apply Rinv_0_lt_compat].
    - apply Rmult_le_reg_r with n; [exact Hn0|]. field_simplify; lra. }
  assert (Hl : 0 <= ln min_n * / ln n <= 1).
  { split.
    - apply Rmult_le_pos; [lra | left; apply Rinv_0_lt_compat; lra].
    - apply Rmult_le_reg_r with (ln n); [lra|]. field_simplify; lra. }
  set (k := (kappa - dl)%nat).
  assert (Hqt : 0 <= (min_n * / n) ^ t <= 1).
  { split; [apply pow_le; lra | apply pow_incr with (n := t) in Hq].
    now rewrite pow1 in Hq. }
  assert (Hlk : 0 <= (ln min_n * / ln n) ^ k <= 1).
  { split; [apply pow_le; lra | apply pow_incr with (n := k) in Hl].
    now rewrite pow1 in Hl. }
  assert (Hlam : 0 <= (min_n * / n) ^ t * (ln min_n * / ln n) ^ k <= 1)
    by nra.
  pose proof (centered_contains c z _ Hc Hlam) as H.
  assert (Hp : min_n ^ t <> 0) by (apply pow_nonzero; lra).
  pose proof (div_real_ok _ _ _ _ H (of_real_ok (min_n ^ t)) Hp) as H1.
  assert (Hlog : contains (b_log (b_of_real min_n)) (RtoC (ln min_n)))
    by (apply log_ok; [apply of_real_ok | lra]).
  assert (HL0' : ln min_n <> 0) by lra.
  pose proof (pow_ok _ _ (Z.of_nat dl - Z.of_nat kappa) Hlog HL0') as H2.
  pose proof (mul_real_ok _ _ _ _ H1 H2) as H3.
  rewrite !Cscale_Cscale in H3.
  assert (Hpw : powerRZ (ln min_n) (Z.of_nat dl - Z.of_nat kappa)
                = / ln min_n ^ k).
  { replace (Z.of_nat dl - Z.of_nat kappa)%Z with (- Z.of_nat k)%Z
      by (unfold k; lia).
    apply powerRZ_opp_nat. }
  rewrite Hpw in H3.
  match goal with
  | H3 : contains _ (Cscale ?a z) |- contains _ (Cscale ?b z) =>
      replace b with a; [exact H3|]
  end.
  rewrite !Rpow_mult_distr, !pow_inv.
  assert (ln n ^ k <> 0) by (apply pow_nonzero; lra).
  assert (ln min_n ^ k <> 0) by (apply pow_nonzero; lra).
  assert (n ^ t <> 0) by (apply pow_nonzero; lra).
  field. repeat split; assumption.
Qed.

(** One step of the loop with [kappa] preserves enclosure. *)
Lemma truncate_term_log_encloses (env : gen -> R) (deg : nat) (min_n n : R)
    (w : gen) (kappa : nat) (logn : option gen) (g g' : poly) (m : mon)
    (c : ball) (y z : C) :
  1 < min_n -> min_n <= n -> env w = / n ->
  (forall lg, logn = Some lg -> lg <> w /\ env lg = ln n) ->
  truncate_term_log deg min_n w kappa logn g (m, c) = Ok g' ->
  in_range env g y -> contains c z ->
  in_range env g' (Cadd y (Cscale (mon_val env m) z)).
Proof.
  intros Hm Hn Hw Hlg Hstep Hg Hc. unfold truncate_term_log in Hstep.
  destruct (deg <=? degree m w)%nat eqn:E.
  - apply Nat.leb_le in E.
    destruct logn as [lg|]; [|discriminate].
    destruct (Hlg lg eq_refl) as [Hne Hval].
    destruct (kappa <? degree m lg)%nat eqn:E2; [discriminate|].
    apply Nat.ltb_ge in E2. injection Hstep as <-.
    assert (HL : 0 < ln n).
    { apply Rlt_le_trans with (ln min_n);
        [now apply ln_pos_above_1 | apply ln_monotone; lra]. }
    eapply in_range_eq.
    + apply in_range_add_term; [exact Hg|]. apply term_coeff_contains.
      apply (truncated_log_coeff_contains c z min_n n (degree m w - deg)
               (degree m lg) kappa Hc Hm Hn E2).
    + rewrite Cscale_Cscale. f_equal. f_equal.
      pose proof (mon_val_truncated_log env m w lg deg kappa Hne E E2) as Hv.
      rewrite Hw, Hval in Hv.
      assert (Hk : ln n ^ (kappa - degree m lg) <> 0)
        by (apply pow_nonzero; lra).
      apply Rmult_eq_reg_r with (ln n ^ (kappa - degree m lg)); [|exact Hk].
      rewrite Hv. field. exact Hk.
  - injection Hstep as <-.
    apply in_range_add_term; [exact Hg | now apply term_coeff_contains].
Qed.

Lemma truncate_loop_log_encloses (env : gen -> R) (deg : nat) (min_n n : R)
    (w : gen) (kappa : nat) (logn : option gen) (f : poly) :
  1 < min_n -> min_n <= n -> env w = / n ->
  (forall lg, logn = Some lg -> lg <> w /\ env lg = ln n) ->
  forall (g g' : poly) (y0 y : C),
    truncate_loop_log deg min_n w kappa logn f g = Ok g' ->
    in_range env g y0 -> in_range env f y ->
    in_range env g' (Cadd y0 y).
Proof.
  intros Hm Hn Hw Hlg. induction f as [|[m c] f IH]; intros g g' y0 y Hrun Hg Hf.
  - inversion Hf; subst. simpl in Hrun. injection Hrun as <-.
    eapply in_range_eq; [exact Hg | apply C_ext; simpl; ring].
  - inversion Hf as [|m' c' z f' y' Hc Hf']; subst.
    cbn [truncate_loop_log] in Hrun.
    destruct (truncate_term_log deg min_n w kappa logn g (m, c)) as [g1|e]
      eqn:E; cbn [bind] in Hrun; [|discriminate].
    eapply in_range_eq.
    + apply (IH g1 g' (Cadd y0 (Cscale (mon_val env m) z)) y' Hrun);
        [|exact Hf'].
      apply (truncate_term_log_encloses env deg min_n n w kappa logn g g1
               m c y0 z); assumption.
    + apply C_ext; simpl; ring.
Qed.

End TruncationLogProperties.

(** *** Truncation soundness *)

(** C2 (amended).  Whenever [truncate_tail] returns [g], every value of [f]
    at [1/n] (and [log n]) is a value of [g] there and lies in the ball
    obtained by evaluating [g] there, for every [n >= min_n], provided
    [min_n > 0] and, when a log-degree [kappa] is given, [min_n > 1] (so that
    [log n >= log min_n > 0]). *)
Theorem truncate_tail_encloses {BA : BallArith} (f : poly) (deg : nat)
    (min_n : R) (w : gen) (kappa : option nat) (logn : option gen)
    (g : poly) (env : gen -> R) (n : R) (y : C) :
  truncate_tail f deg min_n w kappa logn = Ok g ->
  0 < min_n ->
  (kappa <> None -> 1 < min_n) ->
  min_n <= n ->
  env w = / n ->
  (forall k lg, kappa = Some k -> logn = Some lg -> lg <> w /\ env lg = ln n) ->
  in_range env f y ->
  in_range env g y
  /\ forall mv, (forall m, contains (mv m) (RtoC (mon_val env m))) ->
               contains (eval_ball mv g) y.
Proof.
  intros Hrun Hpos Hone Hn Hw Hlg Hf.
  assert (Hg : in_range env g y).
  { unfold truncate_tail in Hrun. destruct kappa as [k|].
    - assert (H1 : 1 < min_n) by (apply Hone; discriminate).
      eapply in_range_eq.
      + apply (truncate_loop_log_encloses env deg min_n n w k logn f H1 Hn Hw
                 (fun lg => Hlg k lg eq_refl) [] g C0 y Hrun);
          [apply in_range_nil | exact Hf].
      + apply C_ext; simpl; ring.
    - injection Hrun as <-.
      eapply in_range_eq.
      + apply (truncate_fold_encloses env deg min_n n w f Hpos Hn Hw [] C0 y);
          [apply in_range_nil | exact Hf].
      + apply C_ext; simpl; ring. }
  split; [exact Hg|].
  intros mv Hmv. now apply (eval_ball_encloses env).
Qed.

Definition sample_env (n : R) (x : gen) : R :=
  match x with
  | W => / n
  | Logn => ln n
  | _ => 0
  end.

Lemma truncate_tail_encloses_witness :
  exists g : poly (BA := ExactBalls.exact_balls),
    truncate_tail (BA := ExactBalls.exact_balls)
      [(Mon 0 0 0 2 0, ExactBalls.e_of_real 1)] 1 2 W
      (Some 1%nat) (Some Logn) = Ok g
    /\ in_range (sample_env 3) g
         (Cadd (Cscale (mon_val (sample_env 3) (Mon 0 0 0 2 0)) (RtoC 1)) C0)
    /\ forall mv,
         (forall m, ExactBalls.e_contains (mv m)
                      (RtoC (mon_val (sample_env 3) m))) ->
         ExactBalls.e_contains
           (eval_ball (BA := ExactBalls.exact_balls) mv g)
           (Cadd (Cscale (mon_val (sample_env 3) (Mon 0 0 0 2 0)) (RtoC 1))
                 C0).
Proof.
  eexists. split; [reflexivity|].
  apply (truncate_tail_encloses (BA := ExactBalls.exact_balls)
           [(Mon 0 0 0 2 0, ExactBalls.e_of_real 1)] 1 2 W
           (Some 1%nat) (Some Logn) _ (sample_env 3) 3).
  - reflexivity.
  - lra.
  - intros _; lra.
  - lra.
  - reflexivity.
  - intros k lg _ [= <-]. split; [discriminate | reflexivity].
  - apply (@in_range_cons ExactBalls.exact_balls);
      [apply ExactBalls.e_of_real_ok
      | apply (@in_range_nil ExactBalls.exact_balls)].
Defined.

(** C2 as stated fails when [kappa] is given and [min_n <= 1]: at
    [min_n = 1/2] and [n = 1] the term [1 * w] is replaced by a multiple of
    [w * logn], which vanishes at [log 1 = 0], so that [g] evaluates to the
    exact ball 0 while [f] evaluates to 1. *)
Lemma truncate_tail_encloses_counterexample :
  exists g : poly (BA := ExactBalls.exact_balls),
    truncate_tail (BA := ExactBalls.exact_balls)
      [(Mon 0 0 0 1 0, ExactBalls.e_of_real 1)] 1 (1 / 2) W
      (Some 1%nat) (Some Logn) = Ok g
    /\ 0 < 1 / 2 /\ 1 / 2 <= 1
    /\ in_range (BA := ExactBalls.exact_balls) (sample_env 1)
         [(Mon 0 0 0 1 0, ExactBalls.e_of_real 1)] (RtoC 1)
    /\ ~ in_range (sample_env 1) g (RtoC 1)
    /\ ~ ExactBalls.e_contains
          (eval_ball (BA := ExactBalls.exact_balls)
             (fun m => ExactBalls.e_of_real (mon_val (sample_env 1) m)) g)
          (RtoC 1).
Proof.
  eexists. split; [reflexivity|]. split; [lra|]. split; [lra|].
  split; [|split].
  - eapply in_range_eq.
    + apply (@in_range_cons ExactBalls.exact_balls);
        [apply (ExactBalls.e_of_real_ok 1)
        | apply (@in_range_nil ExactBalls.exact_balls)].
    + apply C_ext; unfold mon_val; simpl; rewrite ?Rinv_1; ring.
  - intros H. inversion H as [|m c z f' y' Hc Hf']; subst.
    inversion Hf'; subst.
    match goal with
    | Hy : _ = 1 |- _ =>
        unfold mon_val in Hy; simpl in Hy; rewrite ln_1 in Hy; lra
    end.
  - unfold eval_ball.
    unfold term_coeff.
    cbn [poly_add_term eval_from mon_of_exps degree power_exps gen_eqb
         e_w e_logn e_v e_u e_logz Nat.sub Nat.add
         b_add b_mul b_div b_pow b_log b_of_real ExactBalls.exact_balls].
    match goal with
    | |- context [mon_val ?e ?m] =>
        replace (mon_val e m) with 0
          by (unfold mon_val; simpl; rewrite ln_1; ring)
    end.
    do 2 rewrite ExactBalls.e_mul_of_real.
    assert (Hln : ln (1 / 2) <> 0).
    { assert (ln (1 / 2) < ln 1) by (apply ln_increasing; lra).
      rewrite ln_1 in *. lra. }
    rewrite ExactBalls.e_log_of_real by lra.
    rewrite ExactBalls.e_pow_of_real by exact Hln.
    rewrite ExactBalls.e_mul_of_real.
    rewrite ExactBalls.e_div_of_real by (simpl; lra).
    assert (Hc : exists m rr ri,
               centered (BA := ExactBalls.exact_balls)
                 (ExactBalls.e_of_real 1) = ExactBalls.ERect m rr ri).
    { unfold centered. cbn [b_mid_is_zero b_zero_err b_above_abs
                             ExactBalls.exact_balls].
      destruct (ExactBalls.e_mid_is_zero (ExactBalls.e_of_real 1));
        do 3 eexists; reflexivity. }
    destruct Hc as (m & rr & ri & ->). simpl.
    rewrite Rabs_R0. intros [H _].
    unfold Rabs in H. destruct (Rcase_abs _); lra.
Qed.

(** *** Terms at or below the target degree *)

Section CopiedTerms.

Context {BA : BallArith}.



(** The monomial under which a term of [f] is added to the result. *)
Definition landing (deg : nat) (w : gen) (m' : mon) : mon :=
  if (deg <? degree m' w)%nat
  then mon_of_exps (fun j =>
         (degree m' j - power_exps w (degree m' w - deg) j)%nat)
  else m'.













End CopiedTerms.




(** ** Coefficient extraction: the terminating case and the recursion *)

Lemma is_integer_IZR (k : Z) : is_integer (RtoC (IZR k)) = true.
Proof.
  unfold is_integer; simpl. now rewrite ZfloorZ, !Reqb_refl.
Qed.

Lemma is_nonpos_int_IZR (k : Z) :
  is_nonpos_int (RtoC (IZR k)) = (k <=? 0)%Z.
Proof.
  unfold is_nonpos_int. rewrite is_integer_IZR. simpl.
  destruct (k <=? 0)%Z eqn:E.
  - apply Rleb_true. apply Z.leb_le in E. now apply IZR_le.
  - apply Rleb_false. apply Z.leb_gt in E. now apply IZR_lt.
Qed.

Lemma int_of_IZR (k : Z) : int_of (RtoC (IZR k)) = k.
Proof.
  unfold int_of; simpl. destruct (Rle_dec 0 (IZR k)).
  - apply ZfloorZ.
  - unfold Zceil. rewrite ZfloorNZ. lia.
Qed.

Lemma Cadd_IZR_1 (k : Z) : Cadd (RtoC (IZR k)) (RtoC 1) = RtoC (IZR (k + 1)).
Proof. apply C_ext; simpl; [now rewrite plus_IZR | ring]. Qed.

(** The arguments of a recursive call started from [(alpha, l, min_n)]:
    [alpha + 1], [l] lowered by [dl], and [min_n - 1]. *)
Definition contiguous_call (alpha : C) (l : nat) (min_n : R) (dl : nat)
    (t : call_tree) : Prop :=
  call_alpha t = Cadd alpha (RtoC 1)
  /\ call_l t = (l - dl)%nat
  /\ call_min_n t = min_n - 1.

(** Every invocation in the tree started its recursive calls in this way:
    first [(alpha + 1, l)] and, when that one returned, [(alpha + 1, l - 1)]. *)
Inductive contiguous_tree : call_tree -> Prop :=
| ct_leaf : forall a l m, contiguous_tree (CallLeaf a l m)
| ct_one : forall a l m t1,
    contiguous_call a l m 0 t1 -> contiguous_tree t1 ->
    contiguous_tree (CallOne a l m t1)
| ct_two : forall a l m t1 t2,
    contiguous_call a l m 0 t1 -> contiguous_call a l m 1 t2 ->
    contiguous_tree t1 -> contiguous_tree t2 ->
    contiguous_tree (CallTwo a l m t1 t2).

Section GammaRatioProperties.

Context {BA : BallArith}.
Variable product_all :
  C -> nat -> nat -> gen -> gen -> R -> R -> result poly.
Variable contiguous_sum :
  C -> nat -> nat -> gen -> gen -> R -> R -> poly -> poly -> result poly.

Local Notation "'bcm'" := (bound_coeff_mono product_all contiguous_sum).

Lemma bcm_generic (fuel : nat) (alpha : C) (l deg : nat) (w logn : gen)
    (s min_n : R) :
  is_nonpos_int alpha = false ->
  bcm fuel alpha l deg w logn s min_n =
  Some (CallLeaf alpha l min_n,
        p <- product_all alpha l deg w logn s min_n ;;
        truncate_tail p deg min_n w None None).
Proof. intros H. destruct fuel; simpl; now rewrite H. Qed.

Lemma bcm_terminating (fuel : nat) (alpha : C) (deg : nat) (w logn : gen)
    (s min_n : R) :
  is_nonpos_int alpha = true ->
  bcm fuel alpha 0 deg w logn s min_n =
  Some (CallLeaf alpha 0 min_n,
        if Rle_dec min_n (IZR (- int_of alpha))
        then Raise (ValueError min_n_too_small)
        else Ok []).
Proof. intros H. destruct fuel; simpl; now rewrite H. Qed.

Lemma bcm_recursive (fuel : nat) (alpha : C) (l deg : nat) (w logn : gen)
    (s min_n : R) :
  is_nonpos_int alpha = true -> l <> 0%nat ->
  bcm (S fuel) alpha l deg w logn s min_n =
  match bcm fuel (Cadd alpha (RtoC 1)) l deg U Logz s (min_n - 1) with
  | None => None
  | Some (t1, Raise e) => Some (CallOne alpha l min_n t1, Raise e)
  | Some (t1, Ok poly_rec_1) =>
      match bcm fuel (Cadd alpha (RtoC 1)) (l - 1) deg U Logz s (min_n - 1)
      with
      | None => None
      | Some (t2, Raise e) => Some (CallTwo alpha l min_n t1 t2, Raise e)
      | Some (t2, Ok poly_rec_2) =>
          Some (CallTwo alpha l min_n t1 t2,
                ss <- contiguous_sum alpha l deg w logn s min_n
                        poly_rec_1 poly_rec_2 ;;
                truncate_tail ss deg min_n w None None)
      end
  end.
Proof.
  intros H Hl. simpl. rewrite H. simpl.
  destruct l; [contradiction|]. reflexivity.
Qed.

(** The recursion on an integer [alpha = k] returns once the budget covers
    the distance from [k] to 1, and its tree is no deeper than that. *)
Lemma bcm_returns (d : nat) :
  forall (k : Z) (l fuel deg : nat) (w logn : gen) (s min_n : R),
    (1 - k <= Z.of_nat d)%Z -> (d <= fuel)%nat ->
    exists t r,
      bcm fuel (RtoC (IZR k)) l deg w logn s min_n = Some (t, r)
      /\ call_alpha t = RtoC (IZR k) /\ call_l t = l /\ call_min_n t = min_n
      /\ (call_depth t <= d)%nat
      /\ contiguous_tree t
      /\ ((k <= 0)%Z -> l <> 0%nat ->
          exists t1, contiguous_call (RtoC (IZR k)) l min_n 0 t1
            /\ (subcalls t = [t1]
                \/ exists t2, contiguous_call (RtoC (IZR k)) l min_n 1 t2
                              /\ subcalls t = [t1; t2])).
Proof.
  induction d as [|d IH]; intros k l fuel deg w logn s min_n Hk Hfuel.
  - rewrite bcm_generic
      by (rewrite is_nonpos_int_IZR; apply Z.leb_gt; lia).
    do 2 eexists. split; [reflexivity|]. simpl.
    repeat split; try lia; try constructor.
  - destruct (k <=? 0)%Z eqn:Ek.
    2:{ rewrite bcm_generic by (now rewrite is_nonpos_int_IZR).
        do 2 eexists. split; [reflexivity|]. simpl.
        apply Z.leb_gt in Ek.
        repeat split; try lia; try constructor. }
    destruct l as [|l'].
    { rewrite bcm_terminating by (now rewrite is_nonpos_int_IZR).
      do 2 eexists. split; [reflexivity|]. simpl.
      repeat split; try lia; try constructor. }
    destruct fuel as [|fuel]; [lia|].
    rewrite bcm_recursive
      by (first [rewrite is_nonpos_int_IZR; exact Ek | discriminate]).
    rewrite Cadd_IZR_1.
    apply Z.leb_le in Ek.
    destruct (IH (k + 1)%Z (S l') fuel deg U Logz s (min_n - 1))
      as (t1 & r1 & E1 & Ha1 & Hl1 & Hm1 & Hd1 & Hc1 & _); [lia | lia |].
    assert (Hcall1 : contiguous_call (RtoC (IZR k)) (S l') min_n 0 t1).
    { unfold contiguous_call. rewrite Cadd_IZR_1, Ha1, Hl1, Hm1.
      repeat split; lia. }
    rewrite E1. destruct r1 as [p1|e1].
    + destruct (IH (k + 1)%Z (S l' - 1)%nat fuel deg U Logz s (min_n - 1))
        as (t2 & r2 & E2 & Ha2 & Hl2 & Hm2 & Hd2 & Hc2 & _); [lia | lia |].
      assert (Hcall2 : contiguous_call (RtoC (IZR k)) (S l') min_n 1 t2).
      { unfold contiguous_call. rewrite Cadd_IZR_1, Ha2, Hl2, Hm2.
        repeat split; lia. }
      rewrite E2. destruct r2 as [p2|e2];
        (do 2 eexists; split; [reflexivity|]; simpl;
         repeat split; try lia; try (now constructor);
         intros _ _; exists t1; split; [exact Hcall1|];
         right; exists t2; split; [exact Hcall2 | reflexivity]).
    + do 2 eexists. split; [reflexivity|]. simpl.
      repeat split; try lia; try (now constructor).
      intros _ _. exists t1. split; [exact Hcall1 | now left].
Qed.

(** The tree records the recursion as it ran: an invocation outside the
    recursive case started no call; an invocation in the recursive case has
    one child when the call [(alpha + 1, l)], with [u], [logz] and
    [min_n - 1], raised, and two children when this call returned a
    polynomial, the second one being the call [(alpha + 1, l - 1)]; every
    child is the record of that call, and the same holds below. *)
Inductive recursion_tree (deg : nat) (s : R) : call_tree -> Prop :=
| rt_leaf : forall a l m,
    is_nonpos_int a = false \/ l = 0%nat ->
    recursion_tree deg s (CallLeaf a l m)
| rt_one : forall a l m t1 e fuel,
    is_nonpos_int a = true -> l <> 0%nat ->
    bcm fuel (Cadd a (RtoC 1)) l deg U Logz s (m - 1)
    = Some (t1, Raise e) ->
    recursion_tree deg s t1 ->
    recursion_tree deg s (CallOne a l m t1)
| rt_two : forall a l m t1 t2 p1 r2 fuel,
    is_nonpos_int a = true -> l <> 0%nat ->
    bcm fuel (Cadd a (RtoC 1)) l deg U Logz s (m - 1)
    = Some (t1, Ok p1) ->
    bcm fuel (Cadd a (RtoC 1)) (l - 1) deg U Logz s (m - 1)
    = Some (t2, r2) ->
    recursion_tree deg s t1 -> recursion_tree deg s t2 ->
    recursion_tree deg s (CallTwo a l m t1 t2).

Lemma bcm_tree (d : nat) :
  forall (k : Z) (l fuel deg : nat) (w logn : gen) (s min_n : R),
    (1 - k <= Z.of_nat d)%Z -> (d <= fuel)%nat ->
    exists t r,
      bcm fuel (RtoC (IZR k)) l deg w logn s min_n = Some (t, r)
      /\ recursion_tree deg s t.
Proof.
  induction d as [|d IH]; intros k l fuel deg w logn s min_n Hk Hfuel.
  - assert (Hg : is_nonpos_int (RtoC (IZR k)) = false)
      by (rewrite is_nonpos_int_IZR; apply Z.leb_gt; lia).
    rewrite bcm_generic by exact Hg.
    do 2 eexists. split; [reflexivity|]. constructor. now left.
  - destruct (is_nonpos_int (RtoC (IZR k))) eqn:Ek.
    2:{ rewrite bcm_generic by exact Ek.
        do 2 eexists. split; [reflexivity|]. constructor. now left. }
    destruct l as [|l'].
    { rewrite bcm_terminating by exact Ek.
      do 2 eexists. split; [reflexivity|]. constructor. now right. }
    destruct fuel as [|fuel]; [lia|].
    rewrite bcm_recursive by (first [exact Ek | discriminate]).
    assert (Hk0 : (k <= 0)%Z)
      by (rewrite is_nonpos_int_IZR in Ek; now apply Z.leb_le).
    destruct (IH (k + 1)%Z (S l') fuel deg U Logz s (min_n - 1))
      as (t1 & r1 & E1 & Ht1); [lia | lia |].
    rewrite <- Cadd_IZR_1 in E1. rewrite E1.
    destruct r1 as [p1|e1].
    + destruct (IH (k + 1)%Z (S l' - 1)%nat fuel deg U Logz s (min_n - 1))
        as (t2 & r2 & E2 & Ht2); [lia | lia |].
      rewrite <- Cadd_IZR_1 in E2. rewrite E2.
      destruct r2 as [p2|e2];
        (do 2 eexists; split; [reflexivity|];
         apply (rt_two deg s _ _ _ t1 t2 p1 _ fuel Ek
                  (Nat.neq_succ_0 l') E1 E2 Ht1 Ht2)).
    + do 2 eexists. split; [reflexivity|].
      apply (rt_one deg s _ _ _ t1 e1 fuel Ek (Nat.neq_succ_0 l') E1 Ht1).
Qed.

End GammaRatioProperties.

(** C4.  For [alpha] a non-positive integer and [l = 0], [bound_coeff_mono]
    raises [ValueError] exactly when [min_n <= -alpha], and returns the zero
    polynomial exactly when [min_n > -alpha]. *)
Theorem bound_coeff_mono_terminating {BA : BallArith}
    (product_all : C -> nat -> nat -> gen -> gen -> R -> R -> result poly)
    (contiguous_sum :
       C -> nat -> nat -> gen -> gen -> R -> R -> poly -> poly -> result poly)
    (fuel : nat) (k : Z) (deg : nat) (w logn : gen) (s min_n : R) :
  (k <= 0)%Z ->
  exists t r,
    bound_coeff_mono product_all contiguous_sum fuel (RtoC (IZR k)) 0 deg
      w logn s min_n = Some (t, r)
    /\ (r = Raise (ValueError min_n_too_small) <-> min_n <= - IZR k)
    /\ (r = Ok [] <-> - IZR k < min_n).
Proof.
  intros Hk.
  rewrite bcm_terminating
    by (rewrite is_nonpos_int_IZR; now apply Z.leb_le).
  rewrite int_of_IZR, opp_IZR.
  do 2 eexists. split; [reflexivity|].
  destruct (Rle_dec min_n (- IZR k)) as [H|H]; split; split;
    intros H'; try reflexivity; try discriminate; try lra.
Qed.

Lemma bound_coeff_mono_terminating_witness :
  exists t r,
    bound_coeff_mono (BA := ExactBalls.exact_balls)
      (fun _ _ _ _ _ _ _ => Ok []) (fun _ _ _ _ _ _ _ _ _ => Ok [])
      0 (RtoC (IZR (-2))) 0 3 W Logn 5 50 = Some (t, r)
    /\ (r = Raise (ValueError min_n_too_small) <-> 50 <= - IZR (-2))
    /\ (r = Ok [] <-> - IZR (-2) < 50).
Proof.
  apply (bound_coeff_mono_terminating (BA := ExactBalls.exact_balls)).
  lia.
Defined.

(** [|alpha|] drops by one or [l] drops by one from an invocation to the
    recursive call [t]. *)
Definition measure_drops (alpha : C) (l : nat) (t : call_tree) : Prop :=
  Cmod (call_alpha t) = Cmod alpha - 1 \/ (call_l t + 1 = l)%nat.

(** C5 (amended).  For [alpha] a non-positive integer and [l > 0], with a
    budget of [|alpha| + l] nested calls [bound_coeff_mono] returns.  It
    makes the call [(alpha + 1, l)] and, exactly when that call returns a
    polynomial, the call [(alpha + 1, l - 1)], both with [u], [logz] and
    [min_n - 1]: an error of either call is the result, and otherwise the
    result is the truncated sum of the contiguous relation built from the
    two polynomials.  The same holds at every invocation below
    ([recursion_tree]).  For [alpha < 0] each of these calls lowers
    [|alpha|] by one; the recursion is nested at most [|alpha| + 1] deep,
    hence at most [|alpha| + l]. *)
Theorem bound_coeff_mono_recursion {BA : BallArith}
    (product_all : C -> nat -> nat -> gen -> gen -> R -> R -> result poly)
    (contiguous_sum :
       C -> nat -> nat -> gen -> gen -> R -> R -> poly -> poly -> result poly)
    (fuel : nat) (k : Z) (l deg : nat) (w logn : gen) (s min_n : R) :
  (k <= 0)%Z -> (0 < l)%nat -> (Z.abs_nat k + l <= fuel)%nat ->
  exists t r,
    bound_coeff_mono product_all contiguous_sum fuel (RtoC (IZR k)) l deg
      w logn s min_n = Some (t, r)
    /\ (exists t1 r1,
          bound_coeff_mono product_all contiguous_sum (fuel - 1)
            (Cadd (RtoC (IZR k)) (RtoC 1)) l deg U Logz s (min_n - 1)
          = Some (t1, r1)
          /\ match r1 with
             | Raise e => subcalls t = [t1] /\ r = Raise e
             | Ok poly_rec_1 =>
                 exists t2 r2,
                   bound_coeff_mono product_all contiguous_sum (fuel - 1)
                     (Cadd (RtoC (IZR k)) (RtoC 1)) (l - 1) deg U Logz s
                     (min_n - 1)
                   = Some (t2, r2)
                   /\ subcalls t = [t1; t2]
                   /\ r = match r2 with
                          | Raise e => Raise e
                          | Ok poly_rec_2 =>
                              ss <- contiguous_sum (RtoC (IZR k)) l deg w
                                      logn s min_n poly_rec_1 poly_rec_2 ;;
                              truncate_tail ss deg min_n w None None
                          end
             end)
    /\ recursion_tree product_all contiguous_sum deg s t
    /\ (exists t1, contiguous_call (RtoC (IZR k)) l min_n 0 t1
          /\ (subcalls t = [t1]
              \/ exists t2, contiguous_call (RtoC (IZR k)) l min_n 1 t2
                            /\ subcalls t = [t1; t2]))
    /\ contiguous_tree t
    /\ ((k < 0)%Z -> forall t', In t' (subcalls t) ->
          Cmod (call_alpha t') = Cmod (RtoC (IZR k)) - 1)
    /\ (call_depth t <= Z.abs_nat k + 1)%nat
    /\ (call_depth t <= Z.abs_nat k + l)%nat.
Proof.
  intros Hk Hl Hfuel.
  destruct (bcm_returns product_all contiguous_sum (Z.abs_nat k + 1) k l fuel
              deg w logn s min_n)
    as (t & r & E & Ha & Hl' & Hm & Hd & Hc & Hsub); [lia | lia |].
  exists t, r. split; [exact E|].
  assert (Hcalls := Hsub Hk (fun H => Nat.lt_irrefl _ (eq_ind _ _ Hl _ H))).
  split; [|split; [|split; [exact Hcalls|split; [exact Hc|split; [|split; lia]]]]].
  - destruct fuel as [|fuel']; [lia|].
    rewrite bcm_recursive in E
      by (first [rewrite is_nonpos_int_IZR; now apply Z.leb_le | lia]).
    replace (S fuel' - 1)%nat with fuel' by lia.
    destruct (bound_coeff_mono product_all contiguous_sum fuel'
                (Cadd (RtoC (IZR k)) (RtoC 1)) l deg U Logz s (min_n - 1))
      as [[t1 r1]|] eqn:E1; [|discriminate].
    exists t1, r1. split; [reflexivity|].
    destruct r1 as [p1|e1].
    + destruct (bound_coeff_mono product_all contiguous_sum fuel'
                  (Cadd (RtoC (IZR k)) (RtoC 1)) (l - 1) deg U Logz s
                  (min_n - 1)) as [[t2 r2]|] eqn:E2; [|discriminate].
      exists t2, r2. split; [reflexivity|].
      destruct r2 as [p2|e2]; injection E as <- <-;
        (split; reflexivity).
    + injection E as <- <-. split; reflexivity.
  - destruct (bcm_tree product_all contiguous_sum (Z.abs_nat k + 1) k l fuel
                deg w logn s min_n) as (t' & r' & E' & Ht'); [lia | lia |].
    rewrite E in E'. injection E' as <- <-. exact Ht'.
  - intros Hneg t' Hin.
    assert (Halpha : call_alpha t' = RtoC (IZR (k + 1))).
    { destruct Hcalls as (t1 & [H1 _] & [Hs | (t2 & [H2 _] & Hs)]);
        rewrite Hs in Hin; simpl in Hin; rewrite <- Cadd_IZR_1;
        intuition (subst; assumption). }
    rewrite Halpha, !Cmod_RtoC, <- !abs_IZR, <- minus_IZR.
    f_equal. lia.
Qed.

Lemma bound_coeff_mono_recursion_witness :
  exists t r,
    bound_coeff_mono (BA := ExactBalls.exact_balls)
      (fun _ _ _ _ _ _ _ => Ok []) (fun _ _ _ _ _ _ _ _ _ => Ok [])
      3 (RtoC (IZR (-2))) 1 3 W Logn 5 50 = Some (t, r)
    /\ (exists t1 r1,
          bound_coeff_mono (BA := ExactBalls.exact_balls)
            (fun _ _ _ _ _ _ _ => Ok []) (fun _ _ _ _ _ _ _ _ _ => Ok [])
            (3 - 1) (Cadd (RtoC (IZR (-2))) (RtoC 1)) 1 3 U Logz 5 (50 - 1)
          = Some (t1, r1)
          /\ match r1 with
             | Raise e => subcalls t = [t1] /\ r = Raise e
             | Ok poly_rec_1 =>
                 exists t2 r2,
                   bound_coeff_mono (BA := ExactBalls.exact_balls)
                     (fun _ _ _ _ _ _ _ => Ok [])
                     (fun _ _ _ _ _ _ _ _ _ => Ok [])
                     (3 - 1) (Cadd (RtoC (IZR (-2))) (RtoC 1)) (1 - 1) 3
                     U Logz 5 (50 - 1)
                   = Some (t2, r2)
                   /\ subcalls t = [t1; t2]
                   /\ r = match r2 with
                          | Raise e => Raise e
                          | Ok poly_rec_2 =>
                              ss <- Ok [] ;;
                              truncate_tail (BA := ExactBalls.exact_balls)
                                ss 3 50 W None None
                          end
             end)
    /\ recursion_tree (BA := ExactBalls.exact_balls)
         (fun _ _ _ _ _ _ _ => Ok []) (fun _ _ _ _ _ _ _ _ _ => Ok []) 3 5 t
    /\ (exists t1, contiguous_call (RtoC (IZR (-2))) 1 50 0 t1
          /\ (subcalls t = [t1]
              \/ exists t2, contiguous_call (RtoC (IZR (-2))) 1 50 1 t2
                            /\ subcalls t = [t1; t2]))
    /\ contiguous_tree t
    /\ ((-2 < 0)%Z -> forall t', In t' (subcalls t) ->
          Cmod (call_alpha t') = Cmod (RtoC (IZR (-2))) - 1)
    /\ (call_depth t <= Z.abs_nat (-2) + 1)%nat
    /\ (call_depth t <= Z.abs_nat (-2) + 1)%nat.
Proof.
  apply (bound_coeff_mono_recursion (BA := ExactBalls.exact_balls)
           (fun _ _ _ _ _ _ _ => Ok []) (fun _ _ _ _ _ _ _ _ _ => Ok [])
           3 (-2)%Z 1 3 W Logn 5 50); simpl; lia.
Defined.

(** C5 as stated fails at [alpha = 0]: the first recursive call goes to
    [alpha = 1] with the same [l], so neither [|alpha|] nor [l] drops. *)
Lemma bound_coeff_mono_recursion_counterexample :
  exists t r,
    bound_coeff_mono (BA := ExactBalls.exact_balls)
      (fun _ _ _ _ _ _ _ => Ok []) (fun _ _ _ _ _ _ _ _ _ => Ok [])
      1 (RtoC (IZR 0)) 1 3 W Logn 5 50 = Some (t, r)
    /\ ~ (forall t', In t' (subcalls t) -> measure_drops (RtoC (IZR 0)) 1 t').
Proof.
  rewrite bcm_recursive
    by (first [rewrite is_nonpos_int_IZR; reflexivity | discriminate]).
  rewrite Cadd_IZR_1. simpl Z.add.
  rewrite !bcm_generic by (rewrite is_nonpos_int_IZR; reflexivity).
  simpl. do 2 eexists. split; [reflexivity|].
  intros H. specialize (H _ (or_introl eq_refl)).
  unfold measure_drops in H. simpl in H.
  rewrite !Cmod_RtoC, Rabs_R1, Rabs_R0 in H.
  destruct H as [H|H]; [lra | lia].
Qed.

(** ** Sorting, maxima and minima *)

Definition is_max_of (l : list R) (x : R) : Prop :=
  In x l /\ forall y, In y l -> y <= x.

Definition is_min_of (l : list R) (x : R) : Prop :=
  In x l /\ forall y, In y l -> x <= y.

Lemma fold_Rmax_is_max (l : list R) (x : R) :
  is_max_of (x :: l) (fold_left Rmax l x).
Proof.
  revert x. induction l as [|a l IH]; intros x; simpl.
  - split; [now left | intros y [<-|[]]; lra].
  - destruct (IH (Rmax x a)) as [Hin Hle]. split.
    + destruct Hin as [H|H]; [|now right; right].
      rewrite <- H. unfold Rmax. destruct (Rle_dec x a); [right|]; now left.
    + intros y [<-|[<-|Hy]].
      * eapply Rle_trans; [apply Rmax_l | apply Hle; now left].
      * eapply Rle_trans; [apply Rmax_r | apply Hle; now left].
      * apply Hle. now right.
Qed.

Lemma fold_Rmin_is_min (l : list R) (x : R) :
  is_min_of (x :: l) (fold_left Rmin l x).
Proof.
  revert x. induction l as [|a l IH]; intros x; simpl.
  - split; [now left | intros y [<-|[]]; lra].
  - destruct (IH (Rmin x a)) as [Hin Hle]. split.
    + destruct Hin as [H|H]; [|now right; right].
      rewrite <- H. unfold Rmin. destruct (Rle_dec x a); [|right]; now left.
    + intros y [<-|[<-|Hy]].
      * eapply Rle_trans; [apply Hle; now left | apply Rmin_l].
      * eapply Rle_trans; [apply Hle; now left | apply Rmin_r].
      * apply Hle. now right.
Qed.

Lemma max_of_is_max (l : list R) (x : R) : max_of l = Ok x -> is_max_of l x.
Proof.
  destruct l as [|a l]; simpl; [discriminate|].
  intros [= <-]. apply fold_Rmax_is_max.
Qed.

Lemma min_of_is_min (l : list R) (x : R) : min_of l = Ok x -> is_min_of l x.
Proof.
  destruct l as [|a l]; simpl; [discriminate|].
  intros [= <-]. apply fold_Rmin_is_min.
Qed.

Section SortProperties.

Variable A : Type.
Variable key : A -> R.

Definition key_le (a b : A) : Prop := key a <= key b.

Lemma insert_by_Forall (P : A -> Prop) (x : A) (l : list A) :
  P x -> Forall P l -> Forall P (insert_by key x l).
Proof.
  intros Hx Hl. induction Hl as [|y l Hy Hl IH]; simpl.
  - now constructor.
  - destruct (Rlt_dec (key x) (key y)); repeat constructor; assumption.
Qed.

Lemma insert_by_sorted (x : A) (l : list A) :
  StronglySorted key_le l -> StronglySorted key_le (insert_by key x l).
Proof.
  intros Hl. induction Hl as [|y l Hl IH Hy]; simpl.
  - repeat constructor.
  - destruct (Rlt_dec (key x) (key y)) as [Hlt|Hge].
    + constructor; [now constructor|].
      constructor; [unfold key_le; lra|].
      eapply Forall_impl; [|exact Hy].
      unfold key_le; intros; lra.
    + constructor; [exact IH|].
      apply insert_by_Forall; [unfold key_le; lra | exact Hy].
Qed.

Lemma sort_by_sorted (l : list A) : StronglySorted key_le (sort_by key l).
Proof.
  unfold sort_by.
  assert (H : forall acc, StronglySorted key_le acc ->
            StronglySorted key_le
              (fold_left (fun acc x => insert_by key x acc) l acc)).
  { induction l as [|x l IH]; intros acc Hacc; simpl; [exact Hacc|].
    apply IH. now apply insert_by_sorted. }
  apply H. constructor.
Qed.

Lemma insert_by_length (x : A) (l : list A) :
  List.length (insert_by key x l) = S (List.length l).
Proof.
  induction l as [|y l IH]; simpl; [reflexivity|].
  destruct (Rlt_dec (key x) (key y)); simpl; now rewrite ?IH.
Qed.

Lemma sort_by_length (l : list A) :
  List.length (sort_by key l) = List.length l.
Proof.
  unfold sort_by.
  assert (H : forall acc,
            List.length (fold_left (fun acc x => insert_by key x acc) l acc)
            = (List.length l + List.length acc)%nat).
  { induction l as [|x l IH]; intros acc; simpl; [reflexivity|].
    rewrite IH, insert_by_length. lia. }
  rewrite H. simpl. lia.
Qed.

Lemma sorted_prefix (l1 l2 : list A) :
  StronglySorted key_le (l1 ++ l2) -> StronglySorted key_le l1.
Proof.
  induction l1 as [|x l1 IH]; simpl; intros H; [constructor|].
  inversion H as [|? ? Hs Hf]; subst. constructor; [now apply IH|].
  apply Forall_app in Hf. tauto.
Qed.

(** The last element of a sorted list carries the largest key. *)
Lemma last_of_sorted (l : list A) (x : A) :
  StronglySorted key_le l -> last_of l = Ok x ->
  In x l /\ forall y, In y l -> key y <= key x.
Proof.
  induction l as [|a l IH]; simpl; intros Hs Hl; [discriminate|].
  inversion Hs as [|? ? Hs' Hf]; subst.
  destruct l as [|b l'].
  - injection Hl as <-. split; [now left|]. intros y [<-|[]]. lra.
  - destruct (IH Hs' Hl) as [Hin Hle]. split; [now right|].
    intros y [<-|Hy]; [|now apply Hle].
    rewrite Forall_forall in Hf. apply (Hf x Hin).
Qed.

End SortProperties.

Arguments key_le {A} key a b.

(** The dominant singularities are a prefix of the sorted list: those of
    modulus at most [rad]. *)
Lemma sing_in_disk_aux_prefix (elts : list C) (rad : R) :
  exists rest, elts = fst (sing_in_disk_aux elts rad) ++ rest
    /\ Forall (fun x => Cmod x <= rad) (fst (sing_in_disk_aux elts rad))
    /\ match rest with
       | [] => True
       | x :: _ => rad < Cmod x
       end.
Proof.
  induction elts as [|x elts IH]; simpl.
  - exists []. repeat split. constructor.
  - destruct (Rlt_dec rad (Cmod x)) as [H|H]; simpl.
    + exists (x :: elts). repeat split; [constructor | exact H].
    + destruct IH as (rest & E & Hf & Hr).
      destruct (sing_in_disk_aux elts rad) as [d m]; simpl in *.
      exists rest. split; [now f_equal|]. split; [|exact Hr].
      constructor; [lra | exact Hf].
Qed.

Lemma sing_in_disk_fst (elts : list C) (rad infinity : R) :
  fst (sing_in_disk elts rad infinity) = fst (sing_in_disk_aux elts rad).
Proof.
  unfold sing_in_disk. now destruct (sing_in_disk_aux elts rad).
Qed.

(** ** The guard on [s] in [process_modZ_class] *)

Section ClassProperties.

Context {BA : BallArith}.
Variable my_log_series :
  C -> C -> list (nat * nat) -> Z -> result (list (list ball)).
Variable bound_tail :
  C -> C -> R -> Z -> list (list ball) -> result ball.
Variable bound_local_integral :
  C -> C -> Z -> Z -> R -> list (list ball) -> ball -> nat ->
  list square -> result (poly * list ball).

(** C10.  Once the local series and its tail bound are computed,
    [process_modZ_class] fails with the [ValueError] "Cannot guarantee s>2"
    exactly when [s = floor(min_n / (|leftmost| + |order|))] is defined and
    at most 2.  (The bounds of the local integrals, computed after the
    guard, do not raise this error.) *)
Theorem process_modZ_class_guard (rho : C) (rad abs_order min_n : R)
    (coord_big_circle : list square) (leftmost : C)
    (shifts : list (nat * nat)) (ser : list (list ball)) (vb : ball) :
  let order := Zceil (abs_order - Re leftmost) in
  let den := Cmod leftmost + IZR (Z.abs order) in
  my_log_series rho leftmost shifts (order + 49)%Z = Ok ser ->
  bound_tail rho leftmost (rad - Cmod rho) order ser = Ok vb ->
  (forall s kappa,
     bound_local_integral rho leftmost order s min_n ser vb kappa
       coord_big_circle <> Raise (ValueError s_too_small)) ->
  process_modZ_class my_log_series bound_tail bound_local_integral
    rho rad abs_order min_n coord_big_circle leftmost shifts
  = Raise (ValueError s_too_small)
  <-> den <> 0 /\ (Zfloor (min_n / den) <= 2)%Z.
Proof.
  intros order den Hser Hvb Hlater. unfold process_modZ_class.
  fold order. rewrite Hser. cbn [bind]. rewrite Hvb. cbn [bind]. fold den.
  destruct (Req_dec_T den 0) as [Hden|Hden].
  { split; [discriminate | intros [H _]; contradiction]. }
  destruct (Zfloor (min_n / den) <=? 2)%Z eqn:Es.
  { apply Z.leb_le in Es. split; [intros _; now split | reflexivity]. }
  apply Z.leb_gt in Es. split; [|intros [_ H]; lia].
  intros H. exfalso.
  destruct (first_of shifts) as [sh0|e] eqn:E0; cbn [bind] in H;
    [|destruct shifts; simpl in E0; congruence].
  destruct (negb ((fst sh0 =? 0)%nat && (0 <? order + 49)%Z));
    [discriminate|].
  destruct (log_powers shifts (order + 49) ser) as [ks|e] eqn:E1;
    cbn [bind] in H.
  2:{ assert (He : e = IndexError); [|subst e; discriminate].
      clear -E1. revert e E1.
      induction shifts as [|[sh mu] shs IH]; simpl; intros e E1;
        [discriminate|].
      destruct (Z.of_nat sh <? order + 49)%Z; [|now apply IH].
      destruct (nth_error ser sh); [|congruence].
      destruct (log_powers shs (order + 49) ser); simpl in E1;
        [discriminate|].
      injection E1 as <-. now apply IH. }
  destruct (max_of_nat ks) as [k0|e] eqn:E2; cbn [bind] in H;
    [|destruct ks; simpl in E2; [injection E2 as <-|]; discriminate].
  destruct (bound_local_integral rho leftmost order
              (Zfloor (min_n / den)) min_n ser vb
              (k0 + late_mults shifts (order + 49)) coord_big_circle)
    as [bd|e] eqn:E3; cbn [bind] in H; [discriminate|].
  injection H as ->. apply (Hlater _ _ E3).
Qed.

End ClassProperties.

Lemma process_modZ_class_guard_witness :
  process_modZ_class (BA := ExactBalls.exact_balls)
    (fun _ _ _ _ => Ok [[ExactBalls.e_of_real 1]])
    (fun _ _ _ _ _ => Ok (ExactBalls.e_of_real 0))
    (fun _ _ _ _ _ _ _ _ _ => Ok ([], []))
    (RtoC 1) 2 0 2 [] (RtoC (-1)) [(0%nat, 1%nat)]
  = Raise (ValueError s_too_small)
  <-> Cmod (RtoC (-1)) + IZR (Z.abs (Zceil (0 - Re (RtoC (-1))))) <> 0
      /\ (Zfloor (2 / (Cmod (RtoC (-1))
                       + IZR (Z.abs (Zceil (0 - Re (RtoC (-1))))))) <= 2)%Z.
Proof.
  apply (process_modZ_class_guard (BA := ExactBalls.exact_balls)
           (fun _ _ _ _ => Ok [[ExactBalls.e_of_real 1]])
           (fun _ _ _ _ _ => Ok (ExactBalls.e_of_real 0))
           (fun _ _ _ _ _ _ _ _ _ => Ok ([], []))
           (RtoC 1) 2 0 2 [] (RtoC (-1)) [(0%nat, 1%nat)]
           [[ExactBalls.e_of_real 1]] (ExactBalls.e_of_real 0)).
  - reflexivity.
  - reflexivity.
  - intros s kappa; discriminate.
Defined.

(** ** Dominant singularities *)

Lemma dominant_and_radius_prefix (all_exn_points sings : list C)
    (rad : option R) (doms : list C) (r : R) :
  dominant_and_radius all_exn_points sings rad = Ok (doms, r) ->
  exists r0 rest, doms = fst (sing_in_disk_aux sings r0) /\ sings = doms ++ rest.
Proof.
  unfold dominant_and_radius. intros H. destruct rad as [r1|].
  - destruct (last_of sings) as [s_last|] eqn:El; cbn [bind] in H;
      [|discriminate].
    pose proof (sing_in_disk_fst sings r1 (Cmod s_last * 2 + r1 * 2)) as Hf.
    destruct (sing_in_disk sings r1 (Cmod s_last * 2 + r1 * 2)) as [d m].
    simpl in Hf. destruct d as [|d0 d]; [discriminate|].
    destruct (last_of (d0 :: d)); cbn [bind] in H; [|discriminate].
    destruct (Req_dec_T (Cmod a) r1); [discriminate|].
    injection H as <- <-.
    destruct (sing_in_disk_aux_prefix sings r1) as (rest & E & _).
    exists r1, rest. rewrite <- Hf in E. now split.
  - destruct (first_of sings) as [s_first|] eqn:Ef; cbn [bind] in H;
      [|discriminate].
    destruct (last_of sings) as [s_last|] eqn:El; cbn [bind] in H;
      [|discriminate].
    pose proof (sing_in_disk_fst sings (Cmod s_first) (Cmod s_last * 3)) as Hf.
    destruct (sing_in_disk sings (Cmod s_first) (Cmod s_last * 3)) as [d m].
    simpl in Hf.
    destruct (choose_big_radius all_exn_points d m); cbn [bind] in H;
      [|discriminate].
    injection H as <- <-.
    destruct (sing_in_disk_aux_prefix sings (Cmod s_first)) as (rest & E & _).
    exists (Cmod s_first), rest. rewrite <- Hf in E. now split.
Qed.

Lemma potential_singularities_sorted (nonapparent : list C)
    (singularities : option (list C)) (known_analytic : list C) :
  StronglySorted (key_le Cmod)
    (potential_singularities nonapparent singularities known_analytic).
Proof. unfold potential_singularities. apply sort_by_sorted. Qed.

(** Distances between two distinct dominant singularities. *)
Definition pairwise_distance (doms : list C) (d : R) : Prop :=
  exists a b, In a doms /\ In b doms /\ a <> b /\ d = Cmod (Csub a b).

Lemma pairwise_distance_list (doms : list C) (d : R) :
  In d (flat_map (fun s0 =>
          map (fun s1 => Cmod (Csub s0 s1))
              (filter (fun s1 => negb (Ceqb s0 s1)) doms)) doms)
  <-> pairwise_distance doms d.
Proof.
  unfold pairwise_distance. rewrite in_flat_map. split.
  - intros (a & Ha & Hd). apply in_map_iff in Hd as (b & <- & Hb).
    apply filter_In in Hb as [Hb Hne]. exists a, b. repeat split; auto.
    intros ->. rewrite (proj2 (Ceqb_true b b) eq_refl) in Hne. discriminate.
  - intros (a & b & Ha & Hb & Hne & ->). exists a. split; [exact Ha|].
    apply in_map_iff. exists b. split; [reflexivity|].
    apply filter_In. split; [exact Hb|].
    destruct (Ceqb a b) eqn:E; [|reflexivity].
    apply Ceqb_true in E. contradiction.
Qed.

(** [N1] by the words of the specification: zero for a single dominant
    singularity, else twice the modulus of the farthest one over the minimum
    pairwise distance, rounded up. *)
Definition spacing_spec (doms : list C) (N1 : Z) : Prop :=
  ((List.length doms <= 1)%nat /\ N1 = 0%Z)
  \/ ((1 < List.length doms)%nat
      /\ exists F D,
           is_max_of (map Cmod doms) F
           /\ pairwise_distance doms D
           /\ (forall d, pairwise_distance doms d -> D <= d)
           /\ N1 = Zceil (2 * F / D)).

Lemma spacing_threshold_spec (doms : list C) (N1 : Z) :
  StronglySorted (key_le Cmod) doms ->
  spacing_threshold doms = Ok N1 -> spacing_spec doms N1.
Proof.
  intros Hs. unfold spacing_threshold, spacing_spec.
  destruct (1 <? List.length doms)%nat eqn:E.
  - apply Nat.ltb_lt in E. intros H. right. split; [exact E|].
    match type of H with
    | bind (min_of ?l) _ = _ =>
        destruct (min_of l) as [min_dist|] eqn:Em; cbn [bind] in H;
          [|discriminate]
    end.
    destruct (last_of doms) as [d_last|] eqn:El; cbn [bind] in H;
      [|discriminate].
    injection H as <-.
    exists (Cmod d_last), min_dist.
    destruct (last_of_sorted C Cmod doms d_last Hs El) as [Hin Hle].
    destruct (min_of_is_min _ _ Em) as [Hmin Hlow].
    split; [|split; [|split]].
    + split; [now apply in_map|].
      intros y Hy. apply in_map_iff in Hy as (s & <- & Hs'). now apply Hle.
    + now apply pairwise_distance_list.
    + intros d Hd. apply Hlow. now apply pairwise_distance_list.
    + reflexivity.
  - apply Nat.ltb_ge in E. intros [= <-]. left. now split.
Qed.

(** ** The complete bound *)

Section CompleteBoundProperties.

Context {BA : BallArith}.
Variable deq_singularities : list C.
Variable deq_singularities_nonapparent : list C.
Variable critical_monomials : C -> list fund_sol.
Variable exponent_classes : C -> list (C * list (nat * nat)).
Variable my_log_series :
  C -> C -> list (nat * nat) -> Z -> result (list (list ball)).
Variable bound_tail :
  C -> C -> R -> Z -> list (list ball) -> result ball.
Variable bound_local_integral :
  C -> C -> Z -> Z -> R -> list (list ball) -> ball -> nat ->
  list square -> result (poly * list ball).
Variable numerical_solution : list square -> result (list (square * ball)).
Variable bound_t : Type.
Variable assemble_bound :
  list (C * contribution) -> list ball -> R -> R -> Z -> result bound_t.
Variable to_double : R -> spec_float.

Local Notation "'single'" :=
  (contribution_single_singularity critical_monomials exponent_classes
     my_log_series bound_tail bound_local_integral).
Local Notation "'loop'" :=
  (singularity_loop critical_monomials exponent_classes
     my_log_series bound_tail bound_local_integral).
Local Notation "'run'" :=
  (contribution_all_singularity deq_singularities
     deq_singularities_nonapparent critical_monomials exponent_classes
     my_log_series bound_tail bound_local_integral numerical_solution
     bound_t assemble_bound to_double).

(** *** Apparent singularities *)

Lemma filter_nonanalytic_nil (crit : list fund_sol) :
  forallb analytic_sol crit = true ->
  filter (fun sol => negb (analytic_sol sol)) crit = [].
Proof.
  induction crit as [|sol crit IH]; simpl; [reflexivity|].
  intros H. apply andb_true_iff in H as [H1 H2]. rewrite H1. simpl.
  now apply IH.
Qed.

(** Processing stops for a singularity at which every local solution is
    analytic: nothing is returned. *)
Lemma single_analytic (rho : C) (rad : R) (coord : list square)
    (rel_order : Z) (min_n : R) :
  forallb analytic_sol (critical_monomials rho) = true ->
  single rho rad coord rel_order min_n = Ok None.
Proof.
  intros H. unfold contribution_single_singularity.
  now rewrite filter_nonanalytic_nil.
Qed.

(** The caller unpacks this nothing into five variables. *)
Lemma loop_analytic_head (rho : C) (rest : list C) (rad : R)
    (coord : list square) (total_order : Z) (min_n : R) :
  forallb analytic_sol (critical_monomials rho) = true ->
  loop (rho :: rest) rad coord total_order min_n = Raise TypeError.
Proof.
  intros H. cbn [singularity_loop]. now rewrite single_analytic.
Qed.

Lemma loop_analytic_never_ok (doms : list C) (rho : C) (rad : R)
    (coord : list square) (total_order : Z) (min_n : R) :
  In rho doms ->
  forallb analytic_sol (critical_monomials rho) = true ->
  forall l, loop doms rad coord total_order min_n <> Ok l.
Proof.
  intros Hin Han. induction doms as [|d doms IH]; [contradiction|].
  intros l. cbn [singularity_loop].
  destruct Hin as [->|Hin].
  - now rewrite single_analytic.
  - destruct (single d rad coord total_order min_n) as [[c|]|e];
      cbn [bind]; try discriminate.
    destruct (loop doms rad coord total_order min_n) as [cs|e] eqn:E;
      cbn [bind]; [|discriminate].
    exfalso. now apply (IH Hin cs).
Qed.

(** The complete computation returns no bound when one of the dominant
    singularities carries only analytic local solutions. *)
Lemma run_analytic_never_ok (singularities : option (list C))
    (known_analytic : list C) (rad : option R) (total_order : Z) (min_n : R)
    (halfside : option R) (doms : list C) (r : R) (rho : C) :
  dominant_and_radius (exceptional_points deq_singularities)
    (potential_singularities deq_singularities_nonapparent singularities
       known_analytic) rad = Ok (doms, r) ->
  In rho doms ->
  forallb analytic_sol (critical_monomials rho) = true ->
  forall res,
    run singularities known_analytic rad total_order min_n halfside <> Ok res.
Proof.
  intros Hd Hin Han res H. unfold contribution_all_singularity in H.
  rewrite Hd in H. cbn [bind fst snd] in H.
  destruct (spacing_threshold doms); cbn [bind] in H; [|discriminate].
  match type of H with
  | bind ?hs _ = _ => destruct hs; cbn [bind] in H; [|discriminate]
  end.
  match type of H with
  | bind ?p _ = _ => destruct p; cbn [bind] in H; [|discriminate]
  end.
  match type of H with
  | bind ?p _ = _ => destruct p as [l|] eqn:E; cbn [bind] in H;
                     [|discriminate]
  end.
  exact (loop_analytic_never_ok doms rho _ _ _ _ Hin Han l E).
Qed.

(** *** Errors on an explicit radius *)

Lemma run_radius_error (singularities : option (list C))
    (known_analytic : list C) (rad : option R) (total_order : Z) (min_n : R)
    (halfside : option R) (e : exn) :
  dominant_and_radius (exceptional_points deq_singularities)
    (potential_singularities deq_singularities_nonapparent singularities
       known_analytic) rad = Raise e ->
  run singularities known_analytic rad total_order min_n halfside = Raise e.
Proof.
  intros H. unfold contribution_all_singularity. now rewrite H.
Qed.

End CompleteBoundProperties.

(** With a radius given and at least one potential singularity, none of
    which lies in the disk, the error is "No singularity in given disk". *)
Lemma no_singularity_in_disk (all_exn_points sings : list C) (r : R) :
  sings <> [] ->
  (forall s, In s sings -> r < Cmod s) ->
  dominant_and_radius all_exn_points sings (Some r)
  = Raise (ValueError no_sing_in_disk).
Proof.
  intros Hne Hout. unfold dominant_and_radius.
  destruct (last_of sings) as [s_last|e] eqn:El; cbn [bind].
  - unfold sing_in_disk. destruct sings as [|s0 sings]; [contradiction|].
    simpl. destruct (Rlt_dec r (Cmod s0)) as [H|H]; [reflexivity|].
    exfalso. apply H. apply Hout. now left.
  - destruct sings as [|s0 sings]; [contradiction|]. exfalso.
    clear -El. revert s0 El. induction sings as [|s1 sings IH]; intros s0 El;
      simpl in El; [discriminate | now apply (IH s1)].
Qed.

(** With a radius given, a potential singularity of modulus exactly the
    radius gives the error "A singularity is on the given radius". *)
Lemma singularity_on_radius (all_exn_points sings : list C) (r : R) (s : C) :
  StronglySorted (key_le Cmod) sings ->
  In s sings -> Cmod s = r ->
  dominant_and_radius all_exn_points sings (Some r)
  = Raise (ValueError sing_on_radius).
Proof.
  intros Hs Hin Hmod. unfold dominant_and_radius.
  destruct (last_of sings) as [s_last|e] eqn:El; cbn [bind].
  2:{ exfalso. destruct sings as [|s0 sings]; [contradiction|].
      clear -El. revert s0 El.
      induction sings as [|s1 sings IH]; intros s0 El; simpl in El;
        [discriminate | now apply (IH s1)]. }
  pose proof (sing_in_disk_fst sings r (Cmod s_last * 2 + r * 2)) as Hf.
  destruct (sing_in_disk sings r (Cmod s_last * 2 + r * 2)) as [d m].
  simpl in Hf.
  destruct (sing_in_disk_aux_prefix sings r) as (rest & E & Hle & Hrest).
  rewrite <- Hf in E, Hle.
  assert (Hd : In s d).
  { rewrite E in Hin. apply in_app_or in Hin as [H|H]; [exact H|].
    exfalso. destruct rest as [|x rest]; [contradiction|].
    rewrite E in Hs. clear -Hs H Hrest Hmod.
    induction d as [|a d IH]; simpl in Hs.
    - inversion Hs as [|? ? _ Hall]; subst.
      destruct H as [<-|H]; [lra|].
      rewrite Forall_forall in Hall. specialize (Hall s H).
      unfold key_le in Hall. lra.
    - inversion Hs; subst. now apply IH. }
  destruct d as [|d0 d]; [contradiction|].
  assert (Hsd : StronglySorted (key_le Cmod) (d0 :: d))
    by (rewrite E in Hs; now apply sorted_prefix in Hs).
  destruct (last_of (d0 :: d)) as [d_last|e] eqn:Ed; cbn [bind].
  - destruct (last_of_sorted C Cmod _ _ Hsd Ed) as [Hin' Hmax].
    rewrite Forall_forall in Hle.
    pose proof (Hle _ Hin'). pose proof (Hmax _ Hd).
    destruct (Req_dec_T (Cmod d_last) r); [reflexivity | lra].
  - exfalso. clear -Ed. revert d0 Ed.
    induction d as [|a d IH]; intros d0 Ed; simpl in Ed;
      [discriminate | now apply (IH a)].
Qed.

(** *** The exponents retained for a singularity *)

Section RetainedExponents.

Context {BA : BallArith}.
Variable critical_monomials : C -> list fund_sol.
Variable exponent_classes : C -> list (C * list (nat * nat)).
Variable my_log_series :
  C -> C -> list (nat * nat) -> Z -> result (list (list ball)).
Variable bound_tail :
  C -> C -> R -> Z -> list (list ball) -> result ball.
Variable bound_local_integral :
  C -> C -> Z -> Z -> R -> list (list ball) -> ball -> nat ->
  list square -> result (poly * list ball).

Lemma process_modZ_class_leftmost (rho : C) (rad abs_order min_n : R)
    (coord_big_circle : list square) (leftmost : C)
    (shifts : list (nat * nat)) (d : class_data) :
  process_modZ_class my_log_series bound_tail bound_local_integral
    rho rad abs_order min_n coord_big_circle leftmost shifts = Ok d ->
  cd_leftmost d = leftmost.
Proof.
  unfold process_modZ_class.
  repeat match goal with
  | |- context [bind ?r _] =>
      destruct r; cbn [bind]; [|discriminate]
  | |- context [if ?b then _ else _] => destruct b; [discriminate|]
  | |- context [if ?b then _ else _] => destruct b; [|discriminate]
  end.
  intros [= <-]. reflexivity.
Qed.

Lemma analyzer_run_leftmost (rho : C) (rad abs_order min_n : R)
    (coord_big_circle : list square)
    (classes : list (C * list (nat * nat))) :
  forall data,
    analyzer_run my_log_series bound_tail bound_local_integral
      rho rad abs_order min_n coord_big_circle classes = Ok data ->
    map cd_leftmost data = map fst classes.
Proof.
  induction classes as [|[leftmost shifts] classes IH]; intros data;
    cbn [analyzer_run].
  - intros [= <-]. reflexivity.
  - destruct (process_modZ_class my_log_series bound_tail
                bound_local_integral rho rad abs_order min_n
                coord_big_circle leftmost shifts) as [d|] eqn:Ed;
      cbn [bind]; [|discriminate].
    destruct (analyzer_run my_log_series bound_tail bound_local_integral
                rho rad abs_order min_n coord_big_circle classes)
      as [ds|] eqn:Eds; cbn [bind]; [|discriminate].
    intros [= <-]. cbn [map fst]. f_equal.
    + now apply process_modZ_class_leftmost in Ed.
    + now apply IH.
Qed.

(** [list_val_rho] lists the leftmost exponents of the classes at [rho]. *)
Lemma single_leftmost (rho : C) (rad : R) (coord : list square)
    (rel_order : Z) (min_n : R) (c : contribution) :
  contribution_single_singularity critical_monomials exponent_classes
    my_log_series bound_tail bound_local_integral
    rho rad coord rel_order min_n = Ok (Some c) ->
  list_val_rho c = map fst (exponent_classes rho).
Proof.
  unfold contribution_single_singularity.
  destruct (filter (fun sol => negb (analytic_sol sol))
              (critical_monomials rho)) as [|sol0 rest]; [discriminate|].
  match goal with
  | |- bind ?r _ = _ -> _ =>
      destruct r as [data|] eqn:Erun; cbn [bind]; [|discriminate]
  end.
  destruct (sum_samples_all data (seq 0 (List.length coord)));
    cbn [bind]; [|discriminate].
  destruct (max_of_nat (map cd_kappa data)); cbn [bind]; [|discriminate].
  intros [= <-]. cbn [list_val_rho].
  now apply analyzer_run_leftmost in Erun.
Qed.

(** The exponents retained by the loop over the dominant singularities are
    the leftmost exponents of their classes. *)
Lemma loop_leftmost (doms : list C) (rad : R) (coord : list square)
    (total_order : Z) (min_n : R) :
  forall list_data,
    singularity_loop critical_monomials exponent_classes my_log_series
      bound_tail bound_local_integral doms rad coord total_order min_n
    = Ok list_data ->
    flat_map (fun d => list_val_rho (snd d)) list_data
    = flat_map (fun rho => map fst (exponent_classes rho)) doms.
Proof.
  induction doms as [|rho doms IH]; intros list_data;
    cbn [singularity_loop].
  - intros [= <-]. reflexivity.
  - destruct (contribution_single_singularity critical_monomials
                exponent_classes my_log_series bound_tail
                bound_local_integral rho rad coord total_order min_n)
      as [[c|]|] eqn:Ec; cbn [bind]; try discriminate.
    destruct (singularity_loop critical_monomials exponent_classes
                my_log_series bound_tail bound_local_integral doms rad
                coord total_order min_n) as [cs|] eqn:Ecs; cbn [bind];
      [|discriminate].
    intros [= <-]. cbn [flat_map snd].
    rewrite (single_leftmost _ _ _ _ _ _ Ec). f_equal. now apply IH.
Qed.

End RetainedExponents.

(** The integer that [ceil] returns for a float is the ceiling of the
    number that the float is. *)
Lemma float_ceil_val (x : spec_float) (c : Z) :
  float_ceil x = Ok c -> c = Zceil (float_val x).
Proof.
  destruct x as [sg|sg| |sg m e]; cbn [float_ceil float_val];
    try discriminate.
  - intros [= <-]. symmetry. apply Zceil_eq. simpl. lra.
  - intros [= <-]. symmetry.
    set (n := if sg then Z.neg m else Z.pos m).
    destruct e as [|p|p].
    + apply Zceil_eq. rewrite Z.mul_1_r. simpl. lra.
    + apply Zceil_eq.
      replace (IZR n * powerRZ 2 (Z.pos p)) with (IZR (n * 2 ^ Z.pos p)).
      * lra.
      * rewrite mult_IZR. f_equal. unfold powerRZ.
        now rewrite pow_IZR, positive_nat_Z.
    + apply Zceil_eq.
      assert (HD : (0 < 2 ^ Z.pos p)%Z) by (apply Z.pow_pos_nonneg; lia).
      assert (HDR : 0 < IZR (2 ^ Z.pos p)) by (now apply IZR_lt).
      replace (IZR n * powerRZ 2 (Z.neg p))
        with (IZR n / IZR (2 ^ Z.pos p)).
      2:{ unfold Rdiv. f_equal. unfold powerRZ. f_equal.
          now rewrite pow_IZR, positive_nat_Z. }
      pose proof (Z.mul_div_le (- n) (2 ^ Z.pos p) HD) as Hlo.
      pose proof (Z.mul_succ_div_gt (- n) (2 ^ Z.pos p) HD) as Hhi.
      apply IZR_le in Hlo. apply IZR_lt in Hhi.
      rewrite mult_IZR, opp_IZR in Hlo.
      rewrite mult_IZR, succ_IZR, opp_IZR in Hhi.
      rewrite opp_IZR.
      change (Z.pow_pos 2 p) with (2 ^ Z.pos p)%Z.
      set (q := IZR (- n / 2 ^ Z.pos p)) in *.
      set (D := IZR (2 ^ Z.pos p)) in *.
      split.
      * apply Rmult_lt_reg_r with D; [exact HDR|].
        replace (IZR n / D * D) with (IZR n) by (field; lra).
        replace ((- q - 1) * D) with (- (D * (q + 1))) by ring. lra.
      * apply Rmult_le_reg_r with D; [exact HDR|].
        replace (IZR n / D * D) with (IZR n) by (field; lra).
        replace (- q * D) with (- (D * q)) by ring. lra.
Qed.

(** *** The validity threshold *)

Section ThresholdProperties.

Context {BA : BallArith}.
Variable deq_singularities : list C.
Variable deq_singularities_nonapparent : list C.
Variable critical_monomials : C -> list fund_sol.
Variable exponent_classes : C -> list (C * list (nat * nat)).
Variable my_log_series :
  C -> C -> list (nat * nat) -> Z -> result (list (list ball)).
Variable bound_tail :
  C -> C -> R -> Z -> list (list ball) -> result ball.
Variable bound_local_integral :
  C -> C -> Z -> Z -> R -> list (list ball) -> ball -> nat ->
  list square -> result (poly * list ball).
Variable numerical_solution : list square -> result (list (square * ball)).
Variable bound_t : Type.
Variable assemble_bound :
  list (C * contribution) -> list ball -> R -> R -> Z -> result bound_t.
Variable to_double : R -> spec_float.

(** C6 (amended).  When [contribution_all_singularity] returns
    [(N0, bound)], [N0] is the maximum of [ceil(p)] and [N1].  Here [p] is
    the product, rounded to a double, of the Python float [2.1] (the double
    nearest to 21/10, a little above it) by the double to which
    [M + total_order + 1] is converted, [M] being the largest modulus among
    the leftmost exponents of the classes of exponents at the dominant
    singularities; [ceil(p)] is the ceiling of the number [p], which need
    not be the ceiling of the exact product by 21/10.  [N1] is
    [ceil(2 * F / D)], computed exactly, [F] being the modulus of the
    farthest dominant singularity and [D] the minimum distance between two
    distinct dominant singularities, when there is more than one of them,
    and 0 otherwise. *)
Theorem validity_threshold_formula (singularities : option (list C))
    (known_analytic : list C) (rad : option R) (total_order : Z) (min_n : R)
    (halfside : option R) (N0 : Z) (bound : bound_t) :
  contribution_all_singularity deq_singularities
    deq_singularities_nonapparent critical_monomials exponent_classes
    my_log_series bound_tail bound_local_integral numerical_solution
    bound_t assemble_bound to_double
    singularities known_analytic rad total_order min_n halfside
  = Ok (N0, bound) ->
  exists doms r coord list_data M N1 c,
    dominant_and_radius (exceptional_points deq_singularities)
      (potential_singularities deq_singularities_nonapparent singularities
         known_analytic) rad = Ok (doms, r)
    /\ singularity_loop critical_monomials exponent_classes my_log_series
         bound_tail bound_local_integral doms r coord total_order min_n
       = Ok list_data
    /\ flat_map (fun d => list_val_rho (snd d)) list_data
       = flat_map (fun rho => map fst (exponent_classes rho)) doms
    /\ is_max_of
         (map Cmod
            (flat_map (fun rho => map fst (exponent_classes rho)) doms)) M
    /\ spacing_spec doms N1
    /\ float_ceil
         (float_mul float_2_1 (to_double (M + IZR total_order + 1))) = Ok c
    /\ c = Zceil (float_val
                    (float_mul float_2_1
                       (to_double (M + IZR total_order + 1))))
    /\ N0 = Z.max c N1.
Proof.
  intros H. unfold contribution_all_singularity in H.
  match type of H with
  | bind ?d _ = _ => destruct d as [[doms r]|] eqn:Ed; cbn [bind fst snd] in H;
                     [|discriminate]
  end.
  destruct (spacing_threshold doms) as [N1|] eqn:EN; cbn [bind] in H;
    [|discriminate].
  match type of H with
  | bind ?hs _ = _ => destruct hs as [hs'|]; cbn [bind] in H; [|discriminate]
  end.
  match type of H with
  | bind ?p _ = _ => destruct p as [pairs|]; cbn [bind] in H; [|discriminate]
  end.
  match type of H with
  | bind ?p _ = _ => destruct p as [list_data|] eqn:El; cbn [bind] in H;
                     [|discriminate]
  end.
  match type of H with
  | bind ?p _ = _ => destruct p; cbn [bind] in H; [|discriminate]
  end.
  match type of H with
  | bind ?p _ = _ => destruct p; cbn [bind] in H; [|discriminate]
  end.
  match type of H with
  | bind ?p _ = _ => destruct p; cbn [bind] in H; [|discriminate]
  end.
  match type of H with
  | bind ?p _ = _ => destruct p as [M|] eqn:EM; cbn [bind] in H;
                     [|discriminate]
  end.
  match type of H with
  | bind ?p _ = _ => destruct p as [c|] eqn:Ec; cbn [bind] in H;
                     [|discriminate]
  end.
  injection H as <- <-.
  pose proof (loop_leftmost critical_monomials exponent_classes
                my_log_series bound_tail bound_local_integral
                _ _ _ _ _ _ El) as Hleft.
  exists doms, r, (map fst pairs), list_data, M, N1, c.
  split; [reflexivity|]. split; [exact El|]. split; [exact Hleft|].
  split; [rewrite <- Hleft; now apply max_of_is_max|].
  split; [|split; [exact Ec | split; [now apply float_ceil_val
                                      | reflexivity]]].
  apply spacing_threshold_spec; [|exact EN].
  destruct (dominant_and_radius_prefix _ _ _ _ _ Ed) as (r0 & rest & _ & E).
  pose proof (potential_singularities_sorted deq_singularities_nonapparent
                singularities known_analytic) as Hs.
  rewrite E in Hs. now apply sorted_prefix in Hs.
Qed.

(** *** Sampling the big circle *)

(** The two paths solved for the arc of index [j0]. *)
Definition arc_paths (sings : list C) (rad halfside : R) (j0 : nat)
    : list (list square) :=
  [circle_upper sings rad halfside j0;
   map sq_conj (circle_upper sings rad halfside j0)].

Lemma big_circle_loop_solved (sings : list C) (rad halfside : R)
    (js : list nat) :
  forall pairs solved pairs',
    snd (big_circle_loop numerical_solution sings rad halfside js pairs solved)
    = Ok pairs' ->
    fst (big_circle_loop numerical_solution sings rad halfside js pairs solved)
    = solved ++ flat_map (arc_paths sings rad halfside) js
    /\ exists answers,
         Forall2 (fun path ans => numerical_solution path = Ok ans)
           (flat_map (arc_paths sings rad halfside) js) answers
         /\ pairs' = pairs ++ List.concat answers.
Proof.
  induction js as [|j0 js IH]; intros pairs solved pairs'; simpl.
  - intros [= <-]. rewrite !app_nil_r. split; [reflexivity|].
    exists []. split; [constructor | now rewrite app_nil_r].
  - destruct (numerical_solution (circle_upper sings rad halfside j0))
      as [up|] eqn:Eu; [|discriminate].
    destruct (numerical_solution
                (map sq_conj (circle_upper sings rad halfside j0)))
      as [lo|] eqn:Elo; [|discriminate].
    intros H. destruct (IH _ _ _ H) as [Hs (answers & Hall & Hp)].
    split.
    + rewrite Hs, <- app_assoc. reflexivity.
    + exists (up :: lo :: answers). split.
      * repeat constructor; assumption.
      * rewrite Hp. simpl. now rewrite <- !app_assoc.
Qed.

(** C8 (amended).  Whenever the sampling of the big circle succeeds, the
    path solver has been run twice for every arc between consecutive
    dominant singularities, on the sample squares and on their complex
    conjugates, and the samples are the answers to these runs in order; no
    value is obtained by mirroring, whether the sequence is real or not. *)
Theorem big_circle_solves_both_halves (dominant_sing : list C)
    (rad halfside : R) (pairs : list (square * ball)) :
  snd (numerical_sol_big_circle numerical_solution dominant_sing rad halfside)
  = Ok pairs ->
  let sings := sort_by Carg dominant_sing in
  let solved :=
    fst (numerical_sol_big_circle numerical_solution dominant_sing rad
           halfside) in
  solved = flat_map (arc_paths sings rad halfside)
             (seq 0 (List.length dominant_sing))
  /\ List.length solved = (2 * List.length dominant_sing)%nat
  /\ exists answers,
       Forall2 (fun path ans => numerical_solution path = Ok ans)
         solved answers
       /\ pairs = List.concat answers.
Proof.
  intros H sings solved. unfold solved, numerical_sol_big_circle in *.
  fold sings in H |- *.
  destruct (big_circle_loop_solved sings rad halfside
              (seq 0 (List.length sings)) [] [] pairs H)
    as [Hs (answers & Hall & Hp)].
  assert (Hlen : List.length sings = List.length dominant_sing)
    by apply sort_by_length.
  rewrite Hlen in *. simpl in Hs. split; [exact Hs|]. split.
  - rewrite Hs.
    assert (Hl : forall n k,
              List.length (flat_map (arc_paths sings rad halfside) (seq k n))
              = (2 * n)%nat).
    { induction n as [|n IH]; intros k; [reflexivity|].
      cbn [seq flat_map arc_paths List.length app]. rewrite IH. lia. }
    apply Hl.
  - exists answers. rewrite Hs. split; [exact Hall | exact Hp].
Qed.

End ThresholdProperties.

(** ** Worked inputs

    The generating function 1/(1-z) of the constant sequence 1, with the
    operator (1-z)*Dz - 1: one singularity at 1 with local exponent -1, all
    other points ordinary.  The collaborators are replaced by stand-ins that
    return the local data of this function; the path solver returns no
    sample. *)

Module GeometricSeries.

Import ExactBalls.

Definition deq_sing : list C := [RtoC 1].

Definition crit (rho : C) : list fund_sol :=
  if Ceqb rho (RtoC 1)
  then [FundSol (RtoC (-1)) 0 0 [[RtoC (-1)]]]
  else [FundSol (RtoC 0) 0 0 [[RtoC 1]]].

Definition classes (rho : C) : list (C * list (nat * nat)) :=
  [(RtoC (-1), [(0%nat, 1%nat)])].

Definition series (_ _ : C) (_ : list (nat * nat)) (_ : Z)
    : result (list (list eball)) :=
  Ok [[e_of_real (-1)]].

Definition tail (_ _ : C) (_ : R) (_ : Z) (_ : list (list eball))
    : result eball :=
  Ok (e_of_real 0).

Definition integral (_ _ : C) (_ _ : Z) (_ : R) (_ : list (list eball))
    (_ : eball) (_ : nat) (_ : list square)
    : result (poly (BA := exact_balls) * list eball) :=
  Ok ([], []).

Definition solver (_ : list square) : result (list (square * eball)) :=
  Ok [].

Definition assemble (_ : list (C * contribution (BA := exact_balls)))
    (_ : list eball) (_ _ : R) (_ : Z) : result unit :=
  Ok tt.

(** Conversion to a double, exact on the integers of moderate size: the
    numbers converted for this operator are integers. *)
Definition to_double (x : R) : spec_float :=
  binary_normalize 53 1024 (Zfloor x) 0 false.

(** [contribution_all_singularity] for this operator. *)
Definition run :=
  contribution_all_singularity (BA := exact_balls) deq_sing deq_sing crit
    classes series tail integral solver unit assemble to_double.

Lemma Ceqb_RtoC_false (a b : R) : a <> b -> Ceqb (RtoC a) (RtoC b) = false.
Proof. intros H. unfold Ceqb; simpl. now rewrite Reqb_false. Qed.

Lemma Cmod_1 : Cmod (RtoC 1) = 1.
Proof. rewrite Cmod_RtoC. apply Rabs_R1. Qed.

Lemma Cmod_m1 : Cmod (RtoC (-1)) = 1.
Proof. rewrite Cmod_RtoC, Rabs_left; lra. Qed.

Lemma exceptional_points_eq : exceptional_points deq_sing = [RtoC 1; C0].
Proof.
  unfold exceptional_points, deq_sing. cbn [existsb].
  change C0 with (RtoC 0). now rewrite (Ceqb_RtoC_false 1 0) by lra.
Qed.

Lemma potential_default :
  potential_singularities deq_sing None [C0] = [RtoC 1].
Proof.
  unfold potential_singularities, deq_sing. cbn [filter existsb].
  change C0 with (RtoC 0). now rewrite (Ceqb_RtoC_false 1 0) by lra.
Qed.

Lemma dominant_radius_2 (all_exn_points : list C) :
  dominant_and_radius all_exn_points [RtoC 1] (Some 2) = Ok ([RtoC 1], 2).
Proof.
  unfold dominant_and_radius, sing_in_disk. simpl. rewrite Cmod_1.
  destruct (Rlt_dec 2 1); [lra|]. simpl. rewrite Cmod_1.
  destruct (Req_dec_T 1 2); [lra | reflexivity].
Qed.

Lemma class_at_1 :
  process_modZ_class (BA := exact_balls) series tail integral
    (RtoC 1) 2 (IZR 1 + (Re (RtoC (-1)) + IZR 0)) 50 []
    (RtoC (-1)) [(0%nat, 1%nat)]
  = Ok (ClassData (RtoC (-1)) 0 [] []).
Proof.
  unfold process_modZ_class, series, tail, integral. cbn [bind].
  replace (Zceil (IZR 1 + (Re (RtoC (-1)) + IZR 0) - Re (RtoC (-1))))
    with 1%Z by (symmetry; apply Zceil_eq; simpl; lra).
  rewrite Cmod_m1. simpl Z.abs.
  destruct (Req_dec_T (1 + 1) 0); [lra|].
  replace (Zfloor (50 / (1 + 1))) with 25%Z
    by (symmetry; apply Zfloor_eq; lra).
  simpl. change C0 with (RtoC 0).
  rewrite (Ceqb_RtoC_false (-1) 0) by lra. reflexivity.
Qed.

Lemma single_at_1 :
  contribution_single_singularity (BA := exact_balls) crit classes series
    tail integral (RtoC 1) 2 [] 1 50
  = Ok (Some (Contribution [RtoC (-1)] [[]] [] 0
                (Re (RtoC (-1)) + IZR 0))).
Proof.
  unfold contribution_single_singularity, crit.
  rewrite (proj2 (Ceqb_true _ _) eq_refl).
  assert (Hna : analytic_sol (FundSol (RtoC (-1)) 0 0 [[RtoC (-1)]]) = false).
  { unfold analytic_sol. cbn [fs_leftmost fs_shift fs_value].
    replace (Rleb 0 (Re (RtoC (-1)) + IZR 0)) with false
      by (symmetry; apply Rleb_false; simpl; lra).
    now rewrite andb_false_r. }
  cbn [filter]. rewrite Hna. cbn [negb fs_leftmost fs_shift].
  unfold classes. cbn [analyzer_run]. rewrite class_at_1. reflexivity.
Qed.

(** The ordinary point 1/2 handed in as a singularity. *)
Lemma crit_ordinary_analytic :
  forallb analytic_sol (crit (RtoC (1 / 2))) = true.
Proof.
  unfold crit. rewrite (Ceqb_RtoC_false (1 / 2) 1) by lra.
  cbn [forallb]. unfold analytic_sol. cbn [fs_leftmost fs_shift fs_value].
  rewrite (is_integer_IZR 0).
  replace (Rleb 0 (Re (RtoC 0) + IZR 0)) with true
    by (symmetry; apply Rleb_true; simpl; lra).
  reflexivity.
Qed.

Lemma potential_half :
  potential_singularities deq_sing (Some [RtoC (1 / 2)]) [C0]
  = [RtoC (1 / 2)].
Proof.
  unfold potential_singularities. cbn [filter existsb].
  change C0 with (RtoC 0). now rewrite (Ceqb_RtoC_false (1 / 2) 0) by lra.
Qed.

Lemma dominant_half :
  exists r,
    dominant_and_radius [RtoC 1; C0] [RtoC (1 / 2)] None
    = Ok ([RtoC (1 / 2)], r).
Proof.
  unfold dominant_and_radius, sing_in_disk. simpl.
  destruct (Rlt_dec (Cmod (RtoC (1 / 2))) (Cmod (RtoC (1 / 2)))); [lra|].
  unfold choose_big_radius, distances. simpl.
  change C0 with (RtoC 0).
  rewrite (Ceqb_RtoC_false 1 (1 / 2)) by lra.
  rewrite (Ceqb_RtoC_false 0 (1 / 2)) by lra.
  simpl. eexists. reflexivity.
Qed.

End GeometricSeries.


(** ** Worked inputs with samples on the big circle

    Functions whose dominant singularities all have the same local
    exponent [a < 0], such as [(1-z)^a] or [1/(1 - 2*x*z + z^2)].  The
    collaborators are replaced by stand-ins of the shape that the module
    expects from them: one class of exponents [a + Z] at every singularity,
    a local expansion of [order1] rows with a non-zero leading coefficient,
    one sample for every square of the big circle from the path solver and
    from the local integral. *)

Module PowerSingularity.

Import ExactBalls.

Section UniformRun.

Variable a : R.
Variable dbl : R -> spec_float.

Definition crit (_ : C) : list fund_sol :=
  [FundSol (RtoC a) 0 0 [[RtoC 1]]].

Definition classes (_ : C) : list (C * list (nat * nat)) :=
  [(RtoC a, [(0%nat, 1%nat)])].

Definition series (_ _ : C) (_ : list (nat * nat)) (order1 : Z)
    : result (list (list eball)) :=
  Ok ([e_of_real 1] :: repeat [e_of_real 0] (Z.to_nat order1 - 1)).

Definition tail (_ _ : C) (_ : R) (_ : Z) (_ : list (list eball))
    : result eball :=
  Ok (e_of_real 0).

Definition lead_bound (order : Z) : poly (BA := exact_balls) :=
  [(Mon 0 0 0 (Z.to_nat order) 0, e_of_real 1)].

Definition samples (coord : list square) : list eball :=
  map (fun _ => e_of_real 0) coord.

Definition integral (_ _ : C) (order _ : Z) (_ : R) (_ : list (list eball))
    (_ : eball) (_ : nat) (coord : list square)
    : result (poly (BA := exact_balls) * list eball) :=
  Ok (lead_bound order, samples coord).

Definition solver (path : list square) : result (list (square * eball)) :=
  Ok (map (fun q => (q, e_of_real 0)) path).

Definition assemble (_ : list (C * contribution (BA := exact_balls)))
    (_ : list eball) (_ _ : R) (_ : Z) : result unit :=
  Ok tt.

(** [contribution_all_singularity] for an operator with the singularities
    [sings], none of them apparent. *)
Definition run (sings : list C) :=
  contribution_all_singularity (BA := exact_balls) sings sings crit
    classes series tail integral solver unit assemble dbl.

(** The data of the only class of exponents. *)
Definition class_result (t : Z) (coord : list square)
    : class_data (BA := exact_balls) :=
  ClassData (RtoC a) 0 (lead_bound t) (samples coord).

Definition single_result (t : Z) (coord : list square)
    : contribution (BA := exact_balls) :=
  Contribution [RtoC a] [lead_bound t] (samples coord) 0
    (Re (RtoC a) + IZR 0).

Lemma class_returns (rho : C) (rad min_n : R) (t : Z)
    (coord : list square) :
  (0 <= t)%Z -> 0 < Rabs a + IZR t -> 3 * (Rabs a + IZR t) <= min_n ->
  process_modZ_class (BA := exact_balls) series tail integral rho rad
    (IZR t + (Re (RtoC a) + IZR 0)) min_n coord (RtoC a) [(0%nat, 1%nat)]
  = Ok (class_result t coord).
Proof.
  intros Ht Hpos Hmin. unfold process_modZ_class, series, tail. cbn [bind].
  replace (Zceil (IZR t + (Re (RtoC a) + IZR 0) - Re (RtoC a))) with t
    by (symmetry; apply Zceil_eq; simpl; lra).
  rewrite Cmod_RtoC, Z.abs_eq by exact Ht.
  destruct (Req_dec_T (Rabs a + IZR t) 0) as [E|_]; [lra|].
  assert (Hs : (3 <= Zfloor (min_n / (Rabs a + IZR t)))%Z).
  { apply Zfloor_lub. apply Rmult_le_reg_r with (Rabs a + IZR t);
      [exact Hpos|].
    replace (min_n / (Rabs a + IZR t) * (Rabs a + IZR t)) with min_n
      by (field; lra).
    exact Hmin. }
  destruct (Zfloor (min_n / (Rabs a + IZR t)) <=? 2)%Z eqn:E2;
    [apply Z.leb_le in E2; lia|].
  cbn [first_of bind fst].
  replace (0 <? t + 49)%Z with true by (symmetry; apply Z.ltb_lt; lia).
  cbn [Nat.eqb andb negb log_powers Z.of_nat].
  replace (0 <? t + 49)%Z with true by (symmetry; apply Z.ltb_lt; lia).
  cbn [nth_error bind nonzero_indices b_is_zero exact_balls].
  assert (Hz : e_is_zero (e_of_real 1) = false).
  { unfold e_is_zero, e_of_real. change C0 with (RtoC 0).
    now rewrite (GeometricSeries.Ceqb_RtoC_false 1 0) by lra. }
  rewrite Hz. cbn [app max_of_nat fold_left bind].
  unfold late_mults. cbn [fold_left fst snd Z.of_nat].
  replace (t + 49 <=? 0)%Z with false by (symmetry; apply Z.leb_gt; lia).
  unfold integral. cbn [bind fst snd]. reflexivity.
Qed.

Lemma sum_samples_single (d : class_data (BA := exact_balls))
    (l pre : list eball) :
  cd_big_circle d = pre ++ l ->
  sum_samples_all [d] (seq (List.length pre) (List.length l)) = Ok l.
Proof.
  revert pre. induction l as [|y l IH]; intros pre E; [reflexivity|].
  cbn [List.length seq sum_samples_all sum_samples]. rewrite E.
  rewrite nth_error_app2, Nat.sub_diag by lia. cbn [nth_error bind].
  specialize (IH (pre ++ [y])). rewrite length_app in IH.
  cbn [List.length] in IH. rewrite Nat.add_1_r in IH.
  rewrite IH; [reflexivity|].
  rewrite E, <- app_assoc. reflexivity.
Qed.

Lemma single_returns (rho : C) (rad min_n : R) (t : Z)
    (coord : list square) :
  a < 0 -> (0 <= t)%Z -> 3 * (Rabs a + IZR t) <= min_n ->
  contribution_single_singularity (BA := exact_balls) crit classes series
    tail integral rho rad coord t min_n
  = Ok (Some (single_result t coord)).
Proof.
  intros Ha Ht Hmin.
  assert (Hpos : 0 < Rabs a + IZR t).
  { pose proof (Rabs_pos_lt a ltac:(lra)). apply IZR_le in Ht. lra. }
  unfold contribution_single_singularity, crit.
  assert (Hna : analytic_sol (FundSol (RtoC a) 0 0 [[RtoC 1]]) = false).
  { unfold analytic_sol. cbn [fs_leftmost fs_shift fs_value].
    replace (Rleb 0 (Re (RtoC a) + IZR 0)) with false
      by (symmetry; apply Rleb_false; simpl; lra).
    now rewrite andb_false_r. }
  cbn [filter]. rewrite Hna. cbn [negb fs_leftmost fs_shift].
  unfold classes. cbn [analyzer_run].
  rewrite class_returns by assumption. cbn [bind].
  pose proof (sum_samples_single (class_result t coord) (samples coord) []
                eq_refl) as Hs.
  cbn [List.length app] in Hs. unfold samples in Hs at 1.
  rewrite length_map in Hs. rewrite Hs. reflexivity.
Qed.

Lemma loop_returns (doms : list C) (rad min_n : R) (t : Z)
    (coord : list square) :
  a < 0 -> (0 <= t)%Z -> 3 * (Rabs a + IZR t) <= min_n ->
  singularity_loop (BA := exact_balls) crit classes series tail integral
    doms rad coord t min_n
  = Ok (map (fun rho => (rho, single_result t coord)) doms).
Proof.
  intros Ha Ht Hmin. induction doms as [|rho doms IH]; [reflexivity|].
  cbn [singularity_loop]. rewrite single_returns by assumption.
  cbn [bind]. rewrite IH. reflexivity.
Qed.

Lemma big_circle_returns (sings : list C) (rad halfside : R)
    (js : list nat) :
  forall pairs solved,
    exists pairs',
      snd (big_circle_loop (BA := exact_balls) solver sings rad halfside js
             pairs solved) = Ok pairs'.
Proof.
  induction js as [|j js IH]; intros pairs solved; cbn [big_circle_loop].
  - now exists pairs.
  - unfold solver at 1 2. apply IH.
Qed.

Lemma exceptional_points_nonempty (sings : list C) :
  exceptional_points sings <> [].
Proof.
  unfold exceptional_points.
  destruct (existsb (fun s => Ceqb s C0) sings) eqn:E.
  - destruct sings; [discriminate E | discriminate].
  - destruct sings; discriminate.
Qed.

Lemma fold_Rmax_const (x : R) (A : Type) (l : list A) :
  fold_left Rmax (map (fun _ => x) l) x = x.
Proof.
  induction l as [|y l IH]; [reflexivity|].
  cbn [map fold_left]. rewrite Rmax_left by lra. exact IH.
Qed.

(** The run returns, and its threshold is the maximum of the ceiling of
    the double product and of the spacing threshold. *)
Lemma run_returns (sings doms : list C) (r min_n : R) (t N1 c : Z) :
  a < 0 -> (0 <= t)%Z -> 3 * (Rabs a + IZR t) <= min_n ->
  dominant_and_radius (exceptional_points sings)
    (potential_singularities sings None [C0]) None = Ok (doms, r) ->
  doms <> [] ->
  spacing_threshold doms = Ok N1 ->
  float_ceil (float_mul float_2_1 (dbl (Rabs a + IZR t + 1))) = Ok c ->
  run sings None [C0] None t min_n None = Ok (Z.max c N1, tt).
Proof.
  intros Ha Ht Hmin Hdr Hne HN Hc. unfold run, contribution_all_singularity.
  rewrite Hdr. cbn [bind fst snd]. rewrite HN. cbn [bind].
  pose proof (exceptional_points_nonempty sings) as Hex.
  destruct (exceptional_points sings) as [|ex exs]; [contradiction|].
  cbn [map min_of bind].
  unfold numerical_sol_big_circle.
  match goal with
  | |- context [big_circle_loop ?s ?sg ?rd ?hs ?js ?p ?sv] =>
      destruct (big_circle_returns sg rd hs js p sv) as [pairs Hp]
  end.
  rewrite Hp. cbn [bind]. rewrite loop_returns by assumption. cbn [bind].
  destruct doms as [|rho doms]; [contradiction|].
  cbn [map max_of_nat min_of bind snd assemble flat_map list_val_rho
       single_result app max_of].
  unfold assemble. cbn [bind].
  replace (flat_map (fun d : C * contribution => list_val_rho (snd d))
             (map (fun rho0 => (rho0, single_result t (map fst pairs)))
                doms))
    with (map (fun _ : C => RtoC a) doms).
  2:{ clear. induction doms as [|x l IH]; [reflexivity|].
      cbn [map flat_map snd list_val_rho single_result app].
      now rewrite <- IH. }
  rewrite map_map, Cmod_RtoC.
  rewrite fold_Rmax_const, Hc. reflexivity.
Qed.

End UniformRun.

Lemma Cmod_eq (x y c : R) : 0 <= c -> x * x + y * y = c * c ->
  Cmod (mkC x y) = c.
Proof.
  intros Hc H. unfold Cmod. cbn [Re Im]. rewrite H.
  apply sqrt_lem_1; [nra | exact Hc | reflexivity].
Qed.

Lemma Ceqb_false_re (z z' : C) : Re z <> Re z' -> Ceqb z z' = false.
Proof. intros H. unfold Ceqb. now rewrite Reqb_false. Qed.

Lemma Ceqb_false_im (z z' : C) : Im z <> Im z' -> Ceqb z z' = false.
Proof.
  intros H. unfold Ceqb. rewrite (Reqb_false (Im z)) by exact H.
  apply andb_false_r.
Qed.

Lemma Ceqb_refl (z : C) : Ceqb z z = true.
Proof. now apply Ceqb_true. Qed.

(** *** The function (1-z)^(-2/7), total order 3

    Operator [7*(1-z)*Dz - 2]: one singularity at 1 with exponent -2/7.
    The only number converted to a double is 2/7 + 3 + 1 = 30/7. *)

(** Conversion of an algebraic real [4 <= x < 8] that is not a double:
    Sage encloses [x] between two adjacent doubles, here multiples of
    [2^-50], and rounds the centre of this interval, a tie, to the double
    of even mantissa. *)
Definition centre_double (x : R) : spec_float :=
  let m := Zfloor (x * 2 ^ 50) in
  S754_finite false (Z.to_pos (if Z.even m then m else m + 1)) (-50).

Lemma potential_one :
  potential_singularities [RtoC 1] None [C0] = [RtoC 1].
Proof. exact GeometricSeries.potential_default. Qed.

Lemma dominant_one :
  exists r,
    dominant_and_radius (exceptional_points [RtoC 1]) [RtoC 1] None
    = Ok ([RtoC 1], r).
Proof.
  change [RtoC 1] with GeometricSeries.deq_sing at 1.
  rewrite GeometricSeries.exceptional_points_eq.
  unfold dominant_and_radius, sing_in_disk. simpl.
  destruct (Rlt_dec (Cmod (RtoC 1)) (Cmod (RtoC 1))); [lra|].
  unfold choose_big_radius, distances. simpl.
  rewrite Ceqb_refl. change C0 with (RtoC 0).
  rewrite (GeometricSeries.Ceqb_RtoC_false 0 1) by lra.
  simpl. eexists. reflexivity.
Qed.

Lemma centre_double_30_7 :
  centre_double (Rabs (-2 / 7) + IZR 3 + 1)
  = S754_finite false 4825285315039818 (-50).
Proof.
  unfold centre_double.
  replace (Zfloor ((Rabs (-2 / 7) + IZR 3 + 1) * 2 ^ 50))
    with 4825285315039817%Z; [reflexivity|].
  symmetry. apply Zfloor_eq. rewrite Rabs_left by lra.
  replace (2 ^ 50) with (IZR 1125899906842624)
    by (rewrite (pow_IZR 2 50); reflexivity).
  split; lra.
Qed.

Lemma run_two_sevenths :
  run (-2 / 7) centre_double [RtoC 1] None [C0] None 3 50 None
  = Ok (10%Z, tt).
Proof.
  destruct dominant_one as [r Hr].
  apply (run_returns (-2 / 7) centre_double [RtoC 1] [RtoC 1] r 50 3 0 10).
  - lra.
  - lia.
  - rewrite Rabs_left by lra. simpl. lra.
  - rewrite potential_one. exact Hr.
  - discriminate.
  - reflexivity.
  - rewrite centre_double_30_7. reflexivity.
Qed.

(** *** The function 1/(1 - 2*x*z + z^2) at x = 144/145, total order 1

    The generating function of the Chebyshev polynomials of the second
    kind at [x]: two simple poles, at the conjugate points
    [(144 +/- 17*i)/145] of modulus 1, at distance 34/145 from each other.
    The only number converted to a double is the integer 1 + 1 + 1. *)

Definition pole_up : C := mkC (144 / 145) (17 / 145).
Definition pole_down : C := mkC (144 / 145) (- (17 / 145)).
Definition poles : list C := [pole_up; pole_down].

Lemma Cmod_pole_up : Cmod pole_up = 1.
Proof. apply Cmod_eq; lra. Qed.

Lemma Cmod_pole_down : Cmod pole_down = 1.
Proof. apply Cmod_eq; lra. Qed.

Lemma exceptional_poles : exceptional_points poles = [pole_up; pole_down; C0].
Proof.
  unfold exceptional_points, poles. cbn [existsb].
  rewrite !Ceqb_false_re by (simpl; lra). reflexivity.
Qed.

Lemma potential_poles : potential_singularities poles None [C0] = poles.
Proof.
  unfold potential_singularities, poles. cbn [filter existsb].
  rewrite !Ceqb_false_re by (simpl; lra). cbn [orb negb].
  unfold sort_by. cbn [fold_left insert_by].
  rewrite Cmod_pole_up, Cmod_pole_down.
  destruct (Rlt_dec 1 1); [lra | reflexivity].
Qed.

Lemma dominant_poles :
  exists r,
    dominant_and_radius (exceptional_points poles) poles None
    = Ok (poles, r).
Proof.
  rewrite exceptional_poles.
  unfold dominant_and_radius, sing_in_disk, poles.
  cbn [first_of last_of bind sing_in_disk_aux].
  rewrite Cmod_pole_up, Cmod_pole_down.
  destruct (Rlt_dec 1 1); [lra|].
  unfold choose_big_radius, distances. cbn [flat_map filter app map].
  rewrite !Ceqb_refl.
  rewrite (Ceqb_false_im pole_down pole_up) by (simpl; lra).
  rewrite (Ceqb_false_im pole_up pole_down) by (simpl; lra).
  rewrite !(Ceqb_false_re C0) by (simpl; lra).
  cbn [negb map app min_of last_of bind]. eexists. reflexivity.
Qed.

Lemma spacing_poles : spacing_threshold poles = Ok 9%Z.
Proof.
  unfold spacing_threshold, poles.
  cbn [List.length Nat.ltb Nat.leb flat_map filter app map].
  rewrite !Ceqb_refl.
  rewrite (Ceqb_false_im pole_down pole_up) by (simpl; lra).
  rewrite (Ceqb_false_im pole_up pole_down) by (simpl; lra).
  cbn [negb map app min_of fold_left last_of bind].
  assert (H1 : Cmod (Csub pole_up pole_down) = 34 / 145)
    by (apply Cmod_eq; simpl; lra).
  assert (H2 : Cmod (Csub pole_down pole_up) = 34 / 145)
    by (apply Cmod_eq; simpl; lra).
  rewrite H1, H2, Cmod_pole_down, Rmin_left by lra.
  f_equal. apply Zceil_eq. simpl. lra.
Qed.

Lemma run_poles :
  run (-1) GeometricSeries.to_double poles None [C0] None 1 50 None
  = Ok (9%Z, tt).
Proof.
  destruct dominant_poles as [r Hr].
  apply (run_returns (-1) GeometricSeries.to_double poles poles r 50 1 9 7).
  - lra.
  - lia.
  - rewrite Rabs_left by lra. simpl. lra.
  - rewrite potential_poles. exact Hr.
  - discriminate.
  - exact spacing_poles.
  - unfold GeometricSeries.to_double.
    replace (Zfloor (Rabs (-1) + IZR 1 + 1)) with 3%Z; [reflexivity|].
    symmetry. apply Zfloor_eq. rewrite Rabs_left by lra. simpl. lra.
Qed.

End PowerSingularity.

Lemma validity_threshold_formula_witness :
  spacing_threshold PowerSingularity.poles = Ok 9%Z
  /\ float_ceil
       (float_mul float_2_1
          (GeometricSeries.to_double (Cmod (RtoC (-1)) + IZR 1 + 1)))
     = Ok 7%Z
  /\ exists doms r coord list_data M N1 c,
       dominant_and_radius (exceptional_points PowerSingularity.poles)
         (potential_singularities PowerSingularity.poles None [C0]) None
       = Ok (doms, r)
       /\ singularity_loop (BA := ExactBalls.exact_balls)
            (PowerSingularity.crit (-1)) (PowerSingularity.classes (-1))
            PowerSingularity.series PowerSingularity.tail
            PowerSingularity.integral doms r coord 1 50
          = Ok list_data
       /\ flat_map (fun d => list_val_rho (snd d)) list_data
          = flat_map
              (fun rho => map fst (PowerSingularity.classes (-1) rho)) doms
       /\ is_max_of
            (map Cmod
               (flat_map
                  (fun rho => map fst (PowerSingularity.classes (-1) rho))
                  doms)) M
       /\ spacing_spec doms N1
       /\ float_ceil
            (float_mul float_2_1
               (GeometricSeries.to_double (M + IZR 1 + 1))) = Ok c
       /\ c = Zceil (float_val
                       (float_mul float_2_1
                          (GeometricSeries.to_double (M + IZR 1 + 1))))
       /\ 9%Z = Z.max c N1.
Proof.
  split; [exact PowerSingularity.spacing_poles|]. split.
  - rewrite GeometricSeries.Cmod_m1. unfold GeometricSeries.to_double.
    replace (Zfloor (1 + IZR 1 + 1)) with 3%Z; [reflexivity|].
    symmetry. apply Zfloor_eq. simpl. lra.
  - exact (validity_threshold_formula (BA := ExactBalls.exact_balls)
             PowerSingularity.poles PowerSingularity.poles
             (PowerSingularity.crit (-1)) (PowerSingularity.classes (-1))
             PowerSingularity.series PowerSingularity.tail
             PowerSingularity.integral PowerSingularity.solver unit
             PowerSingularity.assemble GeometricSeries.to_double
             None [C0] None 1 50 None 9%Z tt PowerSingularity.run_poles).
Defined.

(** C6, the original claim refuted: for (1-z)^(-2/7) and total order 3 the
    largest modulus of an exponent is 2/7 and there is one dominant
    singularity, so the claimed threshold is
    [max(ceil(21/10 * (2/7 + 3 + 1)), 0) = 9]; the product of the double
    [2.1] by the double that 30/7 is converted to is
    [5066549580791809 * 2^-49 > 9] and the run returns 10. *)
Lemma validity_threshold_formula_counterexample :
  exists doms r,
    dominant_and_radius (exceptional_points [RtoC 1])
      (potential_singularities [RtoC 1] None [C0]) None = Ok (doms, r)
    /\ is_max_of
         (map Cmod
            (flat_map
               (fun rho => map fst (PowerSingularity.classes (-2 / 7) rho))
               doms)) (2 / 7)
    /\ spacing_spec doms 0
    /\ Z.max (Zceil (21 / 10 * (2 / 7 + IZR 3 + 1))) 0 = 9%Z
    /\ float_mul float_2_1
         (PowerSingularity.centre_double (2 / 7 + IZR 3 + 1))
       = S754_finite false 5066549580791809 (-49)
    /\ PowerSingularity.run (-2 / 7) PowerSingularity.centre_double
         [RtoC 1] None [C0] None 3 50 None
       = Ok (10%Z, tt).
Proof.
  destruct PowerSingularity.dominant_one as [r Hr].
  exists [RtoC 1], r. split.
  { rewrite PowerSingularity.potential_one. exact Hr. }
  split.
  { cbn [flat_map map PowerSingularity.classes fst app].
    rewrite Cmod_RtoC, Rabs_left by lra.
    replace (- (-2 / 7)) with (2 / 7) by lra.
    split; [now left | intros y [<-|[]]; lra]. }
  split; [left; split; [simpl; lia | reflexivity]|].
  split.
  { replace (Zceil (21 / 10 * (2 / 7 + IZR 3 + 1))) with 9%Z;
      [reflexivity|].
    symmetry. apply Zceil_eq. simpl. lra. }
  split; [|exact PowerSingularity.run_two_sevenths].
  pose proof PowerSingularity.centre_double_30_7 as H.
  rewrite Rabs_left in H by lra.
  replace (- (-2 / 7)) with (2 / 7) in H by lra.
  rewrite H. reflexivity.
Qed.

(** C7.  With a radius given and an operator without potential singularity
    (for instance Dz - 1), the computation fails before the test for an
    empty disk, with an [IndexError] instead of the [ValueError]
    "No singularity in given disk". *)
Theorem radius_without_singularity_index_error {BA : BallArith}
    (critical_monomials : C -> list fund_sol)
    (exponent_classes : C -> list (C * list (nat * nat)))
    (my_log_series :
       C -> C -> list (nat * nat) -> Z -> result (list (list ball)))
    (bound_tail : C -> C -> R -> Z -> list (list ball) -> result ball)
    (bound_local_integral :
       C -> C -> Z -> Z -> R -> list (list ball) -> ball -> nat ->
       list square -> result (poly * list ball))
    (numerical_solution : list square -> result (list (square * ball)))
    (bound_t : Type)
    (assemble_bound :
       list (C * contribution) -> list ball -> R -> R -> Z -> result bound_t)
    (to_double : R -> spec_float)
    (known_analytic : list C) (rad : R) (total_order : Z) (min_n : R)
    (halfside : option R) :
  contribution_all_singularity [] [] critical_monomials exponent_classes
    my_log_series bound_tail bound_local_integral numerical_solution
    bound_t assemble_bound to_double None known_analytic (Some rad)
    total_order min_n halfside
  = Raise IndexError.
Proof. reflexivity. Qed.

(** C9.  For the operator (1-z)*Dz - 1 and the ordinary point 1/2 given as
    its dominant singularity, every local solution at 1/2 is analytic;
    [contribution_single_singularity] returns nothing for it and the
    complete computation ends in a [TypeError] instead of a bound. *)
Theorem apparent_singularity_type_error :
  contribution_single_singularity (BA := ExactBalls.exact_balls)
    GeometricSeries.crit GeometricSeries.classes GeometricSeries.series
    GeometricSeries.tail GeometricSeries.integral (RtoC (1 / 2)) 1 [] 1 50
  = Ok None
  /\ GeometricSeries.run (Some [RtoC (1 / 2)]) [C0] None 1 50 None
     = Raise TypeError.
Proof.
  split.
  - apply single_analytic. apply GeometricSeries.crit_ordinary_analytic.
  - unfold GeometricSeries.run, contribution_all_singularity.
    rewrite GeometricSeries.potential_half,
      GeometricSeries.exceptional_points_eq.
    destruct GeometricSeries.dominant_half as [r Hr]. rewrite Hr.
    cbn [bind fst snd].
    change (spacing_threshold [RtoC (1 / 2)]) with (@Ok Z 0%Z).
    cbn [bind map min_of].
    unfold numerical_sol_big_circle, sort_by.
    cbn [fold_left insert_by List.length seq big_circle_loop].
    unfold GeometricSeries.solver. cbn [snd bind app map].
    now rewrite loop_analytic_head
      by apply GeometricSeries.crit_ordinary_analytic.
Qed.

Lemma big_circle_solves_both_halves_witness :
  let sings := sort_by Carg [RtoC 1] in
  let solved :=
    fst (numerical_sol_big_circle (BA := ExactBalls.exact_balls)
           GeometricSeries.solver [RtoC 1] 2 1) in
  solved = flat_map (arc_paths sings 2 1) (seq 0 1)
  /\ List.length solved = 2%nat
  /\ exists answers,
       Forall2 (fun path ans => GeometricSeries.solver path = Ok ans)
         solved answers
       /\ [] = List.concat answers.
Proof.
  apply (big_circle_solves_both_halves (BA := ExactBalls.exact_balls)
           GeometricSeries.solver [RtoC 1] 2 1 []).
  reflexivity.
Defined.

(** By the words of the specification only the upper samples would be
    handed to the path solver, one path for each arc. *)
Definition upper_half_only (sings : list C) (rad halfside : R)
    (solved : list (list square)) : Prop :=
  solved = map (circle_upper sings rad halfside) (seq 0 (List.length sings)).

(** C8 as stated fails: with one dominant singularity the solver is run on
    two paths, the second one being the conjugate of the first. *)
Lemma big_circle_solves_both_halves_counterexample :
  let sings := sort_by Carg [RtoC 1] in
  let solved :=
    fst (numerical_sol_big_circle (BA := ExactBalls.exact_balls)
           GeometricSeries.solver [RtoC 1] 2 1) in
  solved = [circle_upper sings 2 1 0; map sq_conj (circle_upper sings 2 1 0)]
  /\ ~ upper_half_only sings 2 1 solved.
Proof.
  intros sings solved.
  assert (H : solved =
              [circle_upper sings 2 1 0; map sq_conj (circle_upper sings 2 1 0)])
    by reflexivity.
  split; [exact H|]. unfold upper_half_only. rewrite H.
  intros E. apply (f_equal (@List.length _)) in E. discriminate E.
Qed.


(** * Further properties of the module *)

(** ** Shape of a truncated polynomial *)

Lemma degree_mon_of_exps (t : gen -> nat) (j : gen) :
  degree (mon_of_exps t) j = t j.
Proof. now destruct j. Qed.

Lemma gen_eqb_true (x y : gen) : gen_eqb x y = true <-> x = y.
Proof. destruct x, y; simpl; split; congruence. Qed.

Lemma gen_eqb_refl (x : gen) : gen_eqb x x = true.
Proof. now destruct x. Qed.

Lemma gen_eqb_false (x y : gen) : x <> y -> gen_eqb x y = false.
Proof.
  intros H. destruct (gen_eqb x y) eqn:E; [|reflexivity].
  apply gen_eqb_true in E. contradiction.
Qed.

Section TruncationShape.

Context {BA : BallArith}.

Lemma poly_add_term_In (g : poly) (m m' : mon) (c c' : ball) :
  In (m', c') (poly_add_term g m c) ->
  m' = m \/ In m' (map fst g).
Proof.
  induction g as [|[m0 c0] g IH]; simpl.
  - intros [[= <- <-]|[]]. now left.
  - destruct (mon_eqb m0 m) eqn:E.
    + intros [[= <- <-]|H].
      * right. now left.
      * right. right. now apply (in_map fst _ (m', c')).
    + intros [[= <- <-]|H].
      * right. now left.
      * destruct (IH H) as [->|H']; [now left | right; now right].
Qed.

Lemma poly_add_term_fst_In (g : poly) (m m' : mon) (c : ball) :
  In m' (map fst (poly_add_term g m c)) -> m' = m \/ In m' (map fst g).
Proof.
  intros H. apply in_map_iff in H as ([m1 c1] & <- & H).
  now apply (poly_add_term_In g m m1 c c1).
Qed.

Lemma poly_add_term_NoDup (g : poly) (m : mon) (c : ball) :
  NoDup (map fst g) -> NoDup (map fst (poly_add_term g m c)).
Proof.
  induction g as [|[m0 c0] g IH]; simpl; intros H.
  - repeat constructor. intros [].
  - inversion H as [|? ? Hnot Hnd]; subst.
    destruct (mon_eqb m0 m) eqn:E; simpl.
    + now constructor.
    + constructor; [|now apply IH].
      intros Hin. apply poly_add_term_fst_In in Hin as [->|Hin]; [|easy].
      now rewrite mon_eqb_refl in E.
Qed.

(** A monomial that does not occur yet is appended. *)
Lemma poly_add_term_fresh (g : poly) (m : mon) (c : ball) :
  ~ In m (map fst g) -> poly_add_term g m c = g ++ [(m, c)].
Proof.
  induction g as [|[m0 c0] g IH]; simpl; intros H; [reflexivity|].
  rewrite mon_eqb_false by (intros ->; apply H; now left).
  rewrite IH; [reflexivity|]. intros Hin. apply H. now right.
Qed.

Lemma truncate_term_In (deg : nat) (min_n : R) (w : gen) (g : poly)
    (t : mon * ball) (m' : mon) :
  In m' (map fst (truncate_term deg min_n w g t)) ->
  m' = landing deg w (fst t) \/ In m' (map fst g).
Proof.
  destruct t as [m c]. unfold truncate_term, landing. simpl.
  destruct (deg <? degree m w)%nat; apply poly_add_term_fst_In.
Qed.

Lemma landing_degree (deg : nat) (w : gen) (m : mon) :
  (degree (landing deg w m) w <= deg)%nat.
Proof.
  unfold landing. destruct (deg <? degree m w)%nat eqn:E.
  - apply Nat.ltb_lt in E. rewrite degree_mon_of_exps.
    unfold power_exps. rewrite gen_eqb_refl. lia.
  - now apply Nat.ltb_ge in E.
Qed.

Lemma truncate_fold_NoDup (deg : nat) (min_n : R) (w : gen) (f : poly) :
  forall g, NoDup (map fst g) ->
    NoDup (map fst (fold_left (truncate_term deg min_n w) f g)).
Proof.
  induction f as [|[m c] f IH]; intros g H; simpl; [exact H|].
  apply IH. unfold truncate_term.
  destruct (deg <? degree m w)%nat; now apply poly_add_term_NoDup.
Qed.

Lemma truncate_fold_degree (deg : nat) (min_n : R) (w : gen) (f : poly) :
  forall g,
    (forall m, In m (map fst g) -> (degree m w <= deg)%nat) ->
    forall m, In m (map fst (fold_left (truncate_term deg min_n w) f g)) ->
              (degree m w <= deg)%nat.
Proof.
  induction f as [|t f IH]; intros g H m Hin; simpl in Hin; [now apply H|].
  apply (IH _ (fun m' Hm' =>
    match truncate_term_In deg min_n w g t m' Hm' with
    | or_introl E => eq_ind_r (fun x => (degree x w <= deg)%nat)
                       (landing_degree deg w (fst t)) E
    | or_intror Hg => H m' Hg
    end) m Hin).
Qed.

(** Folding [g + c*mon] over terms with pairwise distinct fresh monomials
    rebuilds the list, each coefficient multiplied by the coefficient 1 of
    its monomial. *)
Lemma fold_add_fresh (deg : nat) (min_n : R) (w : gen) (f : poly) :
  forall g,
    NoDup (map fst (g ++ f)) ->
    (forall m, In m (map fst f) -> (degree m w <= deg)%nat) ->
    fold_left (truncate_term deg min_n w) f g
    = g ++ map (fun t => (fst t, term_coeff (snd t))) f.
Proof.
  induction f as [|[m c] f IH]; intros g Hnd Hdeg; cbn [fold_left map].
  - now rewrite app_nil_r.
  - assert (Hm : (degree m w <= deg)%nat) by (apply Hdeg; now left).
    replace (truncate_term deg min_n w g (m, c))
      with (poly_add_term g m (term_coeff c))
      by (unfold truncate_term;
          replace (deg <? degree m w)%nat with false
            by (symmetry; now apply Nat.ltb_ge);
          reflexivity).
    rewrite map_app in Hnd. simpl in Hnd.
    rewrite poly_add_term_fresh.
    + rewrite IH.
      * cbn [fst snd]. now rewrite <- app_assoc.
      * rewrite <- app_assoc. simpl. now rewrite map_app.
      * intros m' Hm'. apply Hdeg. now right.
    + intros Hin. apply (NoDup_remove_2 _ _ _ Hnd).
      apply in_or_app. now left.
Qed.

End TruncationShape.

Section TruncationLogShape.

Context {BA : BallArith}.

Definition log_shape (deg : nat) (w lg : gen) (k : nat) (m : mon) : Prop :=
  (degree m w <= deg)%nat /\ (degree m w = deg -> degree m lg = k).

Lemma truncate_term_log_shape (deg : nat) (min_n : R) (w lg : gen)
    (k : nat) (g g' : poly) (t : mon * ball) :
  lg <> w ->
  truncate_term_log deg min_n w k (Some lg) g t = Ok g' ->
  (forall m, In m (map fst g) -> log_shape deg w lg k m) ->
  forall m, In m (map fst g') -> log_shape deg w lg k m.
Proof.
  intros Hne Hstep Hg m Hin. destruct t as [m0 c0].
  unfold truncate_term_log in Hstep.
  destruct (deg <=? degree m0 w)%nat eqn:E.
  - destruct (k <? degree m0 lg)%nat eqn:E2; [discriminate|].
    injection Hstep as <-. apply Nat.leb_le in E. apply Nat.ltb_ge in E2.
    apply poly_add_term_fst_In in Hin as [->|Hin]; [|now apply Hg].
    unfold log_shape. rewrite !degree_mon_of_exps. unfold power_exps.
    rewrite gen_eqb_refl, (gen_eqb_false w lg) by congruence.
    rewrite gen_eqb_refl, (gen_eqb_false lg w) by congruence.
    split; [lia | intros _; lia].
  - injection Hstep as <-. apply Nat.leb_gt in E.
    apply poly_add_term_fst_In in Hin as [->|Hin]; [|now apply Hg].
    unfold log_shape. split; lia.
Qed.

Lemma truncate_loop_log_shape (deg : nat) (min_n : R) (w lg : gen)
    (k : nat) (f : poly) :
  lg <> w ->
  forall g g',
    truncate_loop_log deg min_n w k (Some lg) f g = Ok g' ->
    (forall m, In m (map fst g) -> log_shape deg w lg k m) ->
    forall m, In m (map fst g') -> log_shape deg w lg k m.
Proof.
  intros Hne. induction f as [|t f IH]; intros g g' Hrun Hg.
  - injection Hrun as <-. exact Hg.
  - cbn [truncate_loop_log] in Hrun.
    destruct (truncate_term_log deg min_n w k (Some lg) g t) as [g1|e] eqn:E;
      cbn [bind] in Hrun; [|discriminate].
    apply (IH g1 g' Hrun).
    now apply (truncate_term_log_shape deg min_n w lg k g g1 t).
Qed.

(** Without [logn] the loop with [kappa] only copies terms below the target
    degree (it raises on the first other term). *)
Lemma truncate_loop_log_none_degree (deg : nat) (min_n : R) (w : gen)
    (k : nat) (f : poly) :
  forall g g',
    truncate_loop_log deg min_n w k None f g = Ok g' ->
    (forall m, In m (map fst g) -> (degree m w <= deg)%nat) ->
    forall m, In m (map fst g') -> (degree m w <= deg)%nat.
Proof.
  induction f as [|[m0 c0] f IH]; intros g g' Hrun Hg.
  - injection Hrun as <-. exact Hg.
  - cbn [truncate_loop_log truncate_term_log] in Hrun.
    destruct (deg <=? degree m0 w)%nat eqn:E; cbn [bind] in Hrun;
      [discriminate|].
    apply Nat.leb_gt in E. apply (IH _ g' Hrun).
    intros m Hin. apply poly_add_term_fst_In in Hin as [->|Hin];
      [lia | now apply Hg].
Qed.

End TruncationLogShape.

(** X1.  Every monomial of the polynomial returned by [truncate_tail] has
    degree at most the target degree in [w], with or without [kappa]
    (with [kappa], [logn] being another generator than [w]). *)
Theorem truncate_tail_degree_bound {BA : BallArith} (f : poly) (deg : nat)
    (min_n : R) (w : gen) (kappa : option nat) (logn : option gen)
    (g : poly) (m : mon) (c : ball) :
  truncate_tail f deg min_n w kappa logn = Ok g ->
  (forall k lg, kappa = Some k -> logn = Some lg -> lg <> w) ->
  In (m, c) g ->
  (degree m w <= deg)%nat.
Proof.
  intros Hrun Hlg Hin. apply (in_map fst) in Hin. simpl in Hin.
  unfold truncate_tail in Hrun. destruct kappa as [k|].
  - destruct logn as [lg|].
    + apply (truncate_loop_log_shape deg min_n w lg k f
               (Hlg k lg eq_refl eq_refl) [] g Hrun); [intros ? []|exact Hin].
    + apply (truncate_loop_log_none_degree deg min_n w k f [] g Hrun);
        [intros ? []|exact Hin].
  - injection Hrun as <-.
    apply (truncate_fold_degree deg min_n w f []); [intros ? []|exact Hin].
Qed.

Lemma truncate_tail_degree_bound_witness :
  exists g : poly (BA := ExactBalls.exact_balls),
    truncate_tail (BA := ExactBalls.exact_balls)
      [(Mon 0 0 0 3 0, ExactBalls.e_of_real 1);
       (Mon 0 0 0 0 0, ExactBalls.e_of_real 2)] 1 2 W None None = Ok g
    /\ forall m c, In (m, c) g -> (degree m W <= 1)%nat.
Proof.
  eexists. split; [reflexivity|]. intros m c Hin.
  apply (truncate_tail_degree_bound (BA := ExactBalls.exact_balls)
           [(Mon 0 0 0 3 0, ExactBalls.e_of_real 1);
            (Mon 0 0 0 0 0, ExactBalls.e_of_real 2)] 1 2 W None None
           _ m c eq_refl).
  - intros k lg H; discriminate H.
  - exact Hin.
Defined.

(** X2.  With a log-degree target [kappa], every monomial of the result
    that reaches the target degree in [w] carries exactly the power [kappa]
    of [logn]: the terms of top degree form the error term
    [w^deg * logn^kappa]. *)
Theorem truncate_tail_top_log_degree {BA : BallArith} (f : poly) (deg : nat)
    (min_n : R) (w lg : gen) (kappa : nat) (g : poly) (m : mon) (c : ball) :
  truncate_tail f deg min_n w (Some kappa) (Some lg) = Ok g ->
  lg <> w ->
  In (m, c) g ->
  degree m w = deg ->
  degree m lg = kappa.
Proof.
  intros Hrun Hne Hin. apply (in_map fst) in Hin. simpl in Hin.
  apply (truncate_loop_log_shape deg min_n w lg kappa f Hne [] g Hrun);
    [intros ? []|exact Hin].
Qed.

Lemma truncate_tail_top_log_degree_witness :
  exists g : poly (BA := ExactBalls.exact_balls),
    truncate_tail (BA := ExactBalls.exact_balls)
      [(Mon 0 0 0 3 1, ExactBalls.e_of_real 1);
       (Mon 0 0 0 0 3, ExactBalls.e_of_real 2)] 1 2 W
      (Some 2%nat) (Some Logn) = Ok g
    /\ forall m c, In (m, c) g -> degree m W = 1%nat ->
                   degree m Logn = 2%nat.
Proof.
  eexists. split; [reflexivity|]. intros m c Hin.
  apply (truncate_tail_top_log_degree (BA := ExactBalls.exact_balls)
           [(Mon 0 0 0 3 1, ExactBalls.e_of_real 1);
            (Mon 0 0 0 0 3, ExactBalls.e_of_real 2)] 1 2 W Logn 2
           _ m c eq_refl).
  - discriminate.
  - exact Hin.
Defined.

(** X3.  Without [kappa], [truncate_tail] always returns, and truncating
    its result again to the same degree, with any [min_n], changes no
    monomial: the second result has the same monomials in the same order,
    each coefficient being multiplied once more by the coefficient 1 of its
    monomial (a product that ball arithmetic may round outwards, so that the
    coefficients themselves need not be unchanged). *)
Theorem truncate_tail_twice {BA : BallArith} (f : poly) (deg : nat)
    (min_n min_n' : R) (w : gen) (logn logn' : option gen) :
  exists g,
    truncate_tail f deg min_n w None logn = Ok g
    /\ truncate_tail g deg min_n' w None logn'
       = Ok (map (fun t => (fst t, term_coeff (snd t))) g).
Proof.
  eexists. split; [reflexivity|]. unfold truncate_tail. f_equal.
  rewrite fold_add_fresh; [reflexivity | |].
  - simpl. apply truncate_fold_NoDup. constructor.
  - apply truncate_fold_degree. intros ? [].
Qed.

(** ** Dominant singularities and the radius of the big circle *)

Lemma Cmod_pos_of_neq (a b : C) : a <> b -> 0 < Cmod (Csub a b).
Proof.
  intros Hne. unfold Cmod, Csub. cbn [Re Im]. apply sqrt_lt_R0.
  pose proof (Rle_0_sqr (Re a - Re b)) as H1.
  pose proof (Rle_0_sqr (Im a - Im b)) as H2.
  destruct (Req_dec_T (Re a) (Re b)) as [Hr|Hr].
  - destruct (Req_dec_T (Im a) (Im b)) as [Hi|Hi].
    + exfalso. apply Hne. now apply C_ext.
    + assert (H : 0 < Rsqr (Im a - Im b)) by (apply Rlt_0_sqr; lra).
      unfold Rsqr in *. lra.
  - assert (H : 0 < Rsqr (Re a - Re b)) by (apply Rlt_0_sqr; lra).
    unfold Rsqr in *. lra.
Qed.

Lemma first_of_In {A : Type} (l : list A) (x : A) :
  first_of l = Ok x -> exists l', l = x :: l'.
Proof. destruct l; simpl; [discriminate|]. intros [= <-]. eauto. Qed.

Lemma last_of_In {A : Type} (l : list A) (x : A) :
  last_of l = Ok x -> In x l.
Proof.
  induction l as [|a l IH]; simpl; [discriminate|].
  destruct l as [|b l']; [intros [= <-]; now left|].
  intros H. right. now apply IH.
Qed.

(** [_sing_in_disk] splits the list at its first element outside the disk. *)
Lemma sing_in_disk_aux_split (elts : list C) (rad : R) :
  exists rest,
    elts = fst (sing_in_disk_aux elts rad) ++ rest
    /\ Forall (fun x => Cmod x <= rad) (fst (sing_in_disk_aux elts rad))
    /\ ((rest = [] /\ snd (sing_in_disk_aux elts rad) = None)
        \/ exists x rest', rest = x :: rest' /\ rad < Cmod x
             /\ snd (sing_in_disk_aux elts rad) = Some (Cmod x)).
Proof.
  induction elts as [|x elts IH]; simpl.
  - exists []. repeat split; [constructor | now left].
  - destruct (Rlt_dec rad (Cmod x)) as [H|H]; simpl.
    + exists (x :: elts). repeat split; [constructor|].
      right. exists x, elts. now repeat split.
    + destruct IH as (rest & E & Hf & Hr).
      destruct (sing_in_disk_aux elts rad) as [d m]; simpl in *.
      exists rest. split; [now f_equal|]. split; [|exact Hr].
      constructor; [lra | exact Hf].
Qed.

Lemma sorted_app_le (l1 l2 : list C) :
  StronglySorted (key_le Cmod) (l1 ++ l2) ->
  forall a b, In a l1 -> In b l2 -> Cmod a <= Cmod b.
Proof.
  induction l1 as [|x l1 IH]; simpl; intros Hs a b Ha Hb; [contradiction|].
  inversion Hs as [|? ? Hs' Hall]; subst.
  destruct Ha as [<-|Ha]; [|now apply IH].
  rewrite Forall_forall in Hall. apply (Hall b).
  apply in_or_app. now right.
Qed.

Lemma sorted_head_le (x : C) (l : list C) :
  StronglySorted (key_le Cmod) (x :: l) ->
  forall b, In b (x :: l) -> Cmod x <= Cmod b.
Proof.
  intros Hs b [<-|Hb]; [lra|].
  inversion Hs as [|? ? _ Hall]; subst.
  rewrite Forall_forall in Hall. now apply Hall.
Qed.

(** X4.  On a list sorted by modulus, [_sing_in_disk] returns exactly the
    elements of modulus at most [rad], together with the modulus of the
    first element outside the disk, or [infinity] when there is none. *)
Theorem sing_in_disk_sorted (elts : list C) (rad infinity : R) :
  StronglySorted (key_le Cmod) elts ->
  sing_in_disk elts rad infinity
  = (filter (fun x => Rleb (Cmod x) rad) elts,
     match filter (fun x => negb (Rleb (Cmod x) rad)) elts with
     | [] => infinity
     | y :: _ => Cmod y
     end).
Proof.
  intros Hs. unfold sing_in_disk.
  assert (H : sing_in_disk_aux elts rad
              = (filter (fun x => Rleb (Cmod x) rad) elts,
                 match filter (fun x => negb (Rleb (Cmod x) rad)) elts with
                 | [] => None
                 | y :: _ => Some (Cmod y)
                 end)).
  { induction elts as [|x elts IH]; [reflexivity|]. simpl.
    inversion Hs as [|? ? Hs' Hall]; subst.
    destruct (Rlt_dec rad (Cmod x)) as [H|H].
    - replace (Rleb (Cmod x) rad) with false
        by (symmetry; now apply Rleb_false).
      simpl. f_equal.
      clear -Hall H. induction Hall as [|y l Hy Hall IH]; [reflexivity|].
      simpl. unfold key_le in Hy.
      replace (Rleb (Cmod y) rad) with false
        by (symmetry; apply Rleb_false; lra).
      exact IH.
    - replace (Rleb (Cmod x) rad) with true
        by (symmetry; apply Rleb_true; lra).
      simpl. now rewrite (IH Hs'). }
  rewrite H.
  now destruct (filter (fun x => negb (Rleb (Cmod x) rad)) elts).
Qed.

Lemma sorted_1_2 : StronglySorted (key_le Cmod) [RtoC 1; RtoC 2].
Proof.
  repeat constructor. unfold key_le. rewrite !Cmod_RtoC.
  rewrite !Rabs_pos_eq by lra. lra.
Qed.

Lemma sing_in_disk_sorted_witness :
  sing_in_disk [RtoC 1; RtoC 2] (3 / 2) 6
  = (filter (fun x => Rleb (Cmod x) (3 / 2)) [RtoC 1; RtoC 2],
     match filter (fun x => negb (Rleb (Cmod x) (3 / 2))) [RtoC 1; RtoC 2]
     with
     | [] => 6
     | y :: _ => Cmod y
     end).
Proof.
  apply (sing_in_disk_sorted [RtoC 1; RtoC 2] (3 / 2) 6 sorted_1_2).
Defined.

Lemma distances_pos (l1 l2 : list C) (d : R) :
  In d (distances l1 l2) -> 0 < d.
Proof.
  unfold distances. rewrite in_flat_map. intros (a & _ & Hd).
  apply in_map_iff in Hd as (b & <- & Hb).
  apply filter_In in Hb as [_ Hne]. apply Cmod_pos_of_neq.
  intros ->. rewrite (proj2 (Ceqb_true a a) eq_refl) in Hne. discriminate.
Qed.

(** X5.  The big circle separates.  Whenever the dominant singularities and
    the radius are determined - from a given radius, or automatically when
    no potential singularity is at the origin - the dominant singularities
    are an initial part of the potential singularities sorted by modulus,
    there is at least one, all of them lie strictly inside the circle and
    all other potential singularities strictly outside. *)
Theorem big_circle_separates (all_exn_points sings : list C)
    (rad : option R) (doms : list C) (r : R) :
  dominant_and_radius all_exn_points sings rad = Ok (doms, r) ->
  StronglySorted (key_le Cmod) sings ->
  (rad = None -> forall s, In s sings -> 0 < Cmod s) ->
  exists rest,
    sings = doms ++ rest
    /\ doms <> []
    /\ (forall s, In s doms -> Cmod s < r)
    /\ (forall s, In s rest -> r < Cmod s).
Proof.
  intros Hrun Hs Hpos. unfold dominant_and_radius in Hrun.
  destruct rad as [r1|].
  - destruct (last_of sings) as [s_last|] eqn:El; cbn [bind] in Hrun;
      [|discriminate].
    destruct (sing_in_disk_aux_split sings r1) as (rest & E & Hle & Hrest).
    unfold sing_in_disk in Hrun.
    destruct (sing_in_disk_aux sings r1) as [d m]. cbn [fst snd] in *.
    destruct d as [|d0 d]; [discriminate|].
    destruct (last_of (d0 :: d)) as [d_last|] eqn:Ed; cbn [bind] in Hrun;
      [|discriminate].
    destruct (Req_dec_T (Cmod d_last) r1) as [|Hne]; [discriminate|].
    injection Hrun as <- <-.
    exists rest. split; [exact E|]. split; [discriminate|].
    assert (Hsd : StronglySorted (key_le Cmod) (d0 :: d))
      by (rewrite E in Hs; now apply sorted_prefix in Hs).
    destruct (last_of_sorted C Cmod _ _ Hsd Ed) as [Hin Hmax].
    rewrite Forall_forall in Hle. split.
    + intros s Hsin. pose proof (Hmax s Hsin). pose proof (Hle _ Hin). lra.
    + intros s Hsin.
      destruct Hrest as [[-> _]|(x & rest' & -> & Hx & _)]; [contradiction|].
      rewrite E in Hs.
      assert (Hsr : StronglySorted (key_le Cmod) (x :: rest')).
      { clear -Hs. induction (d0 :: d) as [|a l IH]; [exact Hs|].
        inversion Hs; subst. now apply IH. }
      pose proof (sorted_head_le x rest' Hsr s Hsin). lra.
  - destruct (first_of sings) as [s_first|] eqn:Ef; cbn [bind] in Hrun;
      [|discriminate].
    destruct (last_of sings) as [s_last|] eqn:El; cbn [bind] in Hrun;
      [|discriminate].
    destruct (first_of_In _ _ Ef) as (tl & Esings).
    destruct (sing_in_disk_aux_split sings (Cmod s_first))
      as (rest & E & Hle & Hrest).
    unfold sing_in_disk in Hrun.
    destruct (sing_in_disk_aux sings (Cmod s_first)) as [d m] eqn:Eaux.
    cbn [fst snd] in *.
    unfold choose_big_radius in Hrun.
    match type of Hrun with
    | bind (bind (min_of ?l) _) _ = _ =>
        destruct (min_of l) as [msr|] eqn:Em; cbn [bind] in Hrun;
          [|discriminate]
    end.
    destruct (last_of d) as [d_last|] eqn:Ed; cbn [bind] in Hrun;
      [|discriminate].
    injection Hrun as <- <-.
    assert (Hfirst : forall s, In s sings -> Cmod s_first <= Cmod s).
    { rewrite Esings in Hs |- *. now apply sorted_head_le. }
    assert (Hd0 : In s_first d).
    { subst sings. simpl in Eaux.
      destruct (Rlt_dec (Cmod s_first) (Cmod s_first)); [lra|].
      destruct (sing_in_disk_aux tl (Cmod s_first)).
      injection Eaux as <- _. now left. }
    rewrite Forall_forall in Hle.
    assert (Hdin : forall s, In s d -> In s sings)
      by (intros s Hsin; rewrite E; apply in_or_app; now left).
    assert (Hdeq : forall s, In s d -> Cmod s = Cmod s_first).
    { intros s Hsin. pose proof (Hle s Hsin).
      pose proof (Hfirst s (Hdin s Hsin)). lra. }
    assert (Hp0 : 0 < Cmod s_first)
      by (apply (Hpos eq_refl); rewrite Esings; now left).
    pose proof (Hdeq _ (last_of_In _ _ Ed)) as Hdom.
    assert (Hmsr : 0 < msr).
    { apply (distances_pos d all_exn_points).
      now destruct (min_of_is_min _ _ Em). }
    set (next := match m with Some mag => mag | None => Cmod s_last * 3 end).
    assert (Hnext : Cmod s_first < next
                    /\ forall s, In s rest -> next <= Cmod s).
    { unfold next.
      destruct Hrest as [[-> ->]|(x & rest' & -> & Hx & ->)].
      - split; [|intros ? []]. rewrite app_nil_r in E.
        rewrite (Hdeq s_last); [lra|].
        rewrite <- E. now apply last_of_In.
      - split; [exact Hx|]. intros s Hsin. rewrite E in Hs.
        assert (Hsr : StronglySorted (key_le Cmod) (x :: rest')).
        { clear -Hs. induction d as [|a l IH]; [exact Hs|].
          inversion Hs; subst. now apply IH. }
        now apply (sorted_head_le x rest' Hsr). }
    destruct Hnext as [Hn1 Hn2]. fold next.
    exists rest. split; [exact E|].
    split; [intros ->; contradiction|].
    rewrite Hdom. split.
    + intros s Hsin. rewrite (Hdeq s Hsin).
      apply Rmin_glb_lt; lra.
    + intros s Hsin. pose proof (Hn2 s Hsin).
      eapply Rle_lt_trans; [apply Rmin_l|]. lra.
Qed.

Lemma big_circle_separates_witness :
  exists r rest,
    [RtoC (1 / 2)] = [RtoC (1 / 2)] ++ rest
    /\ [RtoC (1 / 2)] <> []
    /\ (forall s, In s [RtoC (1 / 2)] -> Cmod s < r)
    /\ (forall s, In s rest -> r < Cmod s).
Proof.
  destruct GeometricSeries.dominant_half as [r Hr]. exists r.
  apply (big_circle_separates [RtoC 1; C0] [RtoC (1 / 2)] None
           [RtoC (1 / 2)] r Hr).
  - repeat constructor.
  - intros _ s [<-|[]]. rewrite Cmod_RtoC, Rabs_pos_eq; lra.
Defined.

(** X6.  Without a given radius the dominant singularities are exactly the
    potential singularities of minimal modulus. *)
Theorem automatic_dominant_minimal (all_exn_points sings doms : list C)
    (r : R) :
  dominant_and_radius all_exn_points sings None = Ok (doms, r) ->
  StronglySorted (key_le Cmod) sings ->
  forall s,
    In s doms
    <-> In s sings /\ forall s', In s' sings -> Cmod s <= Cmod s'.
Proof.
  intros Hrun Hs s. unfold dominant_and_radius in Hrun.
  destruct (first_of sings) as [s_first|] eqn:Ef; cbn [bind] in Hrun;
    [|discriminate].
  destruct (last_of sings) as [s_last|] eqn:El; cbn [bind] in Hrun;
    [|discriminate].
  rewrite (sing_in_disk_sorted sings (Cmod s_first) (Cmod s_last * 3) Hs)
    in Hrun.
  match type of Hrun with
  | bind ?c _ = _ => destruct c; cbn [bind] in Hrun; [|discriminate]
  end.
  injection Hrun as <- _.
  destruct (first_of_In _ _ Ef) as (tl & Esings).
  assert (Hfirst : forall s', In s' sings -> Cmod s_first <= Cmod s').
  { rewrite Esings in Hs |- *. now apply sorted_head_le. }
  rewrite filter_In, Rleb_true. split.
  - intros [Hin Hle]. split; [exact Hin|].
    intros s' Hs'. pose proof (Hfirst s' Hs'). lra.
  - intros [Hin Hmin]. split; [exact Hin|].
    apply Hmin. rewrite Esings. now left.
Qed.

Lemma automatic_dominant_minimal_witness :
  In (RtoC (1 / 2)) [RtoC (1 / 2)]
  <-> In (RtoC (1 / 2)) [RtoC (1 / 2)]
      /\ forall s', In s' [RtoC (1 / 2)] ->
                    Cmod (RtoC (1 / 2)) <= Cmod s'.
Proof.
  destruct GeometricSeries.dominant_half as [r Hr].
  apply (automatic_dominant_minimal [RtoC 1; C0] [RtoC (1 / 2)]
           [RtoC (1 / 2)] r Hr).
  repeat constructor.
Defined.

Lemma insert_by_perm {A : Type} (key : A -> R) (x : A) (l : list A) :
  Permutation (insert_by key x l) (x :: l).
Proof.
  induction l as [|y l IH]; simpl; [reflexivity|].
  destruct (Rlt_dec (key x) (key y)); [reflexivity|].
  rewrite IH. apply perm_swap.
Qed.

Lemma sort_by_perm {A : Type} (key : A -> R) (l : list A) :
  Permutation (sort_by key l) l.
Proof.
  unfold sort_by.
  assert (H : forall acc,
            Permutation (fold_left (fun acc x => insert_by key x acc) l acc)
                        (acc ++ l)).
  { induction l as [|x l IH]; intros acc; simpl.
    - now rewrite app_nil_r.
    - rewrite IH, insert_by_perm. apply Permutation_middle. }
  apply (H []).
Qed.

(** X7.  The potential singularities are the given singularities (the
    non-apparent singularities of the operator when none are given) that
    are not known to be analytic, each as often as given, sorted by
    increasing modulus. *)
Theorem potential_singularities_spec (nonapparent : list C)
    (singularities : option (list C)) (known_analytic : list C) :
  let candidates :=
    match singularities with
    | None => nonapparent
    | Some l => l
    end in
  Permutation (potential_singularities nonapparent singularities
                 known_analytic)
    (filter (fun s => negb (existsb (fun a => Ceqb s a) known_analytic))
       candidates)
  /\ StronglySorted (key_le Cmod)
       (potential_singularities nonapparent singularities known_analytic)
  /\ forall s,
       In s (potential_singularities nonapparent singularities
               known_analytic)
       <-> In s candidates /\ ~ In s known_analytic.
Proof.
  intros candidates.
  assert (Hperm : Permutation
            (potential_singularities nonapparent singularities
               known_analytic)
            (filter (fun s => negb (existsb (fun a => Ceqb s a)
                                      known_analytic)) candidates))
    by apply sort_by_perm.
  split; [exact Hperm|].
  split; [apply potential_singularities_sorted|].
  intros s. split.
  - intros Hin. apply (Permutation_in _ Hperm) in Hin.
    apply filter_In in Hin as [Hin Hno]. split; [exact Hin|].
    intros Hka. apply negb_true_iff in Hno.
    assert (Hex : existsb (fun a => Ceqb s a) known_analytic = true).
    { apply existsb_exists. exists s. split; [exact Hka|].
      now apply Ceqb_true. }
    congruence.
  - intros [Hin Hno].
    apply (Permutation_in _ (Permutation_sym Hperm)).
    apply filter_In. split; [exact Hin|].
    apply negb_true_iff.
    destruct (existsb (fun a => Ceqb s a) known_analytic) eqn:E;
      [|reflexivity].
    apply existsb_exists in E as (a & Ha & Heq).
    apply Ceqb_true in Heq. subst a. contradiction.
Qed.

(** ** The guard on [min_n] in [bound_coeff_mono] *)

Section MinNGuard.

Context {BA : BallArith}.
Variable product_all :
  C -> nat -> nat -> gen -> gen -> R -> R -> result poly.
Variable contiguous_sum :
  C -> nat -> nat -> gen -> gen -> R -> R -> poly -> poly -> result poly.
Variable deg : nat.
Variable s : R.

Local Notation "'bcm'" := (bound_coeff_mono product_all contiguous_sum).

(** With [l <= -alpha] and [min_n <= -alpha] no polynomial is returned,
    whatever the collaborators do: the test of the terminating case is
    invariant along the recursion, which lowers [min_n] and [-alpha] by one
    together, and a call with [l = 0] is reached unless an error comes
    first. *)
Lemma bcm_small_min_n (d : nat) :
  forall (k : Z) (l fuel : nat) (w logn : gen) (min_n : R),
    (k <= 0)%Z -> (- k <= Z.of_nat d)%Z -> (S d <= fuel)%nat ->
    (Z.of_nat l <= - k)%Z -> min_n <= IZR (- k) ->
    exists t e, bcm fuel (RtoC (IZR k)) l deg w logn s min_n
                = Some (t, Raise e).
Proof.
  induction d as [|d IH]; intros k l fuel w logn min_n Hk Hd Hfuel Hl Hm.
  - assert (k = 0%Z) by lia. subst k.
    assert (l = 0%nat) by lia. subst l.
    rewrite bcm_terminating by (now rewrite is_nonpos_int_IZR).
    rewrite int_of_IZR.
    destruct (Rle_dec min_n (IZR (- 0))) as [_|Hn]; [|contradiction].
    do 2 eexists. reflexivity.
  - destruct l as [|l'].
    { rewrite bcm_terminating
        by (rewrite is_nonpos_int_IZR; now apply Z.leb_le).
      rewrite int_of_IZR.
      destruct (Rle_dec min_n (IZR (- k))) as [_|Hn]; [|contradiction].
      do 2 eexists. reflexivity. }
    destruct fuel as [|fuel]; [lia|].
    rewrite bcm_recursive
      by (first [rewrite is_nonpos_int_IZR; now apply Z.leb_le
                | discriminate]).
    rewrite Cadd_IZR_1.
    assert (Hshift : min_n - 1 <= IZR (- (k + 1))).
    { rewrite !opp_IZR, plus_IZR in *. lra. }
    destruct (bcm_returns product_all contiguous_sum (S d) (k + 1) (S l')
                fuel deg U Logz s (min_n - 1))
      as (t1 & r1 & E1 & _); [lia | lia |].
    rewrite E1. destruct r1 as [p1|e1]; [|do 2 eexists; reflexivity].
    destruct (IH (k + 1)%Z (S l' - 1)%nat fuel U Logz (min_n - 1))
      as (t2 & e2 & E2); [lia | lia | lia | lia | exact Hshift |].
    rewrite E2. do 2 eexists. reflexivity.
Qed.

(** The generic case, reached at [alpha = 1] with the variables [u] and
    [logz], returns; the sum of the contiguous relation returns whenever
    none of its divisions is by zero. *)
Hypothesis product_all_returns :
  forall l min_n,
    exists p, product_all (RtoC (IZR 1)) l deg U Logz s min_n = Ok p.
Hypothesis contiguous_sum_returns :
  forall alpha l w logn min_n p1 p2,
    min_n <> 1 -> min_n <> 2 -> min_n <> 3 ->
    exists p, contiguous_sum alpha l deg w logn s min_n p1 p2 = Ok p.

Lemma bcm_generic_returns (fuel : nat) (l : nat) (min_n : R) :
  exists t p,
    bcm fuel (RtoC (IZR 1)) l deg U Logz s min_n = Some (t, Ok p).
Proof.
  rewrite bcm_generic by (rewrite is_nonpos_int_IZR; reflexivity).
  destruct (product_all_returns l min_n) as [p ->].
  do 2 eexists. reflexivity.
Qed.

(** [min_n] stays away from 1, 2 and 3 at the invocations of the levels
    [0 .. -k] of the recursion. *)
Definition no_zero_division (k : Z) (min_n : R) : Prop :=
  forall i, (0 <= i <= - k)%Z ->
    min_n - IZR i <> 1 /\ min_n - IZR i <> 2 /\ min_n - IZR i <> 3.

Lemma no_zero_division_step (k : Z) (min_n : R) :
  (k < 0)%Z -> no_zero_division k min_n ->
  no_zero_division (k + 1) (min_n - 1).
Proof.
  intros Hk H i Hi.
  destruct (H (i + 1)%Z) as (H1 & H2 & H3); [lia|].
  rewrite plus_IZR in H1, H2, H3. repeat split; lra.
Qed.

Lemma no_zero_division_here (k : Z) (min_n : R) :
  (k <= 0)%Z -> no_zero_division k min_n ->
  min_n <> 1 /\ min_n <> 2 /\ min_n <> 3.
Proof.
  intros Hk H. destruct (H 0%Z) as (H1 & H2 & H3); [lia|].
  rewrite Rminus_0_r in H1, H2, H3. repeat split; assumption.
Qed.

Lemma bcm_guard (d : nat) :
  forall (k : Z) (l fuel : nat) (w logn : gen) (min_n : R),
    (k <= 0)%Z -> (- k <= Z.of_nat d)%Z -> (S d <= fuel)%nat ->
    no_zero_division k min_n ->
    exists t r,
      bcm fuel (RtoC (IZR k)) l deg w logn s min_n = Some (t, r)
      /\ ((Z.of_nat l <= - k)%Z /\ min_n <= IZR (- k) ->
          r = Raise (ValueError min_n_too_small))
      /\ (~ ((Z.of_nat l <= - k)%Z /\ min_n <= IZR (- k)) ->
          exists p, r = Ok p).
Proof.
  induction d as [|d IH]; intros k l fuel w logn min_n Hk Hd Hfuel Hdiv.
  - assert (k = 0%Z) by lia. subst k.
    destruct l as [|l'].
    + rewrite bcm_terminating by (now rewrite is_nonpos_int_IZR).
      rewrite int_of_IZR. do 2 eexists. split; [reflexivity|].
      destruct (Rle_dec min_n (IZR (- 0))) as [Hle|Hgt]; split.
      * reflexivity.
      * intros Hn. exfalso. apply Hn. split; [simpl; lia | exact Hle].
      * intros [_ Hle]. contradiction.
      * intros _. eexists. reflexivity.
    + destruct fuel as [|fuel]; [lia|].
      rewrite bcm_recursive
        by (first [now rewrite is_nonpos_int_IZR | discriminate]).
      rewrite Cadd_IZR_1.
      destruct (bcm_generic_returns fuel (S l') (min_n - 1))
        as (t1 & p1 & E1).
      change (0 + 1)%Z with 1%Z. rewrite E1.
      destruct (bcm_generic_returns fuel (S l' - 1) (min_n - 1))
        as (t2 & p2 & E2).
      rewrite E2.
      destruct (no_zero_division_here 0 min_n (Z.le_refl 0) Hdiv)
        as (H1 & H2 & H3).
      destruct (contiguous_sum_returns (RtoC (IZR 0)) (S l') w logn
                  min_n p1 p2 H1 H2 H3) as [p ->].
      do 2 eexists. split; [reflexivity|]. split.
      * intros [Hl _]. lia.
      * intros _. eexists. reflexivity.
  - destruct l as [|l'].
    + rewrite bcm_terminating
        by (rewrite is_nonpos_int_IZR; now apply Z.leb_le).
      rewrite int_of_IZR. do 2 eexists. split; [reflexivity|].
      destruct (Rle_dec min_n (IZR (- k))) as [Hle|Hgt]; split.
      * reflexivity.
      * intros Hn. exfalso. apply Hn. split; [lia | exact Hle].
      * intros [_ Hle]. contradiction.
      * intros _. eexists. reflexivity.
    + destruct fuel as [|fuel]; [lia|].
      rewrite bcm_recursive
        by (first [rewrite is_nonpos_int_IZR; now apply Z.leb_le
                  | discriminate]).
      rewrite Cadd_IZR_1.
      assert (Hshift : min_n - 1 <= IZR (- (k + 1)) <-> min_n <= IZR (- k)).
      { rewrite !opp_IZR, plus_IZR. split; intros; lra. }
      destruct (no_zero_division_here k min_n Hk Hdiv) as (H1 & H2 & H3).
      destruct (Z.eq_dec k 0) as [->|Hk0].
      { destruct (bcm_generic_returns fuel (S l') (min_n - 1))
          as (t1 & p1 & E1).
        change (0 + 1)%Z with 1%Z. rewrite E1.
        destruct (bcm_generic_returns fuel (S l' - 1) (min_n - 1))
          as (t2 & p2 & E2).
        rewrite E2.
        destruct (contiguous_sum_returns (RtoC (IZR 0)) (S l') w logn
                    min_n p1 p2 H1 H2 H3) as [p ->].
        do 2 eexists. split; [reflexivity|]. split.
        - intros [Hl _]. lia.
        - intros _. eexists. reflexivity. }
      assert (Hdiv' : no_zero_division (k + 1) (min_n - 1))
        by (apply no_zero_division_step; [lia | exact Hdiv]).
      destruct (IH (k + 1)%Z (S l') fuel U Logz (min_n - 1))
        as (t1 & r1 & -> & Hraise1 & Hok1);
        [lia | lia | lia | exact Hdiv' |].
      destruct (IH (k + 1)%Z (S l' - 1)%nat fuel U Logz (min_n - 1))
        as (t2 & r2 & E2 & Hraise2 & Hok2);
        [lia | lia | lia | exact Hdiv' |].
      destruct (Z_le_dec (Z.of_nat (S l')) (- (k + 1))) as [Hl1|Hl1];
        destruct (Rle_dec min_n (IZR (- k))) as [Hm|Hm].
      * rewrite Hraise1 by (split; [exact Hl1 | now apply Hshift]).
        do 2 eexists. split; [reflexivity|]. split; [reflexivity|].
        intros Hn. exfalso. apply Hn. split; [lia | exact Hm].
      * destruct Hok1 as [p1 ->]; [intros [_ H]; now apply Hshift in H|].
        destruct Hok2 as [p2 Hr2]; [intros [_ H]; now apply Hshift in H|].
        rewrite E2, Hr2.
        destruct (contiguous_sum_returns (RtoC (IZR k)) (S l') w logn
                    min_n p1 p2 H1 H2 H3) as [p ->].
        do 2 eexists. split; [reflexivity|]. split.
        -- intros [_ H]. contradiction.
        -- intros _. eexists. reflexivity.
      * destruct Hok1 as [p1 ->]; [intros [H _]; contradiction|].
        rewrite E2.
        destruct (Z_le_dec (Z.of_nat (S l')) (- k)) as [Hl|Hl].
        -- rewrite Hraise2 by (split; [lia | now apply Hshift]).
           do 2 eexists. split; [reflexivity|]. split; [reflexivity|].
           intros Hn. exfalso. apply Hn. split; assumption.
        -- destruct Hok2 as [p2 ->]; [intros [H _]; lia|].
           destruct (contiguous_sum_returns (RtoC (IZR k)) (S l') w
                       logn min_n p1 p2 H1 H2 H3) as [p ->].
           do 2 eexists. split; [reflexivity|]. split.
           ++ intros [H _]. contradiction.
           ++ intros _. eexists. reflexivity.
      * destruct Hok1 as [p1 ->]; [intros [H _]; contradiction|].
        destruct Hok2 as [p2 Hr2]; [intros [_ H]; now apply Hshift in H|].
        rewrite E2, Hr2.
        destruct (contiguous_sum_returns (RtoC (IZR k)) (S l') w logn
                    min_n p1 p2 H1 H2 H3) as [p ->].
        do 2 eexists. split; [reflexivity|]. split.
        -- intros [_ H]. contradiction.
        -- intros _. eexists. reflexivity.
Qed.

End MinNGuard.

(** X8.  [bound_coeff_mono] at a non-positive integer [alpha = k], for any
    [l].  With [l <= -k] and [min_n <= -k] it never returns a polynomial,
    whatever the collaborators do.  When moreover the generic case (reached
    at [alpha = 1]) returns, the sum of the contiguous relation returns
    wherever none of its divisions is by zero, and [min_n] stays away from
    1, 2 and 3 at the levels [0 .. -k] of the recursion, the result is
    [ValueError('min_n too small!')] exactly when [l <= -k] and
    [min_n <= -k], and a polynomial otherwise: the test of the terminating
    case is the same at every depth, and it is reached only when
    [l <= -k]. *)
Theorem bound_coeff_mono_min_n_guard {BA : BallArith}
    (product_all : C -> nat -> nat -> gen -> gen -> R -> R -> result poly)
    (contiguous_sum :
       C -> nat -> nat -> gen -> gen -> R -> R -> poly -> poly -> result poly)
    (k : Z) (l fuel deg : nat) (w logn : gen) (s min_n : R) :
  (k <= 0)%Z -> (Z.to_nat (- k) + 1 <= fuel)%nat ->
  exists t r,
    bound_coeff_mono product_all contiguous_sum fuel (RtoC (IZR k)) l deg
      w logn s min_n = Some (t, r)
    /\ ((Z.of_nat l <= - k)%Z /\ min_n <= - IZR k -> exists e, r = Raise e)
    /\ ((forall l' min_n',
           exists p,
             product_all (RtoC (IZR 1)) l' deg U Logz s min_n' = Ok p) ->
        (forall alpha l' w' logn' min_n' p1 p2,
           min_n' <> 1 -> min_n' <> 2 -> min_n' <> 3 ->
           exists p,
             contiguous_sum alpha l' deg w' logn' s min_n' p1 p2 = Ok p) ->
        (forall i, (0 <= i <= - k)%Z ->
           min_n - IZR i <> 1 /\ min_n - IZR i <> 2 /\ min_n - IZR i <> 3) ->
        (r = Raise (ValueError min_n_too_small)
         <-> (Z.of_nat l <= - k)%Z /\ min_n <= - IZR k)
        /\ ((exists p, r = Ok p)
            <-> ~ ((Z.of_nat l <= - k)%Z /\ min_n <= - IZR k))).
Proof.
  intros Hk Hfuel.
  destruct (bcm_returns product_all contiguous_sum (Z.to_nat (- k) + 1) k l
              fuel deg w logn s min_n) as (t & r & E & _); [lia | lia |].
  exists t, r. split; [exact E|]. split.
  - intros [Hl Hm]. rewrite <- opp_IZR in Hm.
    destruct (bcm_small_min_n product_all contiguous_sum deg s
                (Z.to_nat (- k)) k l fuel w logn min_n)
      as (t' & e & E'); [exact Hk | lia | lia | exact Hl | exact Hm |].
    rewrite E in E'. injection E' as _ ->. now exists e.
  - intros Hprod Hsum Hdiv.
    destruct (bcm_guard product_all contiguous_sum deg s Hprod Hsum
                (Z.to_nat (- k)) k l fuel w logn min_n)
      as (t' & r' & E' & Hraise & Hok);
      [exact Hk | lia | lia | exact Hdiv |].
    rewrite E in E'. injection E' as <- <-.
    rewrite opp_IZR in Hraise, Hok.
    destruct (Z_le_dec (Z.of_nat l) (- k)) as [Hl|Hl];
      [destruct (Rle_dec min_n (- IZR k)) as [Hm|Hm]|].
    + rewrite Hraise by (split; assumption). split; split.
      * intros _. split; assumption.
      * reflexivity.
      * intros [p Hp]. discriminate Hp.
      * intros Hn. exfalso. apply Hn. split; assumption.
    + destruct Hok as [p ->]; [intros [_ H]; contradiction|]. split; split.
      * intros H. discriminate H.
      * intros [_ H]. contradiction.
      * intros _ [_ H]. contradiction.
      * intros _. eexists. reflexivity.
    + destruct Hok as [p ->]; [intros [H _]; contradiction|]. split; split.
      * intros H. discriminate H.
      * intros [H _]. contradiction.
      * intros _ [H _]. contradiction.
      * intros _. eexists. reflexivity.
Qed.

Lemma bound_coeff_mono_min_n_guard_witness :
  exists t r,
    bound_coeff_mono (BA := ExactBalls.exact_balls)
      (fun _ _ _ _ _ _ _ => Ok []) (fun _ _ _ _ _ _ _ _ _ => Ok [])
      3 (RtoC (IZR (-2))) 1 2 W Logn 5 (1 / 2) = Some (t, r)
    /\ r = Raise (ValueError min_n_too_small).
Proof.
  destruct (bound_coeff_mono_min_n_guard (BA := ExactBalls.exact_balls)
              (fun _ _ _ _ _ _ _ => Ok []) (fun _ _ _ _ _ _ _ _ _ => Ok [])
              (-2) 1 3 2 W Logn 5 (1 / 2))
    as (t & r & E & _ & H); [lia | simpl; lia |].
  exists t, r. split; [exact E|].
  apply H.
  - intros. eexists. reflexivity.
  - intros. eexists. reflexivity.
  - intros i Hi.
    assert (Hi' : i = 0%Z \/ i = 1%Z \/ i = 2%Z) by lia.
    destruct Hi' as [-> | [-> | ->]]; repeat split; lra.
  - split; [simpl; lia | simpl; lra].
Defined.

(** ** Geometry of the paths on the big circle *)

Lemma Cmod_exp_i (t : R) : Cmod (Cexp_i t) = 1.
Proof.
  unfold Cmod, Cexp_i. cbn [Re Im].
  replace (cos t * cos t + sin t * sin t) with 1.
  - apply sqrt_1.
  - pose proof (sin2_cos2 t) as H. unfold Rsqr in H. lra.
Qed.

Lemma Cmul_polar (r a b : R) :
  Cmul (Cscale r (Cexp_i a)) (Cexp_i b) = Cscale r (Cexp_i (a + b)).
Proof.
  apply C_ext; unfold Cmul, Cscale, Cexp_i; cbn [Re Im].
  - rewrite cos_plus. ring.
  - rewrite sin_plus. ring.
Qed.

Lemma Cmod_conj (z : C) : Cmod (Cconj z) = Cmod z.
Proof. unfold Cmod, Cconj. cbn [Re Im]. f_equal. ring. Qed.

Lemma Csub_conj (a b : C) : Csub (Cconj a) (Cconj b) = Cconj (Csub a b).
Proof. apply C_ext; unfold Csub, Cconj; cbn [Re Im]; ring. Qed.

Lemma sin_sqr_le (x : R) : sin x * sin x <= x * x.
Proof.
  assert (Hpos : forall y, 0 < y -> sin y * sin y <= y * y).
  { intros y Hy. pose proof (sin_lt_x y Hy) as H1.
    pose proof (SIN_bound y) as [H2 H2'].
    destruct (Rle_dec y 1) as [Hy1|Hy1].
    - assert (H3 : - y < sin y).
      { destruct (Rle_dec 0 (sin y)) as [H|H]; [lra|].
        assert (H4 : sin (- y) = - sin y) by apply sin_neg.
        assert (H5 : 0 < PI) by apply PI_RGT_0.
        assert (H6 : 0 <= sin y).
        { apply sin_ge_0; [lra|]. pose proof PI2_3_2. lra. }
        lra. }
      nra.
    - assert (H3 : sin y * sin y <= 1) by nra. nra. }
  destruct (Rtotal_order x 0) as [Hx|[->|Hx]].
  - replace (sin x * sin x) with (sin (- x) * sin (- x))
      by (rewrite sin_neg; ring).
    replace (x * x) with (- x * - x) by ring. apply Hpos. lra.
  - rewrite sin_0. lra.
  - now apply Hpos.
Qed.

(** The chord between two points of the unit circle is no longer than the
    arc between them. *)
Lemma chord_le_arc (a b : R) :
  Cmod (Csub (Cexp_i a) (Cexp_i b)) <= Rabs (a - b).
Proof.
  unfold Cmod, Csub, Cexp_i. cbn [Re Im].
  rewrite <- sqrt_Rsqr_abs. apply sqrt_le_1_alt. unfold Rsqr.
  replace ((cos a - cos b) * (cos a - cos b)
           + (sin a - sin b) * (sin a - sin b))
    with (4 * (sin ((a - b) / 2) * sin ((a - b) / 2))).
  - pose proof (sin_sqr_le ((a - b) / 2)). nra.
  - pose proof (cos_2a_sin ((a - b) / 2)) as H.
    replace (2 * ((a - b) / 2)) with (a - b) in H by field.
    rewrite cos_minus in H.
    pose proof (sin2_cos2 a) as Ha. pose proof (sin2_cos2 b) as Hb.
    unfold Rsqr in Ha, Hb. nra.
Qed.

Lemma nth_error_map_seq {A : Type} (f : nat -> A) (n : nat) :
  forall s k x,
    nth_error (map f (seq s n)) k = Some x -> x = f (s + k)%nat /\ (k < n)%nat.
Proof.
  induction n as [|n IH]; intros s k x H.
  - destruct k; discriminate H.
  - destruct k as [|k]; cbn [seq map nth_error] in H.
    + injection H as <-. rewrite Nat.add_0_r. split; [reflexivity | lia].
    + apply IH in H as [-> Hk]. split; [f_equal; lia | lia].
Qed.

(** X9.  The sample squares of an arc.  For a positive half-side, each of
    the two paths handed to the solver for an arc - the squares of
    [circle_upper] and their conjugates - has at least three squares, all
    of the given half-side and centred on the circle of radius [|rad|], and
    the centres of two consecutive squares are less than one side apart,
    so that consecutive squares overlap. *)
Theorem arc_squares_overlap (sings : list C) (rad halfside : R) (j0 : nat)
    (path : list square) :
  0 < halfside ->
  In path (arc_paths sings rad halfside j0) ->
  (3 <= List.length path)%nat
  /\ (forall q, In q path ->
        Cmod (sq_center q) = Rabs rad /\ sq_half q = halfside)
  /\ (forall k q q',
        nth_error path k = Some q -> nth_error path (S k) = Some q' ->
        Cmod (Csub (sq_center q) (sq_center q')) < 2 * halfside).
Proof.
  intros Hhs Hpath.
  set (num_sings := List.length sings).
  set (j1 := ((j0 + 1) mod num_sings)%nat).
  set (arg0 := Carg (nth j0 sings C0)).
  set (arg1 := if (j1 =? 0)%nat then Carg (nth j1 sings C0) + 2 * PI
               else Carg (nth j1 sings C0)).
  set (mid := (arg0 + arg1) / 2).
  set (halfarc := (arg1 - arg0) / 2).
  set (np := (Zceil (Rabs (halfarc * rad / (2 * halfside))) + 2)%Z).
  set (center := fun k : nat =>
         Cscale rad (Cexp_i (mid + halfarc * INR k / IZR np))).
  assert (Hup : circle_upper sings rad halfside j0
                = map (fun k => Square (center k) halfside)
                    (seq 0 (Z.to_nat (np + 1)))).
  { unfold circle_upper. fold num_sings. fold j1. fold arg0. fold arg1.
    fold mid. fold halfarc. fold np.
    apply map_ext. intros k. unfold center. now rewrite Cmul_polar. }
  pose proof (Zceil_bound (Rabs (halfarc * rad / (2 * halfside))))
    as [_ Hceil].
  pose proof (Rabs_pos (halfarc * rad / (2 * halfside))) as Hx0.
  assert (Hnp2 : (2 <= np)%Z).
  { unfold np.
    assert (0 <= Zceil (Rabs (halfarc * rad / (2 * halfside))))%Z; [|lia].
    apply le_IZR. lra. }
  assert (HnpR : Rabs (halfarc * rad / (2 * halfside)) < IZR np).
  { unfold np. rewrite plus_IZR. lra. }
  assert (Hnp0 : 0 < IZR np) by (apply IZR_lt; lia).
  assert (Hstep : forall k,
            Cmod (Csub (center k) (center (S k))) < 2 * halfside).
  { intros k. unfold center.
    replace (Csub (Cscale rad (Cexp_i (mid + halfarc * INR k / IZR np)))
               (Cscale rad (Cexp_i (mid + halfarc * INR (S k) / IZR np))))
      with (Cscale rad
              (Csub (Cexp_i (mid + halfarc * INR k / IZR np))
                 (Cexp_i (mid + halfarc * INR (S k) / IZR np))))
      by (apply C_ext; unfold Csub, Cscale; cbn [Re Im]; ring).
    rewrite Cmod_scale.
    eapply Rle_lt_trans.
    { apply Rmult_le_compat_l; [apply Rabs_pos | apply chord_le_arc]. }
    rewrite <- Rabs_mult, S_INR.
    replace (rad * (mid + halfarc * INR k / IZR np
                    - (mid + halfarc * (INR k + 1) / IZR np)))
      with (- (halfarc * rad / IZR np)) by (field; lra).
    rewrite Rabs_Ropp.
    replace (halfarc * rad / IZR np)
      with (halfarc * rad / (2 * halfside) * (2 * halfside / IZR np))
      by (field; lra).
    rewrite Rabs_mult.
    rewrite (Rabs_pos_eq (2 * halfside / IZR np))
      by (apply Rlt_le, Rdiv_lt_0_compat; lra).
    apply Rle_lt_trans
      with (Rabs (halfarc * rad / (2 * halfside)) * (2 * halfside)
            / IZR np).
    { right. field. lra. }
    apply Rmult_lt_reg_r with (IZR np); [exact Hnp0|].
    replace (Rabs (halfarc * rad / (2 * halfside)) * (2 * halfside)
             / IZR np * IZR np)
      with (Rabs (halfarc * rad / (2 * halfside)) * (2 * halfside))
      by (field; lra).
    nra. }
  assert (Hmod : forall k, Cmod (center k) = Rabs rad).
  { intros k. unfold center. rewrite Cmod_scale, Cmod_exp_i. ring. }
  assert (Hlen : (3 <= Z.to_nat (np + 1))%nat) by lia.
  destruct Hpath as [<-|[<-|[]]].
  - rewrite Hup. split; [now rewrite length_map, length_seq|]. split.
    + intros q Hq. apply in_map_iff in Hq as (k & <- & _).
      cbn [sq_center sq_half]. split; [apply Hmod | reflexivity].
    + intros k q q' Hq Hq'.
      apply nth_error_map_seq in Hq as [-> _].
      apply nth_error_map_seq in Hq' as [-> _].
      cbn [sq_center Nat.add]. apply Hstep.
  - rewrite Hup, map_map.
    split; [now rewrite length_map, length_seq|]. split.
    + intros q Hq. apply in_map_iff in Hq as (k & <- & _).
      unfold sq_conj. cbn [sq_center sq_half].
      split; [rewrite Cmod_conj; apply Hmod | reflexivity].
    + intros k q q' Hq Hq'.
      apply nth_error_map_seq in Hq as [-> _].
      apply nth_error_map_seq in Hq' as [-> _].
      unfold sq_conj. cbn [sq_center sq_half Nat.add].
      rewrite Csub_conj, Cmod_conj. apply Hstep.
Qed.

Lemma arc_squares_overlap_witness :
  (3 <= List.length (circle_upper [RtoC 1] 2 (1 / 10) 0))%nat
  /\ (forall q, In q (circle_upper [RtoC 1] 2 (1 / 10) 0) ->
        Cmod (sq_center q) = Rabs 2 /\ sq_half q = 1 / 10)
  /\ (forall k q q',
        nth_error (circle_upper [RtoC 1] 2 (1 / 10) 0) k = Some q ->
        nth_error (circle_upper [RtoC 1] 2 (1 / 10) 0) (S k) = Some q' ->
        Cmod (Csub (sq_center q) (sq_center q')) < 2 * (1 / 10)).
Proof.
  apply (arc_squares_overlap [RtoC 1] 2 (1 / 10) 0).
  - lra.
  - left. reflexivity.
Defined.

(** ** What a successful run of [process_modZ_class] guarantees *)

Lemma fold_max_nat_is_max (l : list nat) (x : nat) :
  In (fold_left Nat.max l x) (x :: l)
  /\ forall y, In y (x :: l) -> (y <= fold_left Nat.max l x)%nat.
Proof.
  revert x. induction l as [|a l IH]; intros x; cbn [fold_left].
  - split; [now left | intros y [<-|[]]; lia].
  - destruct (IH (Nat.max x a)) as [Hin Hle]. split.
    + destruct Hin as [H|H]; [|now right; right].
      rewrite <- H. destruct (Nat.max_dec x a) as [->| ->];
        [now left | right; now left].
    + intros y [<-|[<-|Hy]].
      * specialize (Hle (Nat.max x a) (or_introl eq_refl)). lia.
      * specialize (Hle (Nat.max x a) (or_introl eq_refl)). lia.
      * apply Hle. now right.
Qed.

Lemma is_max_of_nat (l : list nat) (x : nat) :
  max_of_nat l = Ok x ->
  In x l /\ forall y, In y l -> (y <= x)%nat.
Proof.
  destruct l as [|a l]; cbn [max_of_nat]; [discriminate|].
  intros [= <-]. apply fold_max_nat_is_max.
Qed.

Section ClassSuccess.

Context {BA : BallArith}.
Variable my_log_series :
  C -> C -> list (nat * nat) -> Z -> result (list (list ball)).
Variable bound_tail :
  C -> C -> R -> Z -> list (list ball) -> result ball.
Variable bound_local_integral :
  C -> C -> Z -> Z -> R -> list (list ball) -> ball -> nat ->
  list square -> result (poly * list ball).

Lemma late_mults_from (shifts : list (nat * nat)) (order1 : Z) :
  forall acc,
    (acc <= fold_left (fun acc sm =>
               if (order1 <=? Z.of_nat (fst sm))%Z
               then (acc + snd sm)%nat else acc) shifts acc)%nat.
Proof.
  induction shifts as [|sm shifts IH]; intros acc; cbn [fold_left];
    [lia|].
  destruct (order1 <=? Z.of_nat (fst sm))%Z.
  - specialize (IH (acc + snd sm)%nat). lia.
  - apply IH.
Qed.

(** X10.  Whenever [process_modZ_class] returns the data of a class, the
    bounds of the local integrals were computed with an integer [s > 2]
    such that every [n >= min_n] satisfies [n >= s * (|leftmost| + |order|)];
    the record carries the leftmost exponent of the class, the bound and the
    samples returned by that computation, the first shift of the class is 0
    and the power of the logarithm is the largest index of a non-zero
    coefficient of the computed series in the rows of the shifts below
    [order1], raised by the multiplicities of the later shifts. *)
Theorem process_modZ_class_success (rho : C) (rad abs_order min_n : R)
    (coord_big_circle : list square) (leftmost : C)
    (shifts : list (nat * nat)) (d : class_data) :
  let order := Zceil (abs_order - Re leftmost) in
  let order1 := (order + 49)%Z in
  let den := Cmod leftmost + IZR (Z.abs order) in
  let s := Zfloor (min_n / den) in
  process_modZ_class my_log_series bound_tail bound_local_integral
    rho rad abs_order min_n coord_big_circle leftmost shifts = Ok d ->
  (2 < s)%Z
  /\ 0 < den
  /\ (forall n, min_n <= n -> IZR s * den <= n)
  /\ cd_leftmost d = leftmost
  /\ (exists mult rest, shifts = (0%nat, mult) :: rest)
  /\ exists ser vb ks kappa0 bd,
       my_log_series rho leftmost shifts order1 = Ok ser
       /\ bound_tail rho leftmost (rad - Cmod rho) order ser = Ok vb
       /\ log_powers shifts order1 ser = Ok ks
       /\ In kappa0 ks /\ (forall k, In k ks -> (k <= kappa0)%nat)
       /\ cd_kappa d = (kappa0 + late_mults shifts order1)%nat
       /\ bound_local_integral rho leftmost order s min_n ser vb
            (cd_kappa d) coord_big_circle = Ok bd
       /\ cd_bound d = fst bd /\ cd_big_circle d = snd bd.
Proof.
  intros order order1 den s. unfold process_modZ_class.
  fold order. fold order1.
  destruct (my_log_series rho leftmost shifts order1) as [ser|] eqn:Eser;
    cbn [bind]; [|discriminate].
  destruct (bound_tail rho leftmost (rad - Cmod rho) order ser)
    as [vb|] eqn:Evb; cbn [bind]; [|discriminate].
  fold den. destruct (Req_dec_T den 0) as [Hden|Hden]; [discriminate|].
  fold s. destruct (s <=? 2)%Z eqn:Es; [discriminate|].
  apply Z.leb_gt in Es.
  destruct shifts as [|[sh0 mult] rest] eqn:Eshifts;
    [cbn [first_of bind]; discriminate|].
  rewrite <- Eshifts.
  replace (first_of shifts) with (@Ok (nat * nat) (sh0, mult))
    by (now rewrite Eshifts).
  cbn [bind fst].
  destruct ((sh0 =? 0)%nat && (0 <? order1)%Z) eqn:Eassert; cbn [negb];
    [|discriminate].
  apply andb_true_iff in Eassert as [Esh0 _]. apply Nat.eqb_eq in Esh0.
  destruct (log_powers shifts order1 ser) as [ks|] eqn:Eks; cbn [bind];
    [|discriminate].
  destruct (max_of_nat ks) as [kappa0|] eqn:Emax; cbn [bind];
    [|discriminate].
  destruct (bound_local_integral rho leftmost order s min_n ser vb
              (kappa0 + late_mults shifts order1) coord_big_circle)
    as [bd|] eqn:Ebd; cbn [bind]; [|discriminate].
  intros [= <-]. cbn [cd_leftmost cd_kappa cd_bound cd_big_circle].
  assert (Hden0 : 0 < den).
  { unfold den in *. pose proof (Cmod_nonneg leftmost).
    assert (0 <= IZR (Z.abs order)) by (apply IZR_le; lia). lra. }
  split; [exact Es|]. split; [exact Hden0|]. split.
  { intros n Hn. pose proof (Zfloor_bound (min_n / den)) as [Hfl _].
    fold s in Hfl.
    apply Rle_trans with min_n; [|exact Hn].
    apply Rmult_le_reg_r with (/ den); [now apply Rinv_0_lt_compat|].
    replace (IZR s * den * / den) with (IZR s) by (field; lra).
    exact Hfl. }
  split; [reflexivity|]. split.
  { subst sh0. exists mult, rest. exact Eshifts. }
  exists ser, vb, ks, kappa0, bd.
  destruct (is_max_of_nat ks kappa0 Emax) as [Hin Hmax].
  repeat split; try assumption; try reflexivity.
Qed.

End ClassSuccess.

Lemma process_modZ_class_success_witness :
  (2 < Zfloor (50 / (Cmod (RtoC (-1))
                     + IZR (Z.abs (Zceil (IZR 1 + (Re (RtoC (-1)) + IZR 0)
                                          - Re (RtoC (-1))))))))%Z.
Proof.
  exact (proj1 (process_modZ_class_success
                  (BA := ExactBalls.exact_balls)
                  GeometricSeries.series GeometricSeries.tail
                  GeometricSeries.integral
                  (RtoC 1) 2 (IZR 1 + (Re (RtoC (-1)) + IZR 0)) 50 []
                  (RtoC (-1)) [(0%nat, 1%nat)]
                  (ClassData (RtoC (-1)) 0 [] [])
                  GeometricSeries.class_at_1)).
Defined.

(** ** Shape of the contribution of a singularity *)

Section ContributionShape.

Context {BA : BallArith}.
Variable critical_monomials : C -> list fund_sol.
Variable exponent_classes : C -> list (C * list (nat * nat)).
Variable my_log_series :
  C -> C -> list (nat * nat) -> Z -> result (list (list ball)).
Variable bound_tail :
  C -> C -> R -> Z -> list (list ball) -> result ball.
Variable bound_local_integral :
  C -> C -> Z -> Z -> R -> list (list ball) -> ball -> nat ->
  list square -> result (poly * list ball).

Lemma sum_samples_all_length (data : list class_data) (js : list nat) :
  forall vals,
    sum_samples_all data js = Ok vals -> List.length vals = List.length js.
Proof.
  induction js as [|j js IH]; intros vals; cbn [sum_samples_all].
  - intros [= <-]. reflexivity.
  - destruct (sum_samples data j); cbn [bind]; [|discriminate].
    destruct (sum_samples_all data js); cbn [bind]; [|discriminate].
    intros [= <-]. cbn [List.length]. f_equal. now apply IH.
Qed.

(** X11.  Whenever [contribution_single_singularity] returns the data of a
    singularity, there is at least one class of exponents; [list_val_rho]
    lists the leftmost exponents of the classes in order and [list_bound]
    has one polynomial for each of them; [val_big_circle] has one sample for
    each point of [coord_big_circle]; and [min_val_rho] is the valuation of
    the first critical monomial that is not analytic. *)
Theorem contribution_single_singularity_shape (rho : C) (rad : R)
    (coord_big_circle : list square) (rel_order : Z) (min_n : R)
    (c : contribution) :
  contribution_single_singularity critical_monomials exponent_classes
    my_log_series bound_tail bound_local_integral
    rho rad coord_big_circle rel_order min_n = Ok (Some c) ->
  exponent_classes rho <> []
  /\ list_val_rho c = map fst (exponent_classes rho)
  /\ List.length (list_bound c) = List.length (exponent_classes rho)
  /\ List.length (val_big_circle c) = List.length coord_big_circle
  /\ exists sol0 rest,
       filter (fun sol => negb (analytic_sol sol)) (critical_monomials rho)
       = sol0 :: rest
       /\ min_val_rho c = Re (fs_leftmost sol0) + IZR (fs_shift sol0).
Proof.
  unfold contribution_single_singularity.
  destruct (filter (fun sol => negb (analytic_sol sol))
              (critical_monomials rho)) as [|sol0 rest] eqn:Ef;
    [discriminate|].
  destruct (analyzer_run my_log_series bound_tail bound_local_integral
              rho rad
              (IZR rel_order + (Re (fs_leftmost sol0) + IZR (fs_shift sol0)))
              min_n coord_big_circle (exponent_classes rho))
    as [data|] eqn:Erun; cbn [bind]; [|discriminate].
  destruct (sum_samples_all data (seq 0 (List.length coord_big_circle)))
    as [vals|] eqn:Evals; cbn [bind]; [|discriminate].
  destruct (max_of_nat (map cd_kappa data)) as [mk|] eqn:Emk; cbn [bind];
    [|discriminate].
  intros [= <-].
  cbn [list_val_rho list_bound val_big_circle min_val_rho].
  pose proof (analyzer_run_leftmost my_log_series bound_tail
                bound_local_integral _ _ _ _ _ _ _ Erun) as Hleft.
  assert (Hlen : List.length data = List.length (exponent_classes rho)).
  { rewrite <- (length_map cd_leftmost data), Hleft. apply length_map. }
  split.
  { intros Hnil. rewrite Hnil in Hlen.
    destruct data; [discriminate Emk | discriminate Hlen]. }
  split; [exact Hleft|]. split; [now rewrite length_map|]. split.
  { rewrite (sum_samples_all_length _ _ _ Evals). apply length_seq. }
  exists sol0, rest. split; reflexivity.
Qed.

End ContributionShape.

Lemma contribution_single_singularity_shape_witness :
  GeometricSeries.classes (RtoC 1) <> []
  /\ [RtoC (-1)] = map fst (GeometricSeries.classes (RtoC 1)).
Proof.
  pose proof (contribution_single_singularity_shape
                (BA := ExactBalls.exact_balls)
                GeometricSeries.crit GeometricSeries.classes
                GeometricSeries.series GeometricSeries.tail
                GeometricSeries.integral (RtoC 1) 2 [] 1 50 _
                GeometricSeries.single_at_1) as (H1 & H2 & _).
  split; [exact H1 | exact H2].
Defined.

(** ** Derivatives of [exp(f)] *)

Lemma zmon_eqb_true (a b : zmon) : zmon_eqb a b = true -> a = b.
Proof. unfold zmon_eqb. now destruct (list_eq_dec Nat.eq_dec a b). Qed.

Lemma zp_eval_app (env : nat -> R) (p q : zpoly) :
  zp_eval env (p ++ q) = zp_eval env p + zp_eval env q.
Proof.
  induction p as [|[m c] p IH]; cbn [app zp_eval]; [ring|].
  rewrite IH. ring.
Qed.

Lemma zp_eval_add_term (env : nat -> R) (p : zpoly) (m : zmon) (c : Z) :
  zp_eval env (zp_add_term p m c)
  = zp_eval env p + IZR c * zmon_eval env 0 m.
Proof.
  induction p as [|[m' c'] p IH]; cbn [zp_add_term zp_eval]; [ring|].
  destruct (zmon_eqb m' m) eqn:E.
  - apply zmon_eqb_true in E. subst m'.
    destruct (c' + c =? 0)%Z eqn:E0.
    + apply Z.eqb_eq in E0.
      assert (H : IZR c' + IZR c = 0) by (rewrite <- plus_IZR, E0; reflexivity).
      replace (IZR c) with (- IZR c') by lra. ring.
    + cbn [zp_eval]. rewrite plus_IZR. ring.
  - cbn [zp_eval]. rewrite IH. ring.
Qed.

Lemma zp_eval_add (env : nat -> R) (q : zpoly) :
  forall p, zp_eval env (zp_add p q) = zp_eval env p + zp_eval env q.
Proof.
  unfold zp_add. induction q as [|[m c] q IH]; intros p;
    cbn [fold_left zp_eval fst snd]; [ring|].
  rewrite IH, zp_eval_add_term. ring.
Qed.

Lemma zmon_eval_bump (env : nat -> R) (m : zmon) :
  forall i j, (i < List.length m)%nat ->
    zmon_eval env j (bump i m) = env (j + i)%nat * zmon_eval env j m.
Proof.
  induction m as [|e m IH]; intros i j Hi; [simpl in Hi; lia|].
  destruct i as [|i]; cbn [bump zmon_eval].
  - rewrite Nat.add_0_r. simpl. ring.
  - rewrite IH by (simpl in Hi; lia).
    replace (S j + i)%nat with (j + S i)%nat by lia. ring.
Qed.

Lemma length_bump (i : nat) (m : zmon) :
  List.length (bump i m) = List.length m.
Proof.
  revert i. induction m as [|e m IH]; intros [|i]; simpl; auto.
Qed.

Lemma length_lower (i : nat) (m : zmon) :
  List.length (lower i m) = List.length m.
Proof.
  revert i. induction m as [|e m IH]; intros [|i]; simpl; auto.
Qed.

Lemma nth_bump_other (a i : nat) (m : zmon) :
  i <> a -> nth i (bump a m) 0%nat = nth i m 0%nat.
Proof.
  revert a i. induction m as [|e m IH]; intros [|a] [|i] H; simpl;
    try reflexivity; try contradiction.
  apply IH. lia.
Qed.

Lemma nth_lower_zero (a i : nat) (m : zmon) :
  nth i m 0%nat = 0%nat -> nth i (lower a m) 0%nat = 0%nat.
Proof.
  revert a i. induction m as [|e m IH]; intros [|a] [|i] H; simpl in *;
    try reflexivity; try assumption.
  - subst e. reflexivity.
  - now apply IH.
Qed.

(** Value of [x_(k+1) * derivative(m, x_k)] for a monomial [m] whose
    generators start at [x_j]. *)
Definition lie_term (env : nat -> R) (j : nat) (m : zmon) (k : nat) : R :=
  env (j + S k)%nat
  * (INR (nth k m 0%nat) * zmon_eval env j (lower k m)).

(** Derivative of the value of a monomial along a curve on which the
    derivative of [x_j] is [x_(j+1)]. *)
Fixpoint dmon (env : nat -> R) (j : nat) (m : zmon) : R :=
  match m with
  | [] => 0
  | e :: m' =>
      INR e * env j ^ pred e * env (S j) * zmon_eval env (S j) m'
      + env j ^ e * dmon env (S j) m'
  end.

Definition Rsum (l : list R) : R := fold_right Rplus 0 l.

Lemma Rsum_plus {A : Type} (f g : A -> R) (l : list A) :
  Rsum (map (fun k => f k + g k) l) = Rsum (map f l) + Rsum (map g l).
Proof.
  unfold Rsum. induction l as [|a l IH]; cbn [map fold_right]; [ring|].
  rewrite IH. ring.
Qed.

Lemma Rsum_scal {A : Type} (c : R) (f : A -> R) (l : list A) :
  Rsum (map (fun k => c * f k) l) = c * Rsum (map f l).
Proof.
  unfold Rsum. induction l as [|a l IH]; cbn [map fold_right]; [ring|].
  rewrite IH. ring.
Qed.

Lemma Rsum_ext {A : Type} (f g : A -> R) (l : list A) :
  (forall k, In k l -> f k = g k) ->
  Rsum (map f l) = Rsum (map g l).
Proof.
  intros H. unfold Rsum.
  induction l as [|a l IH]; cbn [map fold_right]; [reflexivity|].
  rewrite (H a (or_introl eq_refl)).
  rewrite IH; [reflexivity|]. intros k Hk. apply H. now right.
Qed.

Lemma lie_terms_sum (env : nat -> R) (m : zmon) :
  forall j,
    last m 0%nat = 0%nat ->
    Rsum (map (lie_term env j m) (seq 0 (List.length m - 1))) = dmon env j m.
Proof.
  induction m as [|e m IH]; intros j Hlast; [reflexivity|].
  destruct m as [|e1 m].
  - simpl in Hlast. subst e. simpl. ring.
  - replace (List.length (e :: e1 :: m) - 1)%nat
      with (S (List.length (e1 :: m) - 1)) by (simpl; lia).
    rewrite <- cons_seq, <- seq_shift. cbn [map]. rewrite map_map.
    unfold Rsum at 1. cbn [fold_right].
    change (fold_right Rplus 0
              (map (fun k => lie_term env j (e :: e1 :: m) (S k))
                 (seq 0 (List.length (e1 :: m) - 1))))
      with (Rsum (map (fun k => lie_term env j (e :: e1 :: m) (S k))
                    (seq 0 (List.length (e1 :: m) - 1)))).
    rewrite (Rsum_ext
               (fun k => lie_term env j (e :: e1 :: m) (S k))
               (fun k => env j ^ e * lie_term env (S j) (e1 :: m) k)).
    + rewrite Rsum_scal, IH by exact Hlast.
      unfold lie_term. cbn [nth lower zmon_eval dmon].
      replace (j + 1)%nat with (S j) by lia. ring.
    + intros k _. unfold lie_term. cbn [nth lower zmon_eval].
      replace (j + S (S k))%nat with (S j + S k)%nat by lia. ring.
Qed.

Lemma zp_eval_lie_one (env : nat -> R) (m : zmon) (c : Z) (k : nat) :
  (S k < List.length m)%nat ->
  zp_eval env (zp_mul_gen (S k) (zp_diff k [(m, c)]))
  = IZR c * lie_term env 0 m k.
Proof.
  intros Hk. unfold zp_diff, zp_mul_gen, lie_term.
  cbn [flat_map fst snd app]. rewrite app_nil_r.
  destruct (nth k m 0%nat) as [|e] eqn:E.
  - simpl. ring.
  - cbn [map zp_eval fst snd].
    rewrite zmon_eval_bump by (now rewrite length_lower).
    rewrite mult_IZR, <- INR_IZR_INZ. cbn [Nat.add]. ring.
Qed.

Lemma zp_eval_lie_cons (env : nat -> R) (t : zmon * Z) (p : zpoly)
    (k : nat) :
  zp_eval env (zp_mul_gen (S k) (zp_diff k (t :: p)))
  = zp_eval env (zp_mul_gen (S k) (zp_diff k [t]))
    + zp_eval env (zp_mul_gen (S k) (zp_diff k p)).
Proof.
  unfold zp_mul_gen, zp_diff. cbn [flat_map]. rewrite app_nil_r.
  now rewrite map_app, zp_eval_app.
Qed.

Lemma zp_eval_fold_add (env : nat -> R) (g : nat -> zpoly) (ks : list nat) :
  forall init,
    zp_eval env (fold_left (fun acc k => zp_add acc (g k)) ks init)
    = zp_eval env init + Rsum (map (fun k => zp_eval env (g k)) ks).
Proof.
  unfold Rsum. induction ks as [|k ks IH]; intros init;
    cbn [fold_left map fold_right]; [ring|].
  rewrite IH, zp_eval_add. ring.
Qed.

(** Derivative of the value of a polynomial along the curve. *)
Fixpoint dpoly (env : nat -> R) (p : zpoly) : R :=
  match p with
  | [] => 0
  | (m, c) :: p' => IZR c * dmon env 0 m + dpoly env p'
  end.

(** [Lie_der] computes the derivative along the curve, for a polynomial in
    which the last generator of the ring does not occur. *)
Lemma zp_eval_Lie_der (env : nat -> R) (n : nat) (p : zpoly) :
  (forall m c, In (m, c) p ->
     List.length m = n /\ last m 0%nat = 0%nat) ->
  zp_eval env (Lie_der p n) = dpoly env p.
Proof.
  intros Hp. unfold Lie_der. rewrite zp_eval_fold_add. cbn [zp_eval].
  rewrite Rplus_0_l.
  induction p as [|[m c] p IH]; cbn [dpoly].
  - unfold zp_diff, zp_mul_gen. cbn [flat_map map zp_eval].
    unfold Rsum. induction (seq 0 (n - 1)) as [|a l IHl];
      cbn [map fold_right]; [reflexivity | rewrite IHl; ring].
  - destruct (Hp m c (or_introl eq_refl)) as [Hlen Hlast].
    rewrite (Rsum_ext _
               (fun k => IZR c * lie_term env 0 m k
                         + zp_eval env (zp_mul_gen (S k) (zp_diff k p)))).
    + rewrite Rsum_plus, Rsum_scal, IH.
      * rewrite <- Hlen, lie_terms_sum by exact Hlast. reflexivity.
      * intros m' c' H. apply (Hp m' c'). now right.
    + intros k Hk. apply in_seq in Hk.
      rewrite zp_eval_lie_cons, zp_eval_lie_one by lia. reflexivity.
Qed.

Section DerivativeAlongCurve.

(** [F 0] is [f], [F 1] its derivative, and so on. *)
Variable F : nat -> R -> R.
Hypothesis F_deriv : forall i x, derivable_pt_lim (F i) x (F (S i) x).

Lemma zmon_eval_deriv (m : zmon) :
  forall j x,
    derivable_pt_lim (fun y => zmon_eval (fun i => F (S i) y) j m) x
      (dmon (fun i => F (S i) x) j m).
Proof.
  induction m as [|e m IH]; intros j x; cbn [zmon_eval dmon].
  - apply (derivable_pt_lim_const 1 x).
  - pose proof (derivable_pt_lim_comp (F (S j)) (fun z => z ^ e) x _ _
                  (F_deriv (S j) x) (derivable_pt_lim_pow (F (S j) x) e))
      as Hpow.
    pose proof (derivable_pt_lim_mult _ _ x _ _ Hpow (IH (S j) x)) as H.
    unfold mult_fct, comp in H.
    exact H.
Qed.

Lemma zp_eval_deriv (p : zpoly) (x : R) :
  derivable_pt_lim (fun y => zp_eval (fun i => F (S i) y) p) x
    (dpoly (fun i => F (S i) x) p).
Proof.
  induction p as [|[m c] p IH]; cbn [zp_eval dpoly].
  - apply (derivable_pt_lim_const 0 x).
  - apply (derivable_pt_lim_plus
             (fun y => IZR c * zmon_eval (fun i => F (S i) y) 0 m)
             (fun y => zp_eval (fun i => F (S i) y) p) x _ _);
      [|exact IH].
    apply (derivable_pt_lim_scal
             (fun y => zmon_eval (fun i => F (S i) y) 0 m) (IZR c) x).
    apply zmon_eval_deriv.
Qed.

End DerivativeAlongCurve.

(** Monomials of a sum. *)
Definition all_mons (P : zmon -> Prop) (p : zpoly) : Prop :=
  forall m c, In (m, c) p -> P m.

Lemma all_mons_add_term (P : zmon -> Prop) (p : zpoly) (m : zmon) (c : Z) :
  all_mons P p -> P m -> all_mons P (zp_add_term p m c).
Proof.
  intros Hp Hm. induction p as [|[m' c'] p IH]; cbn [zp_add_term].
  - intros m0 c0 [[= <- <-]|[]]. exact Hm.
  - assert (Hp' : all_mons P p)
      by (intros m0 c0 H; apply (Hp m0 c0); now right).
    destruct (zmon_eqb m' m).
    + destruct (c' + c =? 0)%Z; [exact Hp'|].
      intros m0 c0 [[= <- <-]|H];
        [apply (Hp m' c'); now left | now apply (Hp' m0 c0)].
    + intros m0 c0 [[= <- <-]|H];
        [apply (Hp m' c'); now left | now apply (IH Hp' m0 c0)].
Qed.

Lemma all_mons_add (P : zmon -> Prop) (q : zpoly) :
  forall p, all_mons P p -> all_mons P q -> all_mons P (zp_add p q).
Proof.
  unfold zp_add. induction q as [|[m c] q IH]; intros p Hp Hq;
    cbn [fold_left fst snd]; [exact Hp|].
  apply IH.
  - apply all_mons_add_term; [exact Hp | apply (Hq m c); now left].
  - intros m0 c0 H. apply (Hq m0 c0). now right.
Qed.

Lemma all_mons_fold (P : zmon -> Prop) (g : nat -> zpoly) (ks : list nat) :
  forall init,
    all_mons P init -> (forall k, In k ks -> all_mons P (g k)) ->
    all_mons P (fold_left (fun acc k => zp_add acc (g k)) ks init).
Proof.
  induction ks as [|k ks IH]; intros init Hinit Hg; cbn [fold_left];
    [exact Hinit|].
  apply IH.
  - apply all_mons_add; [exact Hinit | apply Hg; now left].
  - intros k' Hk'. apply Hg. now right.
Qed.

(** Exponent tuples of length [n] in the generators [x_0 .. x_(k-1)]. *)
Definition below (n k : nat) (m : zmon) : Prop :=
  List.length m = n /\ forall i, (k <= i)%nat -> nth i m 0%nat = 0%nat.

Lemma below_last (n k : nat) (m : zmon) :
  below n k m -> (k < n)%nat -> last m 0%nat = 0%nat.
Proof.
  intros [Hlen Hz] Hk.
  destruct (exists_last (l := m)) as (m' & e & ->).
  { intros ->. simpl in Hlen. lia. }
  rewrite last_last. specialize (Hz (List.length m')).
  rewrite nth_middle in Hz. apply Hz.
  rewrite length_app in Hlen. simpl in Hlen. lia.
Qed.

Lemma below_mul_gen_0 (n k : nat) (p : zpoly) :
  all_mons (below n k) p -> all_mons (below n (S k)) (zp_mul_gen 0 p).
Proof.
  intros Hp m c Hin. unfold zp_mul_gen in Hin.
  apply in_map_iff in Hin as ([m' c'] & Heq & Hin).
  apply (f_equal fst) in Heq. cbn [fst] in Heq. subst m.
  destruct (Hp m' c' Hin) as [Hlen Hz]. split.
  - now rewrite length_bump.
  - intros i Hi. rewrite nth_bump_other by lia. apply Hz. lia.
Qed.

Lemma below_Lie_der (n k : nat) (p : zpoly) :
  all_mons (below n k) p -> all_mons (below n (S k)) (Lie_der p n).
Proof.
  intros Hp. unfold Lie_der. apply all_mons_fold.
  - intros m c [].
  - intros j _ m c Hin. unfold zp_mul_gen in Hin.
    apply in_map_iff in Hin as ([m1 c1] & Heq & Hin).
    apply (f_equal fst) in Heq. cbn [fst] in Heq. subst m.
    unfold zp_diff in Hin.
    apply in_flat_map in Hin as ([m' c'] & Hin' & Hin). cbn [fst snd] in Hin.
    destruct (nth j m' 0%nat) as [|e] eqn:E; [destruct Hin|].
    destruct Hin as [Heq|[]].
    apply (f_equal fst) in Heq. cbn [fst] in Heq. subst m1.
    destruct (Hp m' c' Hin') as [Hlen Hz]. split.
    + now rewrite length_bump, length_lower.
    + intros i Hi.
      assert (Hj : (j < k)%nat).
      { destruct (Nat.lt_ge_cases j k) as [H|H]; [exact H|].
        rewrite (Hz j H) in E. discriminate E. }
      rewrite nth_bump_other by lia.
      apply nth_lower_zero. apply Hz. lia.
Qed.

Section ExpDerivatives.

Variable F : nat -> R -> R.
Hypothesis F_deriv : forall i x, derivable_pt_lim (F i) x (F (S i) x).

(** In a ring with at least [k] generators [_der_expf_R(k, R)] returns a
    polynomial in the first [k] generators whose value at [f', f'', ...],
    times [exp(f)], is the [k]-th derivative of [exp(f)]. *)
Lemma der_expf_R_correct (ngens : nat) :
  forall k, (k <= ngens)%nat ->
    exists p,
      _der_expf_R k ngens = Ok p
      /\ all_mons (below ngens k) p
      /\ is_nth_deriv k (fun x => exp (F 0%nat x))
           (fun x => zp_eval (fun i => F (S i) x) p * exp (F 0%nat x)).
Proof.
  induction k as [|k IH]; intros Hk.
  - eexists. split; [reflexivity|]. split.
    + intros m c [[= <- <-]|[]]. split; [apply repeat_length|].
      intros i _. apply nth_repeat.
    + intros x. cbn [is_nth_deriv zp_eval].
      assert (H : forall j, zmon_eval (fun i => F (S i) x) j
                              (repeat 0%nat ngens) = 1).
      { induction ngens as [|n IHn]; intros j; cbn [repeat zmon_eval];
          [reflexivity|]. rewrite IHn by lia. simpl. ring. }
      rewrite H. ring.
  - destruct IH as (p & Ep & Hinv & Hder); [lia|].
    cbn [_der_expf_R]. rewrite Ep. cbn [bind].
    destruct (ngens =? 0)%nat eqn:E0; [apply Nat.eqb_eq in E0; lia|].
    eexists. split; [reflexivity|]. split.
    + apply all_mons_add;
        [now apply below_mul_gen_0 | now apply below_Lie_der].
    + cbn [is_nth_deriv].
      exists (fun x => zp_eval (fun i => F (S i) x) p * exp (F 0%nat x)).
      split; [exact Hder|]. intros x.
      rewrite zp_eval_add.
      replace (zp_eval (fun i => F (S i) x) (zp_mul_gen 0 p))
        with (F 1%nat x * zp_eval (fun i => F (S i) x) p).
      2:{ clear -Hinv Hk. induction p as [|[m c] p IHp];
            cbn [zp_mul_gen map zp_eval fst snd]; [ring|].
          fold (zp_mul_gen 0 p).
          rewrite <- IHp
            by (intros m0 c0 H; apply (Hinv m0 c0); now right).
          destruct (Hinv m c (or_introl eq_refl)) as [Hlen _].
          rewrite zmon_eval_bump by lia. cbn [Nat.add]. ring. }
      rewrite (zp_eval_Lie_der _ ngens p).
      2:{ intros m c Hin. destruct (Hinv m c Hin) as [Hlen Hz].
          split; [exact Hlen|].
          apply (below_last ngens k); [now split | lia]. }
      pose proof (derivable_pt_lim_comp (F 0%nat) exp x _ _
                    (F_deriv 0%nat x) (derivable_pt_lim_exp (F 0%nat x)))
        as Hexp.
      pose proof (derivable_pt_lim_mult _ _ x _ _
                    (zp_eval_deriv F F_deriv p x) Hexp) as H.
      unfold mult_fct, comp in H.
      replace ((F 1%nat x * zp_eval (fun i => F (S i) x) p
                + dpoly (fun i => F (S i) x) p) * exp (F 0%nat x))
        with (dpoly (fun i => F (S i) x) p * exp (F 0%nat x)
              + zp_eval (fun i => F (S i) x) p
                * (exp (F 0%nat x) * F 1%nat x)) by ring.
      exact H.
Qed.

End ExpDerivatives.

(** X12.  For a function [f] with derivatives of every order ([F 0 = f],
    [F 1 = f'], ...), [der_expf(k)] returns, for every [k], a polynomial
    whose value at [f', f'', ..., f^(k)] times [exp(f)] is the [k]-th
    derivative of [exp(f)]; the same holds for [_der_expf_R(k, R)] in any
    ring with at least [k] generators, and the polynomial involves the first
    [k] generators only, so that [Lie_der], which does not differentiate
    with respect to the last generator, loses no term. *)
Theorem der_expf_correct (F : nat -> R -> R) (k ngens : nat) :
  (forall i x, derivable_pt_lim (F i) x (F (S i) x)) ->
  (k <= ngens)%nat ->
  (exists p,
     _der_expf_R k ngens = Ok p
     /\ (forall m c, In (m, c) p ->
           List.length m = ngens
           /\ forall i, (k <= i)%nat -> nth i m 0%nat = 0%nat)
     /\ is_nth_deriv k (fun x => exp (F 0%nat x))
          (fun x => zp_eval (fun i => F (S i) x) p * exp (F 0%nat x)))
  /\ exists p,
       der_expf k = Ok p
       /\ is_nth_deriv k (fun x => exp (F 0%nat x))
            (fun x => zp_eval (fun i => F (S i) x) p * exp (F 0%nat x)).
Proof.
  intros HF Hk. split.
  - destruct (der_expf_R_correct F HF ngens k Hk) as (p & Ep & Hinv & Hd).
    exists p. split; [exact Ep|]. split; [exact Hinv | exact Hd].
  - destruct (der_expf_R_correct F HF k k (le_n k)) as (p & Ep & _ & Hd).
    exists p. split; [exact Ep | exact Hd].
Qed.

Lemma der_expf_correct_witness :
  exists p,
    der_expf 2 = Ok p
    /\ is_nth_deriv 2 (fun x => exp (exp x))
         (fun x => zp_eval (fun _ => exp x) p * exp (exp x)).
Proof.
  exact (proj2 (der_expf_correct (fun _ => exp) 2 2
                  (fun _ x => derivable_pt_lim_exp x) (le_n 2))).
Defined.

(** ** The local series of a class of exponents *)

Section MyLogSeriesProperties.

Context {BA : BallArith}.
Variable coef : Type.
Variable b_scale : ball -> coef -> ball.
Variable log_series :
  C -> list (Z * nat) -> Z * nat -> list (nat * nat) -> Z ->
  result (list (list coef)).

Lemma add_row_length (c : ball) (sr : list coef) :
  forall row r,
    add_row coef b_scale c row sr = Ok r ->
    List.length r = List.length row.
Proof.
  induction sr as [|a sr IH]; intros row r; cbn [add_row].
  - intros [= <-]. reflexivity.
  - destruct row as [|y row]; [discriminate|].
    destruct (add_row coef b_scale c row sr) as [r'|] eqn:E; cbn [bind];
      [|discriminate].
    intros [= <-]. cbn [List.length]. f_equal. now apply IH.
Qed.

Lemma add_rows_shape (c : ball) (len : nat) (n : nat) :
  forall res ser rs,
    add_rows coef b_scale c n res ser = Ok rs ->
    Forall (fun row => List.length row = len) res ->
    List.length rs = List.length res
    /\ Forall (fun row => List.length row = len) rs.
Proof.
  induction n as [|n IH]; intros res ser rs; cbn [add_rows].
  - intros [= <-] H. split; [reflexivity | exact H].
  - destruct ser as [|sr ser]; [discriminate|].
    destruct res as [|row res]; [discriminate|].
    destruct (add_row coef b_scale c row sr) as [r|] eqn:Er; cbn [bind];
      [|discriminate].
    destruct (add_rows coef b_scale c n res ser) as [rs'|] eqn:Ers;
      cbn [bind]; [|discriminate].
    intros [= <-] H. inversion H as [|? ? Hrow Hres]; subst.
    destruct (IH res ser rs' Ers Hres) as [Hl Hf]. split.
    + cbn [List.length]. now f_equal.
    + constructor; [|exact Hf].
      now rewrite (add_row_length c sr row r Er).
Qed.

Lemma add_rows_length (c : ball) (n : nat) :
  forall res ser rs,
    add_rows coef b_scale c n res ser = Ok rs ->
    List.length rs = List.length res.
Proof.
  induction n as [|n IH]; intros res ser rs; cbn [add_rows].
  - intros [= <-]. reflexivity.
  - destruct ser as [|sr ser]; [discriminate|].
    destruct res as [|row res]; [discriminate|].
    destruct (add_row coef b_scale c row sr) as [r|]; cbn [bind];
      [|discriminate].
    destruct (add_rows coef b_scale c n res ser) as [rs'|] eqn:Ers;
      cbn [bind]; [|discriminate].
    intros [= <-]. cbn [List.length]. f_equal. now apply (IH res ser).
Qed.

(** The loop over the initial values, from an accumulator. *)
Definition series_loop (leftmost : C) (mults : list (nat * nat))
    (keys : list (Z * nat)) (order : Z)
    (l : list (fund_sol * ball)) (acc : result (list (list ball)))
    : result (list (list ball)) :=
  fold_left
    (fun acc sc =>
       res <- acc ;;
       if b_is_zero (snd sc) || negb (Ceqb (fs_leftmost (fst sc)) leftmost)
       then Ok res
       else
         ser <- log_series leftmost keys
                  (fs_shift (fst sc), fs_log_power (fst sc)) mults order ;;
         add_rows coef b_scale (snd sc) (Z.to_nat order) res ser)
    l acc.

Lemma series_loop_cons (leftmost : C) (mults : list (nat * nat))
    (keys : list (Z * nat)) (order : Z) (sc : fund_sol * ball)
    (l : list (fund_sol * ball)) (acc : result (list (list ball))) :
  series_loop leftmost mults keys order (sc :: l) acc
  = series_loop leftmost mults keys order l
      (res <- acc ;;
       if b_is_zero (snd sc) || negb (Ceqb (fs_leftmost (fst sc)) leftmost)
       then Ok res
       else
         ser <- log_series leftmost keys
                  (fs_shift (fst sc), fs_log_power (fst sc)) mults order ;;
         add_rows coef b_scale (snd sc) (Z.to_nat order) res ser).
Proof. reflexivity. Qed.

Lemma series_loop_raise (leftmost : C) (mults : list (nat * nat))
    (keys : list (Z * nat)) (order : Z) (l : list (fund_sol * ball))
    (e : exn) :
  series_loop leftmost mults keys order l (Raise e) = Raise e.
Proof. induction l as [|sc l IH]; [reflexivity | exact IH]. Qed.

Lemma series_loop_shape (leftmost : C) (mults : list (nat * nat))
    (keys : list (Z * nat)) (order : Z) (len n : nat)
    (l : list (fund_sol * ball)) :
  forall res0 res,
    series_loop leftmost mults keys order l (Ok res0) = Ok res ->
    List.length res0 = n ->
    Forall (fun row => List.length row = len) res0 ->
    List.length res = n /\ Forall (fun row => List.length row = len) res.
Proof.
  induction l as [|sc l IH]; intros res0 res.
  - intros [= <-] Hn Hf. split; assumption.
  - rewrite series_loop_cons. cbn [bind].
    destruct (b_is_zero (snd sc)
              || negb (Ceqb (fs_leftmost (fst sc)) leftmost)).
    + apply IH.
    + destruct (log_series leftmost keys
                  (fs_shift (fst sc), fs_log_power (fst sc)) mults order)
        as [ser|e]; cbn [bind];
        [|rewrite series_loop_raise; discriminate].
      destruct (add_rows coef b_scale (snd sc) (Z.to_nat order) res0 ser)
        as [rs|e] eqn:Ers; [|rewrite series_loop_raise; discriminate].
      intros Hrun Hn Hf.
      destruct (add_rows_shape (snd sc) len _ _ _ _ Ers Hf) as [Hl Hf'].
      apply (IH rs res Hrun); [congruence | exact Hf'].
Qed.

Lemma series_loop_zero (leftmost : C) (mults : list (nat * nat))
    (keys : list (Z * nat)) (order : Z) (l : list (fund_sol * ball)) :
  (forall sol c, In (sol, c) l ->
     b_is_zero c = true \/ Ceqb (fs_leftmost sol) leftmost = false) ->
  forall res0, series_loop leftmost mults keys order l (Ok res0) = Ok res0.
Proof.
  induction l as [|[sol c] l IH]; intros Hl res0; [reflexivity|].
  rewrite series_loop_cons. cbn [bind fst snd].
  replace (b_is_zero c || negb (Ceqb (fs_leftmost sol) leftmost))
    with true.
  - apply IH. intros sol' c' H. apply Hl. now right.
  - symmetry. destruct (Hl sol c (or_introl eq_refl)) as [-> | ->];
      [reflexivity | apply orb_true_r].
Qed.

Lemma log_powers_defined (shifts : list (nat * nat)) (order1 : Z)
    (ser : list (list ball)) :
  List.length ser = Z.to_nat order1 ->
  exists ks, log_powers shifts order1 ser = Ok ks.
Proof.
  intros Hlen. induction shifts as [|[shift mult] shifts [ks IH]];
    cbn [log_powers].
  - eexists. reflexivity.
  - destruct (Z.of_nat shift <? order1)%Z eqn:E; [|now exists ks].
    apply Z.ltb_lt in E.
    destruct (nth_error ser shift) as [row|] eqn:Erow.
    + rewrite IH. cbn [bind]. eexists. reflexivity.
    + apply nth_error_None in Erow. lia.
Qed.

(** X13.  Whenever [_my_log_series] returns, the result has exactly [order]
    rows (none for a negative [order]), each with one entry for each unit of
    multiplicity in [mults]; hence [ser[shift]] is defined for every shift
    below [order], and the computation of [kappa] in [process_modZ_class]
    never fails with an [IndexError]. *)
Theorem my_log_series_shape (inivec : list ball) (leftmost : C)
    (mults : list (nat * nat)) (struct : list fund_sol) (order : Z)
    (res : list (list ball)) :
  _my_log_series coef b_scale log_series inivec leftmost mults struct order
  = Ok res ->
  List.length res = Z.to_nat order
  /\ (forall row, In row res ->
        List.length row
        = fold_left (fun acc sm => (acc + snd sm)%nat) mults 0%nat)
  /\ forall shifts, exists ks, log_powers shifts order res = Ok ks.
Proof.
  intros Hrun. unfold _my_log_series in Hrun.
  match type of Hrun with
  | fold_left ?f ?l (Ok ?r0) = _ =>
      change (fold_left f l (Ok r0))
        with (series_loop leftmost mults
                (map (fun sol1 => (fs_shift sol1, fs_log_power sol1))
                   (filter (fun sol1 => Ceqb (fs_leftmost sol1) leftmost)
                      struct))
                order l (Ok r0)) in Hrun
  end.
  apply (series_loop_shape _ _ _ _
           (fold_left (fun acc sm => (acc + snd sm)%nat) mults 0%nat)
           (Z.to_nat order)) in Hrun as [Hlen Hrows].
  - split; [exact Hlen|]. split.
    + intros row Hrow. rewrite Forall_forall in Hrows. now apply Hrows.
    + intros shifts. now apply log_powers_defined.
  - apply repeat_length.
  - apply Forall_forall. intros row Hrow. apply repeat_spec in Hrow.
    subst row. apply repeat_length.
Qed.

End MyLogSeriesProperties.

Lemma my_log_series_shape_witness :
  exists res : list (list ExactBalls.eball),
    _my_log_series (BA := ExactBalls.exact_balls) R (fun c _ => c)
      (fun _ _ _ _ _ => Ok [[1]])
      [ExactBalls.e_of_real 1] (RtoC (-1)) [(0%nat, 1%nat)]
      [FundSol (RtoC (-1)) 0 0 []] 1 = Ok res
    /\ List.length res = Z.to_nat 1.
Proof.
  assert (E : _my_log_series (BA := ExactBalls.exact_balls) R (fun c _ => c)
                (fun _ _ _ _ _ => Ok [[1]])
                [ExactBalls.e_of_real 1] (RtoC (-1)) [(0%nat, 1%nat)]
                [FundSol (RtoC (-1)) 0 0 []] 1
              = Ok [[ExactBalls.e_add (ExactBalls.e_of_real 0)
                       (ExactBalls.e_of_real 1)]]).
  { unfold _my_log_series.
    cbn [combine fold_left bind fst snd fs_leftmost b_is_zero
         ExactBalls.exact_balls ExactBalls.e_is_zero ExactBalls.e_of_real].
    change C0 with (RtoC 0).
    rewrite (GeometricSeries.Ceqb_RtoC_false 1 0) by lra.
    replace (Ceqb (RtoC (-1)) (RtoC (-1))) with true
      by (symmetry; now apply Ceqb_true).
    reflexivity. }
  eexists. split; [exact E|].
  exact (proj1 (my_log_series_shape (BA := ExactBalls.exact_balls)
                  R (fun c _ => c) (fun _ _ _ _ _ => Ok [[1]])
                  [ExactBalls.e_of_real 1] (RtoC (-1)) [(0%nat, 1%nat)]
                  [FundSol (RtoC (-1)) 0 0 []] 1 _ E)).
Defined.

(** ** A class of exponents without contribution *)

Section ZeroClass.

Context {BA : BallArith}.
Variable coef : Type.
Variable b_scale : ball -> coef -> ball.
Variable log_series :
  C -> list (Z * nat) -> Z * nat -> list (nat * nat) -> Z ->
  result (list (list coef)).
Variable bound_tail :
  C -> C -> R -> Z -> list (list ball) -> result ball.
Variable bound_local_integral :
  C -> C -> Z -> Z -> R -> list (list ball) -> ball -> nat ->
  list square -> result (poly * list ball).

Lemma nonzero_indices_zero (len : nat) :
  b_is_zero (b_of_real 0) = true ->
  forall k, nonzero_indices k (repeat (b_of_real 0) len) = [].
Proof.
  intros Hz. induction len as [|len IH]; intros k;
    cbn [repeat nonzero_indices]; [reflexivity|].
  rewrite Hz. apply IH.
Qed.

Lemma log_powers_zero (shifts : list (nat * nat)) (order1 : Z)
    (len : nat) :
  b_is_zero (b_of_real 0) = true ->
  log_powers shifts order1
    (repeat (repeat (b_of_real 0) len) (Z.to_nat order1)) = Ok [].
Proof.
  intros Hz. induction shifts as [|[shift mult] shifts IH];
    cbn [log_powers]; [reflexivity|].
  destruct (Z.of_nat shift <? order1)%Z eqn:E; [|exact IH].
  apply Z.ltb_lt in E.
  rewrite (nth_error_repeat (repeat (b_of_real 0) len)) by lia.
  rewrite IH. cbn [bind]. now rewrite nonzero_indices_zero.
Qed.

(** X14.  A class in which the solution has no component.  When every
    initial value of the vector is exactly zero or belongs to another class
    of exponents, [_my_log_series] returns the zero series without calling
    [log_series]; then, once the tail bound is computed and the guard on
    [s] and the assertion on the shifts have passed, [process_modZ_class]
    fails with the [ValueError] of [max()] on an empty sequence: no
    coefficient of the series is non-zero.  ([CB(0).is_zero()] holds in
    Arb.) *)
Theorem zero_class_max_error (inivec : list ball)
    (struct : list fund_sol) (rho : C) (rad abs_order min_n : R)
    (coord_big_circle : list square) (leftmost : C)
    (shifts : list (nat * nat)) (mult : nat) (rest : list (nat * nat))
    (vb : ball) :
  let order := Zceil (abs_order - Re leftmost) in
  let order1 := (order + 49)%Z in
  let den := Cmod leftmost + IZR (Z.abs order) in
  let zero_series :=
    repeat (repeat (b_of_real 0)
              (fold_left (fun acc sm => (acc + snd sm)%nat) shifts 0%nat))
           (Z.to_nat order1) in
  b_is_zero (b_of_real 0) = true ->
  (forall sol c, In (sol, c) (combine struct inivec) ->
     b_is_zero c = true \/ Ceqb (fs_leftmost sol) leftmost = false) ->
  bound_tail rho leftmost (rad - Cmod rho) order zero_series = Ok vb ->
  den <> 0 -> (2 < Zfloor (min_n / den))%Z ->
  shifts = (0%nat, mult) :: rest -> (0 < order1)%Z ->
  _my_log_series coef b_scale log_series inivec leftmost shifts struct order1
  = Ok zero_series
  /\ process_modZ_class
       (fun _ leftmost shifts order1 =>
          _my_log_series coef b_scale log_series inivec leftmost shifts
            struct order1)
       bound_tail bound_local_integral
       rho rad abs_order min_n coord_big_circle leftmost shifts
     = Raise (ValueError empty_max).
Proof.
  intros order order1 den zero_series Hz Hini Hvb Hden Hs Hshifts Horder1.
  assert (Hser : _my_log_series coef b_scale log_series inivec leftmost
                   shifts struct order1 = Ok zero_series).
  { unfold _my_log_series.
    apply (series_loop_zero coef b_scale log_series leftmost shifts _
             order1 (combine struct inivec) Hini). }
  split; [exact Hser|].
  unfold process_modZ_class. fold order. fold order1.
  rewrite Hser. cbn [bind]. rewrite Hvb. cbn [bind]. fold den.
  destruct (Req_dec_T den 0) as [H|_]; [contradiction|].
  replace (Zfloor (min_n / den) <=? 2)%Z with false
    by (symmetry; apply Z.leb_gt; exact Hs).
  replace (first_of shifts) with (@Ok (nat * nat) (0%nat, mult))
    by (now rewrite Hshifts).
  cbn [bind fst].
  replace ((0 =? 0)%nat && (0 <? order1)%Z) with true
    by (symmetry; apply andb_true_iff; split;
        [reflexivity | now apply Z.ltb_lt]).
  cbn [negb]. unfold zero_series. rewrite log_powers_zero by exact Hz.
  reflexivity.
Qed.

End ZeroClass.

Lemma zero_class_max_error_witness :
  process_modZ_class (BA := ExactBalls.exact_balls)
    (fun _ leftmost shifts order1 =>
       _my_log_series (BA := ExactBalls.exact_balls) R (fun c _ => c)
         (fun _ _ _ _ _ => Ok [[1]])
         [ExactBalls.e_of_real 0] leftmost shifts
         [FundSol (RtoC (-1)) 0 0 []] order1)
    GeometricSeries.tail GeometricSeries.integral
    (RtoC 1) 2 0 50 [] (RtoC (-1)) [(0%nat, 1%nat)]
  = Raise (ValueError empty_max).
Proof.
  assert (Ho : Zceil (0 - Re (RtoC (-1))) = 1%Z)
    by (apply Zceil_eq; simpl; lra).
  assert (Hz : ExactBalls.e_is_zero (ExactBalls.e_of_real 0) = true).
  { unfold ExactBalls.e_is_zero, ExactBalls.e_of_real.
    rewrite Reqb_refl.
    replace (Ceqb (RtoC 0) C0) with true
      by (symmetry; now apply Ceqb_true).
    reflexivity. }
  assert (Hini : forall sol c,
            In (sol, c)
              (combine [FundSol (RtoC (-1)) 0 0 []]
                 [ExactBalls.e_of_real 0]) ->
            ExactBalls.e_is_zero c = true
            \/ Ceqb (fs_leftmost sol) (RtoC (-1)) = false).
  { intros sol c [H|[]]. left.
    replace c with (ExactBalls.e_of_real 0) by congruence. exact Hz. }
  assert (Hden : Cmod (RtoC (-1))
                 + IZR (Z.abs (Zceil (0 - Re (RtoC (-1))))) <> 0).
  { rewrite Ho, GeometricSeries.Cmod_m1. simpl. lra. }
  assert (Hs : (2 < Zfloor (50 / (Cmod (RtoC (-1))
                  + IZR (Z.abs (Zceil (0 - Re (RtoC (-1))))))))%Z).
  { rewrite Ho, GeometricSeries.Cmod_m1. simpl Z.abs.
    replace (Zfloor (50 / (1 + 1))) with 25%Z
      by (symmetry; apply Zfloor_eq; lra).
    lia. }
  assert (Ho1 : (0 < Zceil (0 - Re (RtoC (-1))) + 49)%Z)
    by (rewrite Ho; lia).
  exact (proj2 (zero_class_max_error (BA := ExactBalls.exact_balls)
                  R (fun c _ => c) (fun _ _ _ _ _ => Ok [[1]])
                  GeometricSeries.tail GeometricSeries.integral
                  [ExactBalls.e_of_real 0] [FundSol (RtoC (-1)) 0 0 []]
                  (RtoC 1) 2 0 50 [] (RtoC (-1)) [(0%nat, 1%nat)]
                  1%nat [] (ExactBalls.e_of_real 0)
                  Hz Hini eq_refl Hden Hs eq_refl Ho1)).
Defined.

(** ** Enclosure of the local series *)

Section MyLogSeriesEnclosure.

Context {BA : BallArith}.
Variable coef : Type.
Variable b_scale : ball -> coef -> ball.
Variable log_series :
  C -> list (Z * nat) -> Z * nat -> list (nat * nat) -> Z ->
  result (list (list coef)).

(** The complex number that an exact coefficient stands for, and the
    enclosure contract of the product of a ball by an exact coefficient. *)
Variable coef_val : coef -> C.
Hypothesis b_scale_ok :
  forall c z a, contains c z -> contains (b_scale c a) (Cmul z (coef_val a)).

(** Entry [j] of a row of exact coefficients, 0 past its end. *)
Definition row_entry (sr : list coef) (j : nat) : C :=
  match nth_error sr j with
  | Some a => coef_val a
  | None => C0
  end.

(** Entry [(i, j)] of an exact series. *)
Definition series_entry (ser : list (list coef)) (i j : nat) : C :=
  match nth_error ser i with
  | Some sr => row_entry sr j
  | None => C0
  end.

(** The linear combination [sum of z * ser] of exact series. *)
Fixpoint lin_comb (terms : list (C * list (list coef))) (i j : nat) : C :=
  match terms with
  | [] => C0
  | (z, ser) :: terms' =>
      Cadd (Cmul z (series_entry ser i j)) (lin_comb terms' i j)
  end.

(** The exact series that [_my_log_series] combines: one for each initial
    value that is not skipped, with the complex number [z] that the ball of
    the initial value stands for. *)
Fixpoint series_terms (leftmost : C) (mults : list (nat * nat))
    (keys : list (Z * nat)) (order : Z)
    (l : list (fund_sol * ball * C)) : list (C * list (list coef)) :=
  match l with
  | [] => []
  | (sol, c, z) :: l' =>
      if b_is_zero c || negb (Ceqb (fs_leftmost sol) leftmost)
      then series_terms leftmost mults keys order l'
      else
        match log_series leftmost keys (fs_shift sol, fs_log_power sol)
                mults order with
        | Ok ser => (z, ser) :: series_terms leftmost mults keys order l'
        | Raise _ => series_terms leftmost mults keys order l'
        end
  end.

Definition enc_row (row : list ball) (f : nat -> C) : Prop :=
  forall j b, nth_error row j = Some b -> contains b (f j).

Definition enc_mat (res : list (list ball)) (T : nat -> nat -> C) : Prop :=
  forall i row, nth_error res i = Some row -> enc_row row (T i).

Lemma Cadd_Cmul_0 (x z : C) : Cadd x (Cmul z C0) = x.
Proof. apply C_ext; unfold Cadd, Cmul, C0; cbn [Re Im]; ring. Qed.

Lemma add_row_enc (c : ball) (z : C) (sr : list coef) :
  contains c z ->
  forall row r f,
    add_row coef b_scale c row sr = Ok r ->
    enc_row row f ->
    enc_row r (fun j => Cadd (f j) (Cmul z (row_entry sr j))).
Proof.
  intros Hc. induction sr as [|a sr IH]; intros row r f; cbn [add_row].
  - intros [= <-] Hrow j b Hb. unfold row_entry.
    replace (nth_error (@nil coef) j) with (@None coef)
      by (now destruct j).
    rewrite Cadd_Cmul_0. now apply Hrow.
  - destruct row as [|y row]; [discriminate|].
    destruct (add_row coef b_scale c row sr) as [r'|] eqn:E; cbn [bind];
      [|discriminate].
    intros [= <-] Hrow [|j] b Hb; cbn [nth_error] in Hb.
    + injection Hb as <-. unfold row_entry. cbn [nth_error].
      apply add_ok; [apply (Hrow 0%nat); reflexivity | now apply b_scale_ok].
    + apply (IH row r' (fun j => f (S j)) E
               (fun j b H => Hrow (S j) b H) j b Hb).
Qed.

Lemma add_rows_enc (c : ball) (z : C) (n : nat) :
  contains c z ->
  forall res ser rs T,
    add_rows coef b_scale c n res ser = Ok rs ->
    List.length res = n ->
    enc_mat res T ->
    enc_mat rs (fun i j => Cadd (T i j) (Cmul z (series_entry ser i j))).
Proof.
  intros Hc. induction n as [|n IH]; intros res ser rs T; cbn [add_rows].
  - intros [= <-] Hlen _ i row Hrow.
    destruct res; [|discriminate]. now destruct i.
  - destruct ser as [|sr ser]; [discriminate|].
    destruct res as [|row0 res]; [discriminate|].
    destruct (add_row coef b_scale c row0 sr) as [r|] eqn:Er; cbn [bind];
      [|discriminate].
    destruct (add_rows coef b_scale c n res ser) as [rs'|] eqn:Ers;
      cbn [bind]; [|discriminate].
    intros [= <-] Hlen Hres [|i] row Hrow; cbn [nth_error] in Hrow.
    + injection Hrow as <-. unfold series_entry. cbn [nth_error].
      apply (add_row_enc c z sr Hc row0 r (T 0%nat) Er).
      apply (Hres 0%nat). reflexivity.
    + apply (IH res ser rs' (fun i => T (S i)) Ers
               ltac:(simpl in Hlen; lia)
               (fun i row H => Hres (S i) row H) i row Hrow).
Qed.

Lemma enc_mat_ext (res : list (list ball)) (T T' : nat -> nat -> C) :
  (forall i j, T i j = T' i j) -> enc_mat res T -> enc_mat res T'.
Proof.
  intros Heq H i row Hrow j b Hb. rewrite <- Heq. now apply (H i row Hrow).
Qed.

Lemma Cadd_assoc (a b c : C) : Cadd (Cadd a b) c = Cadd a (Cadd b c).
Proof. apply C_ext; unfold Cadd; cbn [Re Im]; ring. Qed.

Lemma Cadd_0_r (a : C) : Cadd a C0 = a.
Proof. apply C_ext; unfold Cadd, C0; cbn [Re Im]; ring. Qed.

Lemma Cadd_0_l (a : C) : Cadd C0 a = a.
Proof. apply C_ext; unfold Cadd, C0; cbn [Re Im]; ring. Qed.

Lemma series_loop_enc (leftmost : C) (mults : list (nat * nat))
    (keys : list (Z * nat)) (order : Z) (l : list (fund_sol * ball * C)) :
  Forall (fun t => contains (snd (fst t)) (snd t)) l ->
  forall res0 res T,
    series_loop coef b_scale log_series leftmost mults keys order
      (map fst l) (Ok res0) = Ok res ->
    List.length res0 = Z.to_nat order ->
    enc_mat res0 T ->
    enc_mat res
      (fun i j =>
         Cadd (T i j)
           (lin_comb (series_terms leftmost mults keys order l) i j)).
Proof.
  induction l as [|[[sol c] z] l IH]; intros Hl res0 res T.
  - intros [= <-] _ H. apply (enc_mat_ext res0 T); [|exact H].
    intros i j. cbn [series_terms lin_comb]. now rewrite Cadd_0_r.
  - inversion Hl as [|? ? Hc Hl']; subst. cbn [fst snd] in Hc.
    cbn [map fst]. rewrite series_loop_cons. cbn [bind fst snd].
    cbn [series_terms].
    destruct (b_is_zero c || negb (Ceqb (fs_leftmost sol) leftmost)).
    + apply IH. exact Hl'.
    + destruct (log_series leftmost keys (fs_shift sol, fs_log_power sol)
                  mults order) as [ser|e]; cbn [bind];
        [|rewrite series_loop_raise; discriminate].
      destruct (add_rows coef b_scale c (Z.to_nat order) res0 ser)
        as [rs|e] eqn:Ers; [|rewrite series_loop_raise; discriminate].
      intros Hrun Hlen HT.
      pose proof (add_rows_enc c z _ Hc _ _ _ T Ers Hlen HT) as Hrs.
      assert (Hlen' : List.length rs = Z.to_nat order).
      { rewrite (add_rows_length coef b_scale c _ _ _ _ Ers). exact Hlen. }
      apply (enc_mat_ext res
               (fun i j =>
                  Cadd (Cadd (T i j) (Cmul z (series_entry ser i j)))
                    (lin_comb (series_terms leftmost mults keys order l)
                       i j))).
      * intros i j. cbn [lin_comb]. apply Cadd_assoc.
      * apply (IH Hl' rs res _ Hrun Hlen' Hrs).
Qed.

End MyLogSeriesEnclosure.

Lemma combine_values {BA : BallArith} (inivec : list ball) (zs : list C) :
  Forall2 contains inivec zs ->
  forall struct : list fund_sol,
    map fst (combine (combine struct inivec) zs) = combine struct inivec
    /\ Forall (fun t : fund_sol * ball * C => contains (snd (fst t)) (snd t))
         (combine (combine struct inivec) zs).
Proof.
  induction 1 as [|c z inivec zs Hc _ IH]; intros struct.
  - destruct struct; split; constructor.
  - destruct struct as [|sol struct]; [split; constructor|].
    destruct (IH struct) as [Hm Hf]. cbn [combine map fst]. split.
    + now f_equal.
    + constructor; [exact Hc | exact Hf].
Qed.

(** X15.  Enclosure of the local series.  If the balls of the initial
    values contain the complex numbers [zs], and the product of a ball by an
    exact coefficient encloses the products, then every entry [(i, j)] of
    the result of [_my_log_series] contains the linear combination, with
    the coefficients [zs], of the entries [(i, j)] of the exact series
    returned by [log_series] for the initial values of the class whose ball
    is not exactly zero (an entry beyond the end of a row of an exact series
    counts as 0). *)
Theorem my_log_series_encloses {BA : BallArith} (coef : Type)
    (b_scale : ball -> coef -> ball)
    (log_series :
       C -> list (Z * nat) -> Z * nat -> list (nat * nat) -> Z ->
       result (list (list coef)))
    (coef_val : coef -> C)
    (inivec : list ball) (zs : list C) (leftmost : C)
    (mults : list (nat * nat)) (struct : list fund_sol) (order : Z)
    (res : list (list ball)) :
  (forall c z a,
     contains c z -> contains (b_scale c a) (Cmul z (coef_val a))) ->
  Forall2 contains inivec zs ->
  _my_log_series coef b_scale log_series inivec leftmost mults struct order
  = Ok res ->
  forall i j row b,
    nth_error res i = Some row -> nth_error row j = Some b ->
    contains b
      (lin_comb coef coef_val
         (series_terms coef log_series leftmost mults
            (map (fun sol1 => (fs_shift sol1, fs_log_power sol1))
               (filter (fun sol1 => Ceqb (fs_leftmost sol1) leftmost)
                  struct))
            order (combine (combine struct inivec) zs))
         i j).
Proof.
  intros Hscale Hzs Hrun i j row b Hrow Hb.
  destruct (combine_values inivec zs Hzs struct) as [Hmap Hall].
  unfold _my_log_series in Hrun. rewrite <- Hmap in Hrun.
  pose proof (series_loop_enc coef b_scale log_series coef_val Hscale
                leftmost mults _ order _ Hall _ res (fun _ _ => C0) Hrun)
    as Henc.
  rewrite <- (Cadd_0_l (lin_comb _ _ _ i j)).
  refine (Henc (repeat_length _ _) _ i row Hrow j b Hb).
  intros i0 row0 Hrow0 j0 b0 Hb0.
  apply nth_error_In in Hrow0. apply repeat_spec in Hrow0. subst row0.
  apply nth_error_In in Hb0. apply repeat_spec in Hb0. subst b0.
  apply (of_real_ok 0).
Qed.

Lemma my_log_series_encloses_witness :
  exists res : list (list ExactBalls.eball),
    _my_log_series (BA := ExactBalls.exact_balls) R
      (fun c a => ExactBalls.e_mul c (ExactBalls.e_of_real a))
      (fun _ _ _ _ _ => Ok [[1]])
      [ExactBalls.e_of_real 1] (RtoC (-1)) [(0%nat, 1%nat)]
      [FundSol (RtoC (-1)) 0 0 []] 1 = Ok res
    /\ forall i j row b,
         nth_error res i = Some row -> nth_error row j = Some b ->
         ExactBalls.e_contains b
           (lin_comb R RtoC
              (series_terms (BA := ExactBalls.exact_balls) R
                 (fun _ _ _ _ _ => Ok [[1]]) (RtoC (-1)) [(0%nat, 1%nat)]
                 (map (fun sol1 => (fs_shift sol1, fs_log_power sol1))
                    (filter (fun sol1 => Ceqb (fs_leftmost sol1) (RtoC (-1)))
                       [FundSol (RtoC (-1)) 0 0 []]))
                 1
                 (combine
                    (combine [FundSol (RtoC (-1)) 0 0 []]
                       [ExactBalls.e_of_real 1])
                    [RtoC 1]))
              i j).
Proof.
  assert (E : _my_log_series (BA := ExactBalls.exact_balls) R
                (fun c a => ExactBalls.e_mul c (ExactBalls.e_of_real a))
                (fun _ _ _ _ _ => Ok [[1]])
                [ExactBalls.e_of_real 1] (RtoC (-1)) [(0%nat, 1%nat)]
                [FundSol (RtoC (-1)) 0 0 []] 1
              = Ok [[ExactBalls.e_add (ExactBalls.e_of_real 0)
                       (ExactBalls.e_mul (ExactBalls.e_of_real 1)
                          (ExactBalls.e_of_real 1))]]).
  { unfold _my_log_series.
    cbn [combine fold_left bind fst snd fs_leftmost b_is_zero
         ExactBalls.exact_balls ExactBalls.e_is_zero ExactBalls.e_of_real].
    change C0 with (RtoC 0).
    rewrite (GeometricSeries.Ceqb_RtoC_false 1 0) by lra.
    replace (Ceqb (RtoC (-1)) (RtoC (-1))) with true
      by (symmetry; now apply Ceqb_true).
    reflexivity. }
  eexists. split; [exact E|].
  apply (my_log_series_encloses (BA := ExactBalls.exact_balls) R
           (fun c a => ExactBalls.e_mul c (ExactBalls.e_of_real a))
           (fun _ _ _ _ _ => Ok [[1]]) RtoC
           [ExactBalls.e_of_real 1] [RtoC 1] (RtoC (-1)) [(0%nat, 1%nat)]
           [FundSol (RtoC (-1)) 0 0 []] 1 _).
  - intros c z a Hc.
    replace (Cmul z (RtoC a)) with (Cscale a z)
      by (apply C_ext; unfold Cmul, Cscale, RtoC; cbn [Re Im]; ring).
    apply (mul_real_ok (BallArith := ExactBalls.exact_balls) c
             (ExactBalls.e_of_real a) z a Hc).
    apply (of_real_ok (BallArith := ExactBalls.exact_balls) a).
  - constructor; [|constructor].
    apply (of_real_ok (BallArith := ExactBalls.exact_balls) 1).
  - exact E.
Defined.
